(** * bencode: the codec and the reflective marshalling layer

    A shallow embedding of the Go package [bencode] (the decoder and encoder
    of RawMessage trees, and the reflect-driven marshal/unmarshal functions
    of struct.go), followed by the properties of the package that the
    specification states.

    Go strings and the wire are byte sequences: they are [string]s here
    (a [string] is a list of 8-bit [ascii] characters).  A [bufio.Reader]
    over a finite input is the string of bytes that remain to be read. *)

From Stdlib Require Import ZArith Ascii String List Lia Bool.
From stdpp Require Import base gmap strings list.

Set Default Proof Using "Type".
Local Open Scope Z_scope.
Local Arguments String.append : simpl nomatch.

(** ** Kinds, errors, run-time panics *)

(** [reflect.Kind], as far as the package tells kinds apart.  [OtherKind]
    stands for every kind the package has no case for (Bool, Int, Int32,
    Float64, Array, Interface, ...), told apart by a number. *)
Inductive Kind : Type :=
  | Int64 | Uint64 | String_ | Slice | Ptr | Struct | Map
  | OtherKind (n : nat).

Global Instance Kind_eq_dec : EqDecision Kind.
Proof. solve_decision. Defined.

(** The [error] values the package returns, by the place that makes them. *)
Inductive error : Type :=
  | EOF                                   (* io.EOF *)
  | ErrUnexpectedEOF                      (* io.ErrUnexpectedEOF *)
  | ErrNotADigit                          (* "not a digit" *)
  | ErrUnexpectedChar (c : ascii)         (* "unexpected character: '%v'" *)
  | ErrSyntax                             (* strconv.ErrSyntax *)
  | ErrRange                              (* strconv.ErrRange *)
  | ErrNotAPOD (k : Kind)                 (* "not a POD: %v" *)
  | ErrMismatchedType (got want : Kind)   (* "mismatched type got: %v want: %v" *)
  | ErrNotASlice (k : Kind)               (* "not a Slice: %v" *)
  | ErrNotAPtrMap (k : Kind)              (* "not a Ptr/Map: %v" *)
  | ErrNotAStruct (k : Kind)              (* "not a Struct: %v" *)
  | ErrField (key : string) (e : error).  (* "field: %q: %v" *)

(** Run-time faults: the call does not return to its caller. *)
Inductive panic : Type :=
  | IndexOutOfRange          (* s[i] with i >= len(s) *)
  | TypeAssertion            (* x.(T) on a value that is not a T *)
  | MakesliceLen             (* make([]byte, n) with n out of range *)
  | ReflectPanic (what : string).

Inductive outcome (A : Type) : Type :=
  | Ok (a : A)
  | Err (e : error)
  | Panic (p : panic).
Arguments Ok {A} a.
Arguments Err {A} e.
Arguments Panic {A} p.

Global Instance outcome_ret : MRet outcome := fun A a => Ok a.

Global Instance outcome_bind : MBind outcome := fun A B f m =>
  match m with
  | Ok a => f a
  | Err e => Err e
  | Panic p => Panic p
  end.

Definition returned {A} (m : outcome A) : Prop :=
  match m with Panic _ => False | _ => True end.

Definition is_error {A} (m : outcome A) : Prop :=
  match m with Err _ => True | _ => False end.

(** ** Bytes and byte strings *)

Definition byte_val (c : ascii) : Z := Z.of_nat (nat_of_ascii c).

Definition is_digit (c : ascii) : bool :=
  (byte_val "0" <=? byte_val c) && (byte_val c <=? byte_val "9").

Definition strlen (s : string) : Z := Z.of_nat (String.length s).

Fixpoint take (n : nat) (s : string) : string :=
  match n, s with
  | S n', String c s' => String c (take n' s')
  | _, _ => EmptyString
  end.

Fixpoint drop (n : nat) (s : string) : string :=
  match n, s with
  | S n', String _ s' => drop n' s'
  | _, _ => s
  end.

(** ** strconv and fmt

    [strconv.ParseUint(s, 0, 64)], [strconv.ParseInt(s, 0, 64)] and
    [fmt.Sprintf("%d", n)] belong to the Go library.  The package calls the
    parsers only on tokens returned by [intBuf], which are made of ['-'] and
    the digits ['0'..'9'] (lemma [intBuf_alphabet] below); on this alphabet
    base 0 means: a leading ['0'] selects base 8, anything else base 10.
    Every other byte is a syntax error here. *)
Module strconv.

Definition maxUint64 : Z := 2 ^ 64 - 1.

(** The digit loop of [ParseUint], on a 64-bit accumulator [n]. *)
Fixpoint digits (base : Z) (s : string) (n : Z) : outcome Z :=
  match s with
  | EmptyString => Ok n
  | String c s' =>
      if negb (is_digit c) then Err ErrSyntax
      else
        let d := byte_val c - byte_val "0" in
        if base <=? d then Err ErrSyntax
        else if maxUint64 / base + 1 <=? n then Err ErrRange
        else
          let n' := n * base in
          let n1 := (n' + d) mod 2 ^ 64 in
          if (n1 <? n') || (maxUint64 <? n1) then Err ErrRange
          else digits base s' n1
  end.

Definition ParseUint (s : string) : outcome Z :=
  match s with
  | EmptyString => Err ErrSyntax
  | String "0" s' => digits 8 s' 0
  | _ => digits 10 s 0
  end.

(** [int64(u)] for a [uint64] [u]: the same 64 bits, read as signed. *)
Definition int64_of_uint64 (u : Z) : Z :=
  if u <? 2 ^ 63 then u else u - 2 ^ 64.

(** Negation on [int64] wraps at the minimum. *)
Definition neg64 (n : Z) : Z := (- n + 2 ^ 63) mod 2 ^ 64 - 2 ^ 63.

Definition ParseInt (s : string) : outcome Z :=
  match s with
  | EmptyString => Err ErrSyntax
  | String c s' =>
      let neg := if decide (c = "-"%char) then true else false in
      let body :=
        if decide (c = "+"%char) then s' else if neg then s' else s in
      match ParseUint body with
      | Err ErrRange => Err ErrRange
      | Err e => Err e
      | Panic p => Panic p
      | Ok un =>
          let cutoff := 2 ^ 63 in
          if negb neg && (cutoff <=? un) then Err ErrRange
          else if neg && (cutoff <? un) then Err ErrRange
          else
            let n := int64_of_uint64 un in
            Ok (if neg then neg64 n else n)
      end
  end.

(** The decimal digit [d], as a byte. *)
Definition digitByte (d : Z) : ascii :=
  ascii_of_nat (Z.to_nat (byte_val "0" + d)).

(** The loop of [fmt] for an integer in base 10: the digits of [u] are
    written in front of [buf], the last one first.  The fuel is the room
    in the buffer. *)
Fixpoint fmtDigits (fuel : nat) (u : Z) (buf : string) : string :=
  match fuel with
  | O => buf
  | S fuel' =>
      if u <? 10 then String (digitByte u) buf
      else fmtDigits fuel' (u / 10) (String (digitByte (u mod 10)) buf)
  end.

(** [fmt.Sprintf("%d", u)] for a [uint64] (and for a length): at most 20
    digits. *)
Definition FormatUint (u : Z) : string := fmtDigits 20 u "".

(** [fmt.Sprintf("%d", i)] for an [int64]. *)
Definition FormatInt (i : Z) : string :=
  if i <? 0 then String "-" (FormatUint (- i)) else FormatUint i.

End strconv.

(** ** The generic value (RawMessage)

    [POD interface{}] holds nothing, an [int64], a [uint64] or a [string];
    [Marshal] of a pointer to anything but a struct stores that pointer in
    it, which is [PForeign] with the kind of what was stored (nothing in the
    package looks further into such a value).  [L []*RawMessage] and
    [D []*KV] are ordered sequences, of which the package only ever looks at
    the length and the elements. *)
Inductive POD : Type :=
  | PInt64 (i : Z)
  | PUint64 (u : Z)
  | PString (s : string)
  | PForeign (k : Kind).

Unset Elimination Schemes.
Inductive RawMessage : Type :=
  mkRawMessage {
    rmPOD : option POD;
    rmL : list RawMessage;
    rmD : list (string * RawMessage)
  }.
Set Elimination Schemes.

Abbreviation KV := (string * RawMessage)%type.

(** [&RawMessage{}] *)
Definition emptyRM : RawMessage := mkRawMessage None [] [].
Definition podRM (p : POD) : RawMessage := mkRawMessage (Some p) [] [].
Definition listRM (l : list RawMessage) : RawMessage := mkRawMessage None l [].
Definition dictRM (d : list KV) : RawMessage := mkRawMessage None [] d.

(** ** The decoder *)

Abbreviation Reader := string.

Definition ReadByte (r : Reader) : outcome (ascii * Reader) :=
  match r with
  | EmptyString => Err EOF
  | String c r' => Ok (c, r')
  end.

(** [UnreadByte] after a [ReadByte] that returned [c] puts [c] back; it
    cannot fail there. *)
Definition UnreadByte (c : ascii) (r : Reader) : Reader := String c r.

Definition isDelim (r : Reader) (delim : ascii) : outcome (bool * Reader) :=
  '(c, r1) ← ReadByte r;
  if decide (c = delim) then Ok (true, r1)
  else Ok (false, UnreadByte c r1).

(** The loop of [intBuf], with the bytes collected so far in [buf].  Each
    round reads one byte, so the loop is a recursion on the input. *)
Fixpoint intBuf_loop (r : Reader) (delim : ascii) (buf : string)
  : outcome (string * Reader) :=
  match r with
  | EmptyString => Err EOF
  | String c r' =>
      if decide (c = delim) then Ok (buf, r')
      else if negb (bool_decide (c = "-"%char) || is_digit c)
           then Err ErrNotADigit
           else intBuf_loop r' delim (buf +:+ String c EmptyString)
  end.

Definition intBuf (r : Reader) (delim : ascii) : outcome (string * Reader) :=
  intBuf_loop r delim EmptyString.

(** The largest byte count [make([]byte, l)] accepts (linux/amd64); above
    it the runtime panics with "makeslice: len out of range". *)
Definition maxAlloc : Z := 2 ^ 48.

Definition ReadFull (r : Reader) (l : nat) : outcome (string * Reader) :=
  if (l <=? String.length r)%nat then Ok (take l r, drop l r)
  else match r with
       | EmptyString => Err EOF
       | _ => Err ErrUnexpectedEOF
       end.

Definition strBuf (r : Reader) : outcome (string * Reader) :=
  '(intbuf, r1) ← intBuf r ":";
  l ← strconv.ParseUint intbuf;
  if maxAlloc <? l then Panic MakesliceLen
  else ReadFull r1 (Z.to_nat l).

(** [decodeRawMessage] recurses on what remains of the input after earlier
    reads, so it is defined on a [fuel] that bounds the number of nested and
    successive calls; [None] means the fuel ran out (it does not when the
    fuel exceeds the length of the input, see [decode_fuel_enough]). *)
Section loops.

Variable decodeValue : Reader -> option (outcome (RawMessage * Reader)).

Fixpoint decodeL_loop (n : nat) (r : Reader) (L : list RawMessage)
  : option (outcome (list RawMessage * Reader)) :=
  match n with
  | O => None
  | S n' =>
      match isDelim r "e" with
      | Err e => Some (Err e)
      | Panic p => Some (Panic p)
      | Ok (true, r1) => Some (Ok (L, r1))
      | Ok (false, r1) =>
          match decodeValue r1 with
          | None => None
          | Some (Err e) => Some (Err e)
          | Some (Panic p) => Some (Panic p)
          | Some (Ok (ln, r2)) => decodeL_loop n' r2 (L ++ [ln])
          end
      end
  end.

Fixpoint decodeD_loop (n : nat) (r : Reader) (D : list KV)
  : option (outcome (list KV * Reader)) :=
  match n with
  | O => None
  | S n' =>
      match isDelim r "e" with
      | Err e => Some (Err e)
      | Panic p => Some (Panic p)
      | Ok (true, r1) => Some (Ok (D, r1))
      | Ok (false, r1) =>
          match decodeValue r1 with
          | None => None
          | Some (Err e) => Some (Err e)
          | Some (Panic p) => Some (Panic p)
          | Some (Ok (k, r2)) =>
              match decodeValue r2 with
              | None => None
              | Some (Err e) => Some (Err e)
              | Some (Panic p) => Some (Panic p)
              | Some (Ok (v, r3)) =>
                  (* kv := &KV{k.POD.(string), v} *)
                  match rmPOD k with
                  | Some (PString key) =>
                      decodeD_loop n' r3 (D ++ [(key, v)])
                  | _ => Some (Panic TypeAssertion)
                  end
              end
          end
      end
  end.

End loops.

Fixpoint decodeRawMessage (fuel : nat) (r : Reader)
  : option (outcome (RawMessage * Reader)) :=
  match fuel with
  | O => None
  | S fuel' =>
      match ReadByte r with
      | Err e => Some (Err e)
      | Panic p => Some (Panic p)
      | Ok (c, r1) =>
          if is_digit c then
            Some ('(strbuf, r2) ← strBuf (UnreadByte c r1);
                  Ok (podRM (PString strbuf), r2))
          else if decide (c = "i"%char) then
            Some ('(intbuf, r2) ← intBuf r1 "e";
                  match intbuf with
                  | EmptyString => Panic IndexOutOfRange   (* intbuf[0] *)
                  | String c0 _ =>
                      if decide (c0 = "-"%char) then
                        i ← strconv.ParseInt intbuf;
                        Ok (podRM (PInt64 i), r2)
                      else
                        u ← strconv.ParseUint intbuf;
                        Ok (podRM (PUint64 u), r2)
                  end)
          else if decide (c = "l"%char) then
            match decodeL_loop (decodeRawMessage fuel') fuel' r1 [] with
            | None => None
            | Some o => Some ('(L, r2) ← o; Ok (listRM L, r2))
            end
          else if decide (c = "d"%char) then
            match decodeD_loop (decodeRawMessage fuel') fuel' r1 [] with
            | None => None
            | Some o => Some ('(D, r2) ← o; Ok (dictRM D, r2))
            end
          else Some (Err (ErrUnexpectedChar c))
      end
  end.

(** [Decode]: one value is read from the front of the input; what follows it
    is left unread. *)
Definition Decode (b : string) : outcome RawMessage :=
  match decodeRawMessage (S (String.length b)) b with
  | Some o => '(root, _) ← o; Ok root
  | None => Err EOF   (* not reached: [decode_fuel_enough] *)
  end.

(** ** The encoder *)

Definition encodePOD (pod : POD) : string :=
  match pod with
  | PInt64 i => "i" +:+ strconv.FormatInt i +:+ "e"
  | PUint64 u => "i" +:+ strconv.FormatUint u +:+ "e"
  | PString s => strconv.FormatUint (strlen s) +:+ ":" +:+ s
  | PForeign _ => ""
  end.

Section encode_loops.

Variable encodeValue : RawMessage -> string.

Fixpoint encodeL_loop (l : list RawMessage) : string :=
  match l with
  | [] => EmptyString
  | i :: l' => encodeValue i +:+ encodeL_loop l'
  end.

Fixpoint encodeD_loop (d : list KV) : string :=
  match d with
  | [] => EmptyString
  | kv :: d' =>
      encodePOD (PString (fst kv)) +:+ encodeValue (snd kv)
      +:+ encodeD_loop d'
  end.

End encode_loops.

(** The bytes written to [w], in order. *)
Fixpoint encodeRawMessage (m : RawMessage) : string :=
  match m with
  | mkRawMessage (Some pod) _ _ => encodePOD pod
  | mkRawMessage None L D =>
      if (0 <? length L)%nat then
        "l" +:+ encodeL_loop encodeRawMessage L +:+ "e"
      else if (0 <? length D)%nat then
        "d" +:+ encodeD_loop encodeRawMessage D +:+ "e"
      else EmptyString
  end.

Definition Encode (m : RawMessage) : string := encodeRawMessage m.

(** ** Go types and values, as [reflect] shows them

    A [reflect.Type] is a finite tree.  [TRawMessage] is the package's own
    struct type [RawMessage] (it refers to itself, so it is a constant here
    and its values are [RawMessage] trees); a [TStruct] is any other struct
    type.  [TOther n] is a type of kind [OtherKind n]. *)
Record StructField : Type := mkStructField {
  Name : string;
  PkgPath : string;                (* empty for an exported field *)
  Tag : list (string * string)     (* the struct tag, as key:"value" pairs *)
}.

Unset Elimination Schemes.
Inductive type : Type :=
  | TInt64
  | TUint64
  | TString
  | TOther (n : nat)
  | TSlice (elem : type)
  | TPtr (elem : type)
  | TMap (key elem : type)
  | TStruct (name : string) (fields : list (StructField * type))
  | TRawMessage.

(** A [reflect.Value]: the data together with its type.  A slice is the
    sequence of its elements (nil and empty slices both have length 0); a
    pointer is nil or points to a value; a map is nil or a sequence of
    entries. *)
Inductive value : Type :=
  | VInt64 (i : Z)
  | VUint64 (u : Z)
  | VString (s : string)
  | VOther (n : nat) (bits : Z)
  | VSlice (elem : type) (xs : list value)
  | VPtr (elem : type) (target : option value)
  | VMap (key elem : type) (entries : option (list (value * value)))
  | VStruct (name : string) (fields : list (StructField * value))
  | VRawMessage (m : RawMessage).
Set Elimination Schemes.

Definition KindOf (t : type) : Kind :=
  match t with
  | TInt64 => Int64
  | TUint64 => Uint64
  | TString => String_
  | TOther n => OtherKind n
  | TSlice _ => Slice
  | TPtr _ => Ptr
  | TMap _ _ => Map
  | TStruct _ _ => Struct
  | TRawMessage => Struct
  end.

(** [Type.Name()]: empty for unnamed (composite) types. *)
Definition TypeName (t : type) : string :=
  match t with
  | TInt64 => "int64"
  | TUint64 => "uint64"
  | TString => "string"
  | TStruct name _ => name
  | TRawMessage => "RawMessage"
  | _ => ""
  end.

(** [Value.Type()] *)
Fixpoint TypeOf (v : value) : type :=
  match v with
  | VInt64 _ => TInt64
  | VUint64 _ => TUint64
  | VString _ => TString
  | VOther n _ => TOther n
  | VSlice elem _ => TSlice elem
  | VPtr elem _ => TPtr elem
  | VMap key elem _ => TMap key elem
  | VStruct name fields =>
      TStruct name (map (fun fv => (fst fv, TypeOf (snd fv))) fields)
  | VRawMessage _ => TRawMessage
  end.

(** [Value.Kind()] *)
Definition vKind (v : value) : Kind :=
  match v with
  | VInt64 _ => Int64
  | VUint64 _ => Uint64
  | VString _ => String_
  | VOther n _ => OtherKind n
  | VSlice _ _ => Slice
  | VPtr _ _ => Ptr
  | VMap _ _ _ => Map
  | VStruct _ _ => Struct
  | VRawMessage _ => Struct
  end.

(** [reflect.Zero(t)] *)
Fixpoint Zero (t : type) : value :=
  match t with
  | TInt64 => VInt64 0
  | TUint64 => VUint64 0
  | TString => VString ""
  | TOther n => VOther n 0
  | TSlice elem => VSlice elem []
  | TPtr elem => VPtr elem None
  | TMap key elem => VMap key elem None
  | TStruct name fields =>
      VStruct name (map (fun ft => (fst ft, Zero (snd ft))) fields)
  | TRawMessage => VRawMessage emptyRM
  end.

(** [reflect.New(t)]: a pointer to a fresh zero value. *)
Definition New (t : type) : value := VPtr t (Some (Zero t)).

Definition isPOD (k : Kind) : bool :=
  bool_decide (k = Int64) || bool_decide (k = Uint64)
  || bool_decide (k = String_).

Definition isRawMessagePtr (typ : type) : bool :=
  match typ with
  | TPtr elem => bool_decide (TypeName elem = "RawMessage")
  | _ => false
  end.

(** [StructTag.Get] *)
Fixpoint TagGet (tag : list (string * string)) (key : string) : string :=
  match tag with
  | [] => ""
  | (k, v) :: tag' => if decide (k = key) then v else TagGet tag' key
  end.

(** The wire key of a field: its "ben" tag, or else its name. *)
Definition fieldKey (field : StructField) : string :=
  if (0 <? length (Tag field))%nat then
    let tag := TagGet (Tag field) "ben" in
    if (0 <? String.length tag)%nat then tag else Name field
  else Name field.

Definition exported (field : StructField) : bool :=
  negb (0 <? String.length (PkgPath field))%nat.

(** ** The projector (marshal) *)

(** [val.Interface()], as a [POD]. *)
Definition Interface (val : value) : POD :=
  match val with
  | VInt64 i => PInt64 i
  | VUint64 u => PUint64 u
  | VString s => PString s
  | _ => PForeign (vKind val)
  end.

(** [nil] when [val] is the zero value of its type.  Besides the three
    scalar kinds, [Marshal] passes it a pointer, which is zero when nil. *)
Definition marshalPOD (val : value) : option RawMessage :=
  let zero :=
    match val with
    | VInt64 i => bool_decide (i = 0)
    | VUint64 u => bool_decide (u = 0)
    | VString s => bool_decide (s = "")
    | VPtr _ target => bool_decide (target = None)
    | _ => false
    end in
  if zero then None else Some (podRM (Interface val)).

Section marshal_loops.

(** The [switch] on the kind of an element or field, shared by
    [marshalList] and [marshalDict]. *)
Variable marshalKind : Kind -> value -> outcome (option RawMessage).

Fixpoint marshalList_loop (kind : Kind) (xs : list value)
    (L : list RawMessage) : outcome (list RawMessage) :=
  match xs with
  | [] => Ok L
  | x :: xs' =>
      m ← marshalKind kind x;
      marshalList_loop kind xs'
        (match m with Some m' => L ++ [m'] | None => L end)
  end.

Definition marshalList_with (val : value) : outcome (option RawMessage) :=
  match val with
  | VSlice elem xs =>
      if (length xs =? 0)%nat then Ok None
      else
        L ← marshalList_loop (KindOf elem) xs [];
        Ok (Some (listRM L))
  | _ => Panic (ReflectPanic "reflect: call of reflect.Value.Len")
  end.

Fixpoint marshalDict_loop (fields : list (StructField * value))
    (D : list KV) : outcome (list KV) :=
  match fields with
  | [] => Ok D
  | (field, fv) :: fields' =>
      if negb (exported field) then marshalDict_loop fields' D
      else
        let key := fieldKey field in
        V ← marshalKind (KindOf (TypeOf fv)) fv;
        marshalDict_loop fields'
          (match V with Some m => D ++ [(key, m)] | None => D end)
  end.

Definition marshalDict_with (val : value) : outcome (option RawMessage) :=
  match val with
  | VPtr _ None =>
      Panic (ReflectPanic "reflect: call of reflect.Value.Type on zero Value")
  | VPtr _ (Some (VRawMessage m)) => Ok (Some m)
  | VPtr _ (Some (VStruct name fields)) =>
      if decide (name = "RawMessage") then Panic TypeAssertion
      else
        D ← marshalDict_loop fields [];
        Ok (Some (dictRM D))
  | VPtr _ (Some v) => Err (ErrNotAStruct (vKind v))
  | _ => Panic (ReflectPanic "reflect: call of reflect.Value.Elem")
  end.

End marshal_loops.

Fixpoint marshalKind (kind : Kind) (val : value) {struct val}
  : outcome (option RawMessage) :=
  match kind with
  | Int64 | Uint64 | String_ => Ok (marshalPOD val)
  | Slice => marshalList_with marshalKind val
  | Ptr => marshalDict_with marshalKind val
  | _ => Ok None
  end.

Definition marshalList : value -> outcome (option RawMessage) :=
  marshalList_with marshalKind.

Definition marshalDict : value -> outcome (option RawMessage) :=
  marshalDict_with marshalKind.

(** [Marshal] up to the bytes written: [None] when nothing is written. *)
Definition Marshal (val : value) : outcome (option string) :=
  let projected : outcome (option RawMessage) :=
    match val with
    | VPtr elem _ =>
        if decide (KindOf elem = Struct) then marshalDict val
        else Ok (marshalPOD val)
    | VSlice _ _ => marshalList val
    | _ => Ok None
    end in
  match projected with
  | Ok (Some rm) => Ok (Some (Encode rm))
  | Ok None => Ok None
  | Err e => Err e
  | Panic p => Panic p
  end.

(** ** The injector (unmarshal)

    A target is updated in place in Go; here every function takes the
    current contents of its target and returns the new contents. *)

Definition podKind (pod : POD) : Kind :=
  match pod with
  | PInt64 _ => Int64
  | PUint64 _ => Uint64
  | PString _ => String_
  | PForeign k => k
  end.

(** [unmarshalPOD(pod, val)], on [v = val.Elem()]. *)
Definition unmarshalPOD (pod : POD) (v : value) : outcome value :=
  let podk := podKind pod in
  if negb (isPOD podk) then Err (ErrNotAPOD podk)
  else
    let k := KindOf (TypeOf v) in
    if bool_decide (k = Int64) && bool_decide (podk = Uint64) then
      match pod with
      | PUint64 u => Ok (VInt64 (strconv.int64_of_uint64 u))
      | _ => Panic TypeAssertion
      end
    else if negb (bool_decide (podk = k)) then Err (ErrMismatchedType k podk)
    else
      match pod with
      | PInt64 i => Ok (VInt64 i)
      | PUint64 u => Ok (VUint64 u)
      | PString s => Ok (VString s)
      | PForeign _ => Panic (ReflectPanic "reflect.Set: value is not assignable")
      end.

(** [val.Set(reflect.ValueOf(rm))] on a target of type [typ]: only a
    [*RawMessage] of this package can hold [rm]. *)
Definition setRawMessage (typ : type) (rm : RawMessage) : outcome value :=
  match typ with
  | TPtr TRawMessage => Ok (VPtr TRawMessage (Some (VRawMessage rm)))
  | _ => Panic (ReflectPanic "reflect.Set: value is not assignable")
  end.

(** The [fields] map of [unmarshalDict]: wire key to field.  A field is
    addressed by its index in the struct; a later field with the same key
    replaces an earlier one. *)
Fixpoint fieldsMap_loop (fs : list (StructField * value)) (i : nat)
    (fields : gmap string nat) : gmap string nat :=
  match fs with
  | [] => fields
  | (field, _) :: fs' =>
      if negb (exported field) then fieldsMap_loop fs' (S i) fields
      else fieldsMap_loop fs' (S i) (<[fieldKey field := i]> fields)
  end.

Definition fieldsMap (fs : list (StructField * value)) : gmap string nat :=
  fieldsMap_loop fs 0%nat ∅.

Section unmarshal_loops.

(** The [switch] in the loop of [unmarshalList], on an element of type
    [elem] whose contents are [val], and the one in the loop of
    [unmarshalDict], on a field. *)
Variable unmarshalElem : RawMessage -> type -> value -> outcome value.
Variable unmarshalField : RawMessage -> type -> value -> outcome value.

Fixpoint unmarshalList_loop (l : list RawMessage) (i : nat) (elem : type)
    (xs : list value) : outcome (list value) :=
  match l with
  | [] => Ok xs
  | rm :: l' =>
      let xs1 := xs ++ [Zero elem] in
      match xs1 !! i with
      | None => Panic IndexOutOfRange
      | Some val =>
          val' ← unmarshalElem rm elem val;
          unmarshalList_loop l' (S i) elem (<[i := val']> xs1)
      end
  end.

Definition unmarshalList_with (l : list RawMessage) (v : value)
  : outcome value :=
  match v with
  | VSlice elem xs =>
      xs' ← unmarshalList_loop l 0%nat elem xs;
      Ok (VSlice elem xs')
  | _ => Err (ErrNotASlice (vKind v))
  end.

Fixpoint unmarshalDict_loop (d : list KV) (fields : gmap string nat)
    (fs : list (StructField * value))
  : outcome (list (StructField * value)) :=
  match d with
  | [] => Ok fs
  | (K, rm) :: d' =>
      match fields !! K with
      | None => unmarshalDict_loop d' fields fs
      | Some i =>
          match fs !! i with
          | None => Panic IndexOutOfRange
          | Some (sf, field) =>
              match unmarshalField rm (TypeOf field) field with
              | Ok field' =>
                  unmarshalDict_loop d' fields (<[i := (sf, field')]> fs)
              | Err e => Err (ErrField K e)
              | Panic p => Panic p
              end
          end
      end
  end.

(** A [*RawMessage] reaches [unmarshalDict] as the target only when the
    method [Unmarshal] is called on one: fields of that type are taken by
    the [isRawMessagePtr] case before.  The fields of [RawMessage] as a
    record are not part of this model of its values. *)
Definition unmarshalDict_with (d : list KV) (val : value) : outcome value :=
  match val with
  | VPtr _ None =>
      Panic (ReflectPanic "reflect: call of reflect.Value.Type on zero Value")
  | VPtr elem (Some (VStruct name fs)) =>
      fs' ← unmarshalDict_loop d (fieldsMap fs) fs;
      Ok (VPtr elem (Some (VStruct name fs')))
  | VPtr _ (Some (VRawMessage _)) =>
      Panic (ReflectPanic "not modelled: RawMessage as a record target")
  | VPtr _ (Some v) => Err (ErrNotAStruct (vKind v))
  | VMap _ _ _ =>
      _ ← unmarshalDict_loop d ∅ [];
      Ok val
  | _ => Err (ErrNotAPtrMap (vKind val))
  end.

End unmarshal_loops.

Fixpoint unmarshalElem (rm : RawMessage) (elem : type) (val : value)
    {struct rm} : outcome value :=
  match rm with
  | mkRawMessage POD L D =>
      if isRawMessagePtr elem then setRawMessage elem rm
      else
        match POD with
        | Some pod => unmarshalPOD pod val
        | None =>
            if (0 <? length L)%nat then
              unmarshalList_with unmarshalElem L val
            else if (0 <? length D)%nat then
              match elem with
              | TPtr t =>
                  unmarshalDict_with unmarshalField D (New t)
              | _ => Panic (ReflectPanic "reflect: Elem of invalid type")
              end
            else Ok val
        end
  end
with unmarshalField (rm : RawMessage) (typ : type) (field : value)
    {struct rm} : outcome value :=
  match rm with
  | mkRawMessage POD L D =>
      if isRawMessagePtr typ then setRawMessage typ rm
      else
        match POD with
        | Some pod => unmarshalPOD pod field
        | None =>
            if (0 <? length L)%nat then
              unmarshalList_with unmarshalElem L field
            else if (0 <? length D)%nat then
              match typ with
              | TMap key elem =>
                  unmarshalDict_with unmarshalField D (VMap key elem (Some []))
              | TPtr t =>
                  unmarshalDict_with unmarshalField D (New t)
              | _ => Panic (ReflectPanic "reflect: Elem of invalid type")
              end
            else Ok field
        end
  end.

Definition unmarshalList : list RawMessage -> value -> outcome value :=
  unmarshalList_with unmarshalElem.

Definition unmarshalDict : list KV -> value -> outcome value :=
  unmarshalDict_with unmarshalField.

(** The method [(rm *RawMessage) Unmarshal(v)].  A slice passed by value
    cannot be set; a nil [rm.POD] has no type to ask the kind of. *)
Definition RawMessage_Unmarshal (rm : RawMessage) (v : value)
  : outcome value :=
  match v with
  | VPtr elem target =>
      if decide (KindOf elem = Struct) then unmarshalDict (rmD rm) v
      else
        match rmPOD rm with
        | None => Panic (ReflectPanic "nil pointer dereference")
        | Some pod =>
            if negb (isPOD (podKind pod)) then Err (ErrNotAPOD (podKind pod))
            else
              match target with
              | None =>
                  Panic (ReflectPanic
                    "reflect: call of reflect.Value.Type on zero Value")
              | Some tv =>
                  tv' ← unmarshalPOD pod tv;
                  Ok (VPtr elem (Some tv'))
              end
        end
  | VSlice _ _ =>
      match rmL rm with
      | [] => Ok v
      | _ :: _ =>
          Panic (ReflectPanic "reflect.Value.Set using unaddressable value")
      end
  | _ => Ok v
  end.

(** [Unmarshal(r, v)] *)
Definition Unmarshal (b : string) (v : value) : outcome value :=
  rm ← Decode b;
  RawMessage_Unmarshal rm v.

(** ** Predicates of the properties *)

(** *** On the decoder and the encoder *)

(** The bytes [intBuf] lets through: ['-'] and the digits. *)
Definition tokenByte (c : ascii) : bool :=
  bool_decide (c = "-"%char) || is_digit c.

Fixpoint tokenBytes (s : string) : bool :=
  match s with
  | EmptyString => true
  | String c s' => tokenByte c && tokenBytes s'
  end.

(** A decoder for the values inside a list or dict that returns on inputs
    shorter than [bound], and leaves less than it was given. *)
Definition progresses (bound : nat)
    (dec : Reader -> option (outcome (RawMessage * Reader))) : Prop :=
  forall r, (String.length r < bound)%nat ->
    exists o, dec r = Some o /\
      forall m r', o = Ok (m, r') ->
        (String.length r' < String.length r)%nat.

(** What the digits written by [fmtDigits] add to a number read so far. *)
Fixpoint shiftIn (fuel : nat) (a u : Z) : Z :=
  match fuel with
  | O => a
  | S fuel' =>
      if u <? 10 then a * 10 + u
      else shiftIn fuel' a (u / 10) * 10 + u mod 10
  end.

(** The RawMessages the encoder writes in full and the decoder gives back:
    a scalar the decoder can make (a negative [int64], a [uint64], a string
    short enough to be allocated), a list or a dict that is not empty, and
    so on for what is inside. *)
Fixpoint canonical (m : RawMessage) : bool :=
  match m with
  | mkRawMessage POD L D =>
      match POD, L, D with
      | Some (PInt64 i), [], [] => (- 2 ^ 63 <=? i) && (i <? 0)
      | Some (PUint64 u), [], [] => (0 <=? u) && (u <? 2 ^ 64)
      | Some (PString s), [], [] => strlen s <=? maxAlloc
      | None, _ :: _, [] => forallb canonical L
      | None, [], _ :: _ =>
          forallb (fun kv : KV =>
                     (strlen (fst kv) <=? maxAlloc) && canonical (snd kv)) D
      | _, _, _ => false
      end
  end.

(** Fuel that is enough to decode the encoding of [m]. *)
Fixpoint need (m : RawMessage) : nat :=
  match m with
  | mkRawMessage _ L D =>
      S (S (list_sum (map need L)
            + list_sum (map (fun kv : KV => need (snd kv)) D)))
  end.

(** A string that does not start with the terminator ['e']. *)
Definition headNotE (s : string) : Prop :=
  exists c t, s = String c t /\ c <> "e"%char.

(** [dec] gives [m] back from the encoding of [m], which does not start
    with the terminator. *)
Definition givesBack (dec : Reader -> option (outcome (RawMessage * Reader)))
    (m : RawMessage) : Prop :=
  (forall rest, dec (encodeRawMessage m +:+ rest) = Some (Ok (m, rest)))
  /\ headNotE (encodeRawMessage m).

(** *** On the projector and the injector *)

(** The kinds [marshalList] and [marshalDict] have a case for. *)
Definition hasCase (k : Kind) : bool :=
  isPOD k || bool_decide (k = Slice) || bool_decide (k = Ptr).

(** The fields the projector leaves out by its own checks: a zero scalar
    and an empty sequence. *)
Definition zeroScalarOrEmpty (fv : value) : bool :=
  match fv with
  | VInt64 i => bool_decide (i = 0)
  | VUint64 u => bool_decide (u = 0)
  | VString s => bool_decide (s = "")
  | VSlice _ xs => bool_decide (xs = [])
  | _ => false
  end.

(** The scalars the decoder makes: an [int64], a [uint64] or a [string]. *)
Definition wireScalar (pod : POD) : bool :=
  match pod with
  | PForeign _ => false
  | _ => true
  end.

(** The entries of a map value. *)
Definition mapEntries (v : value) : list (value * value) :=
  match v with
  | VMap _ _ (Some entries) => entries
  | _ => []
  end.

Global Instance StructField_eq_dec : EqDecision StructField.
Proof. solve_decision. Defined.

Global Instance type_eq_dec : EqDecision type.
Proof.
  unfold EqDecision. fix go 1. intros a b.
  destruct a, b; try (right; discriminate); try (left; reflexivity).
  - destruct (decide (n = n0)) as [->|]; [left; reflexivity | right; congruence].
  - destruct (go a b) as [->|]; [left; reflexivity | right; congruence].
  - destruct (go a b) as [->|]; [left; reflexivity | right; congruence].
  - destruct (go a1 b1) as [->|]; [|right; congruence].
    destruct (go a2 b2) as [->|]; [left; reflexivity | right; congruence].
  - destruct (decide (name = name0)) as [->|]; [|right; congruence].
    assert (Decision (fields = fields0)) as [->|].
    { revert fields0.
      induction fields as [|[f t] fs IH]; intros [|[f' t'] fs'];
        try (right; discriminate); try (left; reflexivity).
      destruct (decide (f = f')) as [->|]; [|right; congruence].
      destruct (go t t') as [->|]; [|right; congruence].
      destruct (IH fs') as [->|]; [left; reflexivity | right; congruence]. }
    + left; reflexivity.
    + right; congruence.
Defined.

(** The values the round trip is stated for: every scalar is non-zero,
    every sequence is non-empty and its elements have its element type,
    every pointer points to a [RawMessage] or to a record that has fields,
    all of them exported and with keys different from each other; and so on
    for the elements and the fields. *)
Fixpoint fullySet (v : value) : bool :=
  match v with
  | VInt64 i => negb (bool_decide (i = 0))
  | VUint64 u => negb (bool_decide (u = 0))
  | VString s => negb (bool_decide (s = ""))
  | VSlice elem xs =>
      (0 <? length xs)%nat
      && forallb (fun x => bool_decide (TypeOf x = elem) && fullySet x) xs
  | VPtr elem (Some (VRawMessage _)) => bool_decide (elem = TRawMessage)
  | VPtr elem (Some (VStruct name fs)) =>
      bool_decide (elem = TypeOf (VStruct name fs))
      && negb (bool_decide (name = "RawMessage"))
      && (0 <? length fs)%nat
      && bool_decide (NoDup (map (fun fv => fieldKey (fst fv)) fs))
      && forallb (fun fv => exported (fst fv) && fullySet (snd fv)) fs
  | _ => false
  end.

(** [m], injected into a fresh target of the type of [v], gives [v]: as an
    element of a sequence and as a field of a record. *)
Definition injects (m : RawMessage) (v : value) : Prop :=
  unmarshalElem m (TypeOf v) (Zero (TypeOf v)) = Ok v
  /\ unmarshalField m (TypeOf v) (Zero (TypeOf v)) = Ok v.

Definition roundTrips (v : value) : Prop :=
  exists m, marshalKind (vKind v) v = Ok (Some m) /\ injects m v.

(** The fields of the zero record of the type of a record. *)
Definition zeroFields (fs : list (StructField * value))
  : list (StructField * value) :=
  map (fun fv => (fst fv, Zero (TypeOf (snd fv)))) fs.

(** ** Sample records *)

Definition ben (name tag : string) : StructField :=
  mkStructField name "" [("ben", tag)].

(** A metainfo record in the manner of the package's own test. *)
Definition file_t : type :=
  TStruct "file"
    [(ben "Length" "length", TUint64); (ben "Path" "path", TSlice TString)].

Definition info_t : type :=
  TStruct "info"
    [(ben "Name" "name", TString);
     (ben "Files" "files", TSlice (TPtr file_t))].

Definition MetaInfo_t : type :=
  TStruct "MetaInfo"
    [(ben "Info" "info", TPtr info_t);
     (ben "AnnounceList" "announce-list", TSlice (TSlice TString));
     (ben "CreationDate" "creation date", TInt64)].

Definition file1 : value :=
  VPtr file_t
    (Some (VStruct "file"
             [(ben "Length" "length", VUint64 42);
              (ben "Path" "path",
               VSlice TString [VString "dir"; VString "a.txt"])])).

Definition metaInfoFields : list (StructField * value) :=
  [(ben "Info" "info",
    VPtr info_t
      (Some (VStruct "info"
               [(ben "Name" "name", VString "demo");
                (ben "Files" "files", VSlice (TPtr file_t) [file1])])));
   (ben "AnnounceList" "announce-list",
    VSlice (TSlice TString)
      [VSlice TString [VString "http://a"; VString "http://b"];
       VSlice TString [VString "http://c"]]);
   (ben "CreationDate" "creation date", VInt64 1234)].

(** The bytes of a small metainfo file. *)
Definition torrent : string :=
  "d8:announce9:http://tr13:announce-listll1:a1:bel1:cee13:creation datei1234e4:infod6:lengthi99e4:name3:foo12:piece lengthi16384e6:pieces4:abcdee".

(** A record with a field of kind [reflect.Bool], [OtherKind 1] here, and
    [&flagRecord{N: 7, Flag: true}]. *)
Definition flagRecord_t : type :=
  TStruct "flagRecord"
    [(mkStructField "N" "" [], TInt64); (mkStructField "Flag" "" [], TOther 1)].

Definition flagRecord : value :=
  VPtr flagRecord_t
    (Some (VStruct "flagRecord"
             [(mkStructField "N" "" [], VInt64 7);
              (mkStructField "Flag" "" [], VOther 1 1)])).

(** A record with a pointer field, and [&node{Id: 1, Next: nil}]. *)
Definition node_t : type :=
  TStruct "node"
    [(mkStructField "Id" "" [], TInt64);
     (mkStructField "Next" "" [], TPtr (TStruct "leaf" []))].

Definition nodeNilNext : value :=
  VPtr node_t
    (Some (VStruct "node"
             [(mkStructField "Id" "" [], VInt64 1);
              (mkStructField "Next" "" [], VPtr (TStruct "leaf" []) None)])).

(** A record with a tagged and an untagged field. *)
Definition point_t : type :=
  TStruct "point"
    [(mkStructField "X" "" [("ben", "x")], TInt64);
     (mkStructField "Y" "" [], TInt64)].

(** A record with a map field. *)
Definition registry_t : type :=
  TStruct "registry" [(mkStructField "Peers" "" [], TMap TString TInt64)].

(** A record with a field that is not exported (its [PkgPath] is not
    empty), and [&counter{Total: 1, seen: 2}]. *)
Definition counter_t : type :=
  TStruct "counter"
    [(mkStructField "Total" "" [], TInt64);
     (mkStructField "seen" "main" [], TInt64)].

Definition counter12 : value :=
  VPtr counter_t
    (Some (VStruct "counter"
             [(mkStructField "Total" "" [], VInt64 1);
              (mkStructField "seen" "main" [], VInt64 2)])).

(** Two fields with one key; a sequence of integers; a pointer to a record
    without fields. *)
Definition pair_t : type :=
  TStruct "pair" [(ben "A" "x", TInt64); (ben "B" "x", TInt64)].

Definition samples_t : type :=
  TStruct "samples" [(mkStructField "Xs" "" [], TSlice TInt64)].

Definition holder_t : type :=
  TStruct "holder" [(mkStructField "Unit" "" [], TPtr (TStruct "unit" []))].

(** ** Predicates of the properties of the second part *)

(** The shape of a decoded RawMessage: at most one of [POD], [L] and [D]
    is set; an [int64] is not positive, a [uint64] and the length of a
    string (a key as well) are in range; and so on inside. *)
Fixpoint wellShaped (m : RawMessage) : bool :=
  match m with
  | mkRawMessage POD L D =>
      match POD, L, D with
      | Some (PInt64 i), [], [] => (- 2 ^ 63 <=? i) && (i <=? 0)
      | Some (PUint64 u), [], [] => (0 <=? u) && (u <? 2 ^ 64)
      | Some (PString s), [], [] => strlen s <=? maxAlloc
      | None, _, [] => forallb wellShaped L
      | None, [], _ =>
          forallb (fun kv : KV =>
                     (strlen (fst kv) <=? maxAlloc) && wellShaped (snd kv)) D
      | _, _, _ => false
      end
  end.

(** [dec] returns well-shaped values, read from the front of its input,
    and what follows the bytes it has read has no part in the result. *)
Definition readsFront (dec : Reader -> option (outcome (RawMessage * Reader)))
  : Prop :=
  forall r m rest, dec r = Some (Ok (m, rest)) ->
    wellShaped m = true
    /\ exists used, r = used +:+ rest /\ used <> ""%string
         /\ forall rest', dec (used +:+ rest') = Some (Ok (m, rest')).

(** The errors of the decoder: the two of the reader, the one of [intBuf],
    the two of [strconv], and the one for a first byte that starts no
    value. *)
Definition decodeError (e : error) : bool :=
  match e with
  | EOF | ErrUnexpectedEOF | ErrNotADigit | ErrSyntax | ErrRange => true
  | ErrUnexpectedChar c =>
      negb (is_digit c) && negb (bool_decide (c = "i"%char))
      && negb (bool_decide (c = "l"%char)) && negb (bool_decide (c = "d"%char))
  | _ => false
  end.

(** The faults of the decoder: [intbuf[0]] on an empty token, a key that is
    not a string, and a string length that cannot be allocated. *)
Definition decodePanic (p : panic) : bool :=
  match p with
  | IndexOutOfRange | TypeAssertion | MakesliceLen => true
  | ReflectPanic _ => false
  end.

(** An outcome the decoder can have. *)
Definition decoderOutcome {A} (o : outcome A) : Prop :=
  match o with
  | Ok _ => True
  | Err e => decodeError e = true
  | Panic p => decodePanic p = true
  end.

(** The two errors of a reader that has run out of input. *)
Definition cutShort {A} (o : option (outcome A)) : Prop :=
  o = Some (Err EOF) \/ o = Some (Err ErrUnexpectedEOF).

(** [dec] fails with an end of input on every beginning of the encoding of
    [m] that is not all of it. *)
Definition cutsShort (dec : Reader -> option (outcome (RawMessage * Reader)))
    (m : RawMessage) : Prop :=
  forall p q, encodeRawMessage m = p +:+ q -> q <> ""%string ->
    cutShort (dec p).

(** The one error of the projector, [ErrNotAStruct], with the kind of what
    a pointer points to; that kind is never [Struct]. *)
Definition projectorError (e : error) : bool :=
  match e with
  | ErrNotAStruct k => negb (bool_decide (k = Struct))
  | _ => false
  end.

(** What the decoder makes of a scalar the encoder has written: an [int64]
    that is not negative is written without a sign, and read as a
    [uint64]. *)
Definition wirePOD (pod : POD) : POD :=
  match pod with
  | PInt64 i => if 0 <=? i then PUint64 i else PInt64 i
  | _ => pod
  end.

(** What the decoder makes of the encoding of [m]. *)
Fixpoint wire (m : RawMessage) : RawMessage :=
  match m with
  | mkRawMessage POD L D =>
      mkRawMessage (option_map wirePOD POD) (map wire L)
        (map (fun kv : KV => (fst kv, wire (snd kv))) D)
  end.

(** The RawMessages the encoder writes in full: a scalar of Go (an
    [int64], a [uint64], a string short enough to be allocated), a list or
    a dict that is not empty, and so on for what is inside. *)
Fixpoint writable (m : RawMessage) : bool :=
  match m with
  | mkRawMessage POD L D =>
      match POD, L, D with
      | Some (PInt64 i), [], [] => (- 2 ^ 63 <=? i) && (i <? 2 ^ 63)
      | Some (PUint64 u), [], [] => (0 <=? u) && (u <? 2 ^ 64)
      | Some (PString s), [], [] => strlen s <=? maxAlloc
      | None, _ :: _, [] => forallb writable L
      | None, [], _ :: _ =>
          forallb (fun kv : KV =>
                     (strlen (fst kv) <=? maxAlloc) && writable (snd kv)) D
      | _, _, _ => false
      end
  end.

(** The values of Go among the values of the model: the integers have 64
    bits, the strings and the keys can be allocated, and a [RawMessage]
    held by a pointer is canonical. *)
Fixpoint inRange (v : value) : bool :=
  match v with
  | VInt64 i => (- 2 ^ 63 <=? i) && (i <? 2 ^ 63)
  | VUint64 u => (0 <=? u) && (u <? 2 ^ 64)
  | VString s => strlen s <=? maxAlloc
  | VSlice _ xs => forallb inRange xs
  | VPtr _ (Some (VRawMessage m)) => canonical m
  | VPtr _ (Some (VStruct _ fs)) =>
      forallb (fun fv => (strlen (fieldKey (fst fv)) <=? maxAlloc)
                         && inRange (snd fv)) fs
  | _ => true
  end.

(** [v] is projected to a writable RawMessage which, read back from its
    encoding, is injected into [v] again. *)
Definition wireTrips (v : value) : Prop :=
  exists m, marshalKind (vKind v) v = Ok (Some m)
    /\ writable m = true /\ injects (wire m) v.


(** The values the projector takes without a fault: no pointer inside is
    nil, the elements of a slice and the target of a pointer have the
    declared type, and no struct is called [RawMessage] (the package's own
    is [VRawMessage]). *)
Fixpoint sound (v : value) : bool :=
  match v with
  | VSlice elem xs =>
      forallb (fun x => bool_decide (TypeOf x = elem) && sound x) xs
  | VPtr _ None => false
  | VPtr elem (Some t) => bool_decide (TypeOf t = elem) && sound t
  | VStruct name fs =>
      negb (bool_decide (name = "RawMessage"))
      && forallb (fun fv => sound (snd fv)) fs
  | _ => true
  end.

(** * Properties *)

(** ** Byte strings *)

Lemma sapp_nil_r (s : string) : s +:+ "" = s.
Proof. induction s as [|c s IH]; simpl; [reflexivity | by rewrite IH]. Qed.

Lemma sapp_assoc (s1 s2 s3 : string) : (s1 +:+ s2) +:+ s3 = s1 +:+ s2 +:+ s3.
Proof. induction s1 as [|c s1 IH]; simpl; [reflexivity | by rewrite IH]. Qed.

Lemma sapp_snoc (s1 s2 : string) (c : ascii) :
  (s1 +:+ String c "") +:+ s2 = s1 +:+ String c s2.
Proof. by rewrite sapp_assoc. Qed.

Lemma slength_app (s1 s2 : string) :
  String.length (s1 +:+ s2) = (String.length s1 + String.length s2)%nat.
Proof. induction s1 as [|c s1 IH]; simpl; [reflexivity | by rewrite IH]. Qed.

Lemma take_sapp (s1 s2 : string) : take (String.length s1) (s1 +:+ s2) = s1.
Proof. induction s1 as [|c s1 IH]; simpl; [by destruct s2 | by rewrite IH]. Qed.

Lemma drop_sapp (s1 s2 : string) : drop (String.length s1) (s1 +:+ s2) = s2.
Proof. induction s1 as [|c s1 IH]; simpl; [by destruct s2 | exact IH]. Qed.

Lemma tokenBytes_sapp (s1 s2 : string) :
  tokenBytes (s1 +:+ s2) = tokenBytes s1 && tokenBytes s2.
Proof.
  induction s1 as [|c s1 IH]; simpl; [reflexivity |].
  by rewrite IH, andb_assoc.
Qed.

(** ** The decoder *)

(** The scenarios of the specification, and an integer with a leading
    zero. *)
Example decode_spam : Decode "4:spam" = Ok (podRM (PString "spam")).
Proof. vm_compute. reflexivity. Qed.

Example decode_list :
  Decode "l4:spam4:eggse"
  = Ok (listRM [podRM (PString "spam"); podRM (PString "eggs")]).
Proof. vm_compute. reflexivity. Qed.

Example decode_dict :
  Decode "d3:cow3:moo4:spam4:eggse"
  = Ok (dictRM [("cow", podRM (PString "moo"));
                ("spam", podRM (PString "eggs"))]%string)
  /\ Encode (dictRM [("cow", podRM (PString "moo"));
                     ("spam", podRM (PString "eggs"))]%string)
     = "d3:cow3:moo4:spam4:eggse".
Proof. split; vm_compute; reflexivity. Qed.

Example decode_bad_int : Decode "i3:xe" = Err ErrNotADigit.
Proof. vm_compute. reflexivity. Qed.

Example decode_truncated : Decode "5:ab" = Err ErrUnexpectedEOF.
Proof. vm_compute. reflexivity. Qed.

Example decode_octal : Decode "i010e" = Ok (podRM (PUint64 8)).
Proof. vm_compute. reflexivity. Qed.

(** What [intBuf] returns, when it returns: the bytes before the first
    [delim], all of them token bytes. *)
Lemma intBuf_loop_inv (r : Reader) (delim : ascii) (buf tok rest : string) :
  intBuf_loop r delim buf = Ok (tok, rest) ->
  exists t, tok = buf +:+ t /\ r = t +:+ String delim rest
            /\ tokenBytes t = true.
Proof.
  revert buf. induction r as [|c r IH]; intros buf; simpl; [discriminate |].
  destruct (decide (c = delim)) as [->|Hne].
  - intros [= <- <-]. exists ""%string. by rewrite sapp_nil_r.
  - fold (tokenByte c). destruct (tokenByte c) eqn:Hc; simpl; [|discriminate].
    intros H. destruct (IH _ H) as (t & -> & -> & Ht).
    exists (String c t). rewrite sapp_snoc. simpl. by rewrite Hc, Ht.
Qed.

Lemma intBuf_alphabet (r : Reader) (delim : ascii) (tok rest : string) :
  intBuf r delim = Ok (tok, rest) ->
  tokenBytes tok = true /\ r = tok +:+ String delim rest.
Proof.
  intros H. destruct (intBuf_loop_inv _ _ _ _ _ H) as (t & -> & -> & Ht).
  by simpl.
Qed.

(** In the other direction: a token followed by the delimiter is returned
    whole. *)
Lemma intBuf_loop_app (t rest buf : string) (delim : ascii) :
  tokenBytes t = true -> tokenByte delim = false ->
  intBuf_loop (t +:+ String delim rest) delim buf = Ok (buf +:+ t, rest).
Proof.
  intros Ht Hd. revert buf Ht.
  induction t as [|c t IH]; intros buf Ht; simpl in *.
  - rewrite decide_True by done. by rewrite sapp_nil_r.
  - apply andb_prop in Ht as [Hc Ht].
    rewrite decide_False by (intros ->; congruence).
    fold (tokenByte c). rewrite Hc. simpl.
    rewrite IH by done. by rewrite sapp_snoc.
Qed.

Lemma intBuf_app (t rest : string) (delim : ascii) :
  tokenBytes t = true -> tokenByte delim = false ->
  intBuf (t +:+ String delim rest) delim = Ok (t, rest).
Proof. intros. unfold intBuf. by rewrite intBuf_loop_app. Qed.

(** 64-bit ranges of what the parsers return. *)
Lemma digits_range (base : Z) (s : string) (n u : Z) :
  strconv.digits base s n = Ok u ->
  0 <= n <= strconv.maxUint64 -> 0 <= u <= strconv.maxUint64.
Proof.
  revert n. induction s as [|c s IH]; intros n; simpl.
  - by intros [= ->].
  - destruct (negb (is_digit c)); [discriminate |].
    destruct (base <=? _); [discriminate |].
    destruct (_ <=? n); [discriminate |].
    destruct (_ || _) eqn:Hov; [discriminate |].
    intros H _. apply (IH _ H).
    apply orb_false_elim in Hov as [_ Hmax].
    apply Z.ltb_ge in Hmax. split; [|exact Hmax].
    apply Z.mod_pos_bound. reflexivity.
Qed.

Lemma ParseUint_range (s : string) (u : Z) :
  strconv.ParseUint s = Ok u -> 0 <= u < 2 ^ 64.
Proof.
  intros H.
  assert (0 <= u <= strconv.maxUint64) as Hu.
  { assert (0 <= 0 <= strconv.maxUint64) as H0 by (by compute).
    destruct s as [|c s]; [discriminate |].
    unfold strconv.ParseUint in H.
    destruct c as [[] [] [] [] [] [] [] []];
      eapply digits_range; eauto. }
  unfold strconv.maxUint64 in Hu. lia.
Qed.

Lemma ParseInt_range (s : string) (i : Z) :
  strconv.ParseInt s = Ok i -> - 2 ^ 63 <= i < 2 ^ 63.
Proof.
  destruct s as [|c s]; [discriminate |]. unfold strconv.ParseInt.
  set (body := if decide (c = "+"%char) then _ else _).
  destruct (strconv.ParseUint body) as [un|[]|] eqn:Hun; try discriminate.
  apply ParseUint_range in Hun.
  destruct (decide (c = "-"%char)) as [->|_]; simpl.
  - destruct (_ <? un) eqn:Hlt; [discriminate |]. intros [= <-].
    unfold strconv.neg64.
    pose proof (Z.mod_pos_bound
      (- strconv.int64_of_uint64 un + 2 ^ 63) (2 ^ 64) eq_refl). lia.
  - destruct (_ <=? un) eqn:Hle; [discriminate |]. intros [= <-].
    apply Z.leb_gt in Hle. unfold strconv.int64_of_uint64.
    destruct (un <? 2 ^ 63) eqn:Hlt; [lia |]. apply Z.ltb_ge in Hlt. lia.
Qed.

Lemma length_drop (n : nat) (s : string) :
  (String.length (drop n s) <= String.length s)%nat.
Proof.
  revert s. induction n as [|n IH]; intros [|c s]; simpl; try lia.
  specialize (IH s). lia.
Qed.

Lemma intBuf_shorter (r : Reader) (delim : ascii) (tok rest : string) :
  intBuf r delim = Ok (tok, rest) ->
  (String.length rest < String.length r)%nat.
Proof.
  intros H. apply intBuf_alphabet in H as [_ ->].
  rewrite slength_app. simpl. lia.
Qed.

Lemma strBuf_shorter (r : Reader) (s rest : string) :
  strBuf r = Ok (s, rest) -> (String.length rest < String.length r)%nat.
Proof.
  unfold strBuf. destruct (intBuf r ":") as [[tok r1]| |] eqn:Hint;
    simpl; try discriminate.
  apply intBuf_shorter in Hint.
  destruct (strconv.ParseUint tok) as [l| |]; simpl; try discriminate.
  destruct (maxAlloc <? l); [discriminate |]. unfold ReadFull.
  destruct (_ <=? _)%nat.
  - intros [= <- <-]. pose proof (length_drop (Z.to_nat l) r1). lia.
  - by destruct r1.
Qed.

Lemma isDelim_nil (delim : ascii) : isDelim "" delim = Err EOF.
Proof. reflexivity. Qed.

Lemma isDelim_cons (c : ascii) (r : Reader) (delim : ascii) :
  isDelim (String c r) delim
  = if decide (c = delim) then Ok (true, r) else Ok (false, String c r).
Proof. unfold isDelim. simpl. by destruct (decide _). Qed.

Lemma decodeL_loop_progress bound dec (n : nat) (r : Reader) L :
  progresses bound dec ->
  (String.length r < n)%nat -> (n <= bound)%nat ->
  exists o, decodeL_loop dec n r L = Some o /\
    forall L' r', o = Ok (L', r') ->
      (String.length r' < String.length r)%nat.
Proof.
  intros Hdec. revert r L.
  induction n as [|n IH]; intros r L Hr Hn; [lia |]. simpl.
  destruct r as [|c r]; [eexists; split; [done | discriminate] |].
  rewrite isDelim_cons.
  destruct (decide (c = "e"%char)) as [->|Hc].
  - eexists; split; [done |]. intros ?? [= <- <-]. simpl. lia.
  - destruct (Hdec (String c r)) as (o & -> & Ho); [simpl in *; lia |].
    destruct o as [[ln r2]| |]; try (eexists; split; [done | discriminate]).
    specialize (Ho _ _ eq_refl).
    destruct (IH r2 (L ++ [ln])) as (o' & -> & Ho'); [lia.. |].
    eexists; split; [done |]. intros ?? ->.
    specialize (Ho' _ _ eq_refl). lia.
Qed.

Lemma decodeD_loop_progress bound dec (n : nat) (r : Reader) D :
  progresses bound dec ->
  (String.length r < n)%nat -> (n <= bound)%nat ->
  exists o, decodeD_loop dec n r D = Some o /\
    forall D' r', o = Ok (D', r') ->
      (String.length r' < String.length r)%nat.
Proof.
  intros Hdec. revert r D.
  induction n as [|n IH]; intros r D Hr Hn; [lia |]. simpl.
  destruct r as [|c r]; [eexists; split; [done | discriminate] |].
  rewrite isDelim_cons.
  destruct (decide (c = "e"%char)) as [->|Hc].
  - eexists; split; [done |]. intros ?? [= <- <-]. simpl. lia.
  - destruct (Hdec (String c r)) as (o & -> & Ho); [simpl in *; lia |].
    destruct o as [[k r2]| |]; try (eexists; split; [done | discriminate]).
    specialize (Ho _ _ eq_refl).
    destruct (Hdec r2) as (o2 & -> & Ho2); [lia |].
    destruct o2 as [[v r3]| |]; try (eexists; split; [done | discriminate]).
    specialize (Ho2 _ _ eq_refl).
    destruct (rmPOD k) as [[| |key|]|];
      try (eexists; split; [done | discriminate]).
    destruct (IH r3 (D ++ [(key, v)])) as (o' & -> & Ho'); [lia.. |].
    eexists; split; [done |]. intros ?? ->.
    specialize (Ho' _ _ eq_refl). lia.
Qed.

(** The fuel is enough when it exceeds the length of the input; a value
    that is returned has used up at least one byte. *)
Lemma decodeRawMessage_progress (fuel : nat) :
  progresses fuel (decodeRawMessage fuel).
Proof.
  induction fuel as [|fuel IH]; intros r Hr; [lia |]. simpl.
  destruct r as [|c r1]; simpl; [eexists; split; [done | discriminate] |].
  destruct (is_digit c).
  { eexists; split; [done |]. unfold UnreadByte.
    destruct (strBuf (String c r1)) as [[s r2]| |] eqn:Hs; simpl;
      try discriminate.
    intros ?? [= <- <-]. apply strBuf_shorter in Hs. exact Hs. }
  destruct (decide (c = "i"%char)).
  { eexists; split; [done |].
    destruct (intBuf r1 "e") as [[tok r2]| |] eqn:Hi; simpl; try discriminate.
    apply intBuf_shorter in Hi. destruct tok as [|c0 tok]; [discriminate |].
    destruct (decide (c0 = "-"%char)).
    - destruct (strconv.ParseInt _); simpl; try discriminate.
      intros ?? [= <- <-]. lia.
    - destruct (strconv.ParseUint _); simpl; try discriminate.
      intros ?? [= <- <-]. lia. }
  simpl in Hr.
  destruct (decide (c = "l"%char)).
  { destruct (decodeL_loop_progress fuel _ fuel r1 [] IH)
      as (o & -> & Ho); [lia.. |].
    eexists; split; [done |].
    destruct o as [[L r2]| |]; simpl; try discriminate.
    intros ?? [= <- <-]. specialize (Ho _ _ eq_refl). lia. }
  destruct (decide (c = "d"%char)).
  { destruct (decodeD_loop_progress fuel _ fuel r1 [] IH)
      as (o & -> & Ho); [lia.. |].
    eexists; split; [done |].
    destruct o as [[D r2]| |]; simpl; try discriminate.
    intros ?? [= <- <-]. specialize (Ho _ _ eq_refl). lia. }
  eexists; split; [done | discriminate].
Qed.

Lemma decode_fuel_enough (b : string) :
  decodeRawMessage (S (String.length b)) b <> None.
Proof.
  destruct (decodeRawMessage_progress (S (String.length b)) b)
    as (o & -> & _); [lia | discriminate].
Qed.

(** C3.  An integer ["i<token>e"] that is decoded has a non-empty token of
    ['-'] and digits; it is decoded as a signed 64-bit integer (by
    [ParseInt]) when the token starts with ['-'] and as an unsigned 64-bit
    integer (by [ParseUint]) otherwise.  ["i3e"] decodes to the unsigned 3,
    ["i-3e"] to the signed -3. *)
Theorem decode_integer_sign :
  (forall (fuel : nat) (r rest : string) (m : RawMessage),
     decodeRawMessage fuel (String "i" r) = Some (Ok (m, rest)) ->
     exists token,
       r = token +:+ String "e" rest /\ tokenBytes token = true /\
       match token with
       | EmptyString => False
       | String c _ =>
           if decide (c = "-"%char)
           then exists i, m = podRM (PInt64 i)
                  /\ strconv.ParseInt token = Ok i
                  /\ - 2 ^ 63 <= i < 2 ^ 63
           else exists u, m = podRM (PUint64 u)
                  /\ strconv.ParseUint token = Ok u
                  /\ 0 <= u < 2 ^ 64
       end)
  /\ Decode "i3e" = Ok (podRM (PUint64 3))
  /\ Decode "i-3e" = Ok (podRM (PInt64 (-3))).
Proof.
  split; [|split; vm_compute; reflexivity].
  intros [|fuel] r rest m; [discriminate |].
  change (decodeRawMessage (S fuel) (String "i" r))
    with (Some ('(intbuf, r2) ← intBuf r "e";
                match intbuf with
                | EmptyString => Panic IndexOutOfRange
                | String c0 _ =>
                    if decide (c0 = "-"%char) then
                      i ← strconv.ParseInt intbuf;
                      Ok (podRM (PInt64 i), r2)
                    else
                      u ← strconv.ParseUint intbuf;
                      Ok (podRM (PUint64 u), r2)
                end) : option (outcome (RawMessage * Reader))).
  destruct (intBuf r "e") as [[tok r2]| |] eqn:Hint; simpl; try discriminate.
  apply intBuf_alphabet in Hint as [Htok ->].
  destruct tok as [|c0 tok]; [discriminate |].
  destruct (decide (c0 = "-"%char)) as [->|Hc0].
  - destruct (strconv.ParseInt _) as [i| |] eqn:Hi; simpl; try discriminate.
    intros [= <- <-]. exists (String "-" tok). split; [reflexivity |].
    split; [done |].
    rewrite decide_True by done. eauto using ParseInt_range.
  - destruct (strconv.ParseUint _) as [u| |] eqn:Hu; simpl; try discriminate.
    intros [= <- <-]. exists (String c0 tok). split; [reflexivity |].
    split; [done |].
    rewrite decide_False by done. eauto using ParseUint_range.
Qed.

Lemma decode_integer_sign_witness :
  exists token,
    "-3e"%string = token +:+ String "e" "" /\ tokenBytes token = true /\
    match token with
    | EmptyString => False
    | String c _ =>
        if decide (c = "-"%char)
        then exists i, podRM (PInt64 (-3)) = podRM (PInt64 i)
               /\ strconv.ParseInt token = Ok i
               /\ - 2 ^ 63 <= i < 2 ^ 63
        else exists u, podRM (PInt64 (-3)) = podRM (PUint64 u)
               /\ strconv.ParseUint token = Ok u
               /\ 0 <= u < 2 ^ 64
    end.
Proof.
  apply (proj1 decode_integer_sign 1%nat "-3e"%string ""%string
           (podRM (PInt64 (-3)))).
  vm_compute. reflexivity.
Defined.

(** C9.  [Decode] does not return on ["ie"]: the token between ['i'] and
    ['e'] is empty and [intbuf[0]] is out of range. *)
Theorem decode_empty_integer_faults :
  Decode "ie" = Panic IndexOutOfRange /\ ~ returned (Decode "ie").
Proof. split; [vm_compute; reflexivity | by intros []]. Qed.

(** C4.  A dict whose key position holds an integer, a list or a dict: the
    type assertion [k.POD.(string)] faults, and no error is returned. *)
Theorem decode_non_string_key_faults :
  Decode "di1e1:ae" = Panic TypeAssertion
  /\ Decode "dl1:xe1:ae" = Panic TypeAssertion
  /\ Decode "dd1:x1:ye1:ae" = Panic TypeAssertion.
Proof. repeat split; vm_compute; reflexivity. Qed.

(** The same for any key that is decoded to something else than a string,
    once the value after it is decoded too. *)
Lemma decodeD_loop_key_not_string dec (n : nat) (c : ascii) (r r2 r3 : Reader)
    (k v : RawMessage) (D : list KV) :
  c <> "e"%char ->
  dec (String c r) = Some (Ok (k, r2)) ->
  dec r2 = Some (Ok (v, r3)) ->
  (forall key, rmPOD k <> Some (PString key)) ->
  decodeD_loop dec (S n) (String c r) D = Some (Panic TypeAssertion).
Proof.
  intros Hc Hk Hv Hnot. simpl. rewrite isDelim_cons, decide_False by done.
  rewrite Hk, Hv. destruct (rmPOD k) as [[| |key|]|]; try done.
  by destruct (Hnot key).
Qed.

(** C1.  The empty list ["le"] is decoded to a RawMessage with nothing in
    it, for which the encoder writes nothing: the bytes are not the input.
    The same for the empty dict, and for an empty list inside a list. *)
Theorem roundtrip_loses_empty_list :
  Decode "le" = Ok emptyRM /\ Encode emptyRM = ""%string
  /\ Decode "de" = Ok emptyRM
  /\ Decode "llee" = Ok (listRM [emptyRM])
  /\ Encode (listRM [emptyRM]) = "le"%string.
Proof. repeat split; vm_compute; reflexivity. Qed.

(** Numbers that are not written the way the encoder writes them are not
    given back as they were: a leading zero makes the token octal, and
    ["-0"] is zero. *)
Lemma roundtrip_rewrites_numbers :
  Decode "i010e" = Ok (podRM (PUint64 8))
  /\ Encode (podRM (PUint64 8)) = "i8e"%string
  /\ Decode "i-0e" = Ok (podRM (PInt64 0))
  /\ Encode (podRM (PInt64 0)) = "i0e"%string
  /\ Decode "03:abc" = Ok (podRM (PString "abc"))
  /\ Encode (podRM (PString "abc")) = "3:abc"%string.
Proof. repeat split; vm_compute; reflexivity. Qed.

(** ** The projector *)

Lemma vKind_TypeOf (v : value) : KindOf (TypeOf v) = vKind v.
Proof. by destruct v. Qed.

Lemma marshalKind_eq (kind : Kind) (val : value) :
  marshalKind kind val =
  match kind with
  | Int64 | Uint64 | String_ => Ok (marshalPOD val)
  | Slice => marshalList val
  | Ptr => marshalDict val
  | _ => Ok None
  end.
Proof. by destruct val. Qed.

Lemma marshalKind_no_case (kind : Kind) (val : value) :
  hasCase kind = false -> marshalKind kind val = Ok None.
Proof. rewrite marshalKind_eq. by destruct kind. Qed.

(** A field that is not exported, or for which the switch yields nothing,
    leaves no trace in the dict. *)
Lemma marshalDict_loop_skip mk (fs1 fs2 : list (StructField * value))
    (sf : StructField) (fv : value) (D : list KV) :
  exported sf = false \/ mk (KindOf (TypeOf fv)) fv = Ok None ->
  marshalDict_loop mk (fs1 ++ (sf, fv) :: fs2) D
  = marshalDict_loop mk (fs1 ++ fs2) D.
Proof.
  intros Hskip. revert D.
  induction fs1 as [|[sf1 fv1] fs1 IH]; intros D; simpl.
  - destruct (exported sf); simpl; [|done].
    destruct Hskip as [? | ->]; done.
  - destruct (exported sf1); simpl; [|done].
    destruct (mk _ fv1) as [[m|]| |]; simpl; done.
Qed.

Lemma marshalDict_skip (elem elem' : type) (name : string)
    (fs1 fs2 : list (StructField * value)) (sf : StructField) (fv : value) :
  exported sf = false \/ marshalKind (KindOf (TypeOf fv)) fv = Ok None ->
  marshalDict (VPtr elem (Some (VStruct name (fs1 ++ (sf, fv) :: fs2))))
  = marshalDict (VPtr elem' (Some (VStruct name (fs1 ++ fs2)))).
Proof.
  intros Hskip. unfold marshalDict, marshalDict_with.
  destruct (decide (name = "RawMessage")); [done |].
  by rewrite marshalDict_loop_skip.
Qed.

(** C8 (counterexample).  A record with a [bool] field is projected without
    any error: to the dict of its other field. *)
Lemma unsupported_field_no_error :
  marshalDict flagRecord = Ok (Some (dictRM [("N", podRM (PInt64 7))]))
  /\ ~ is_error (marshalDict flagRecord).
Proof. split; [reflexivity | by intros []]. Qed.

(** C8 (amended).  A field whose kind is none of int64, uint64, string,
    slice and pointer is left out of the dict without an error: the
    projection of the record is that of the record without the field. *)
Theorem unsupported_field_omitted (elem elem' : type) (name : string)
    (fs1 fs2 : list (StructField * value)) (sf : StructField) (fv : value) :
  hasCase (KindOf (TypeOf fv)) = false ->
  marshalDict (VPtr elem (Some (VStruct name (fs1 ++ (sf, fv) :: fs2))))
  = marshalDict (VPtr elem' (Some (VStruct name (fs1 ++ fs2)))).
Proof.
  intros Hk. apply marshalDict_skip. right. by apply marshalKind_no_case.
Qed.

Lemma unsupported_field_omitted_witness :
  marshalDict flagRecord
  = marshalDict
      (VPtr (TStruct "flagRecord" [(mkStructField "N" "" [], TInt64)])
         (Some (VStruct "flagRecord" [(mkStructField "N" "" [], VInt64 7)]))).
Proof.
  apply (unsupported_field_omitted flagRecord_t
           (TStruct "flagRecord" [(mkStructField "N" "" [], TInt64)])
           "flagRecord" [(mkStructField "N" "" [], VInt64 7)] []
           (mkStructField "Flag" "" []) (VOther 1 1)).
  reflexivity.
Defined.

(** The elements of a sequence are treated the same way: of a non-empty
    sequence of such a kind, an empty list node is all that is left. *)
Lemma marshalList_loop_no_case (kind : Kind) (xs : list value)
    (L : list RawMessage) :
  hasCase kind = false -> marshalList_loop marshalKind kind xs L = Ok L.
Proof.
  intros Hk. induction xs as [|x xs IH]; simpl; [done |].
  by rewrite marshalKind_no_case.
Qed.

Lemma unsupported_elements_dropped (elem : type) (x : value)
    (xs : list value) :
  hasCase (KindOf elem) = false ->
  marshalList (VSlice elem (x :: xs)) = Ok (Some emptyRM).
Proof.
  intros Hk. unfold marshalList, marshalList_with.
  change (length (x :: xs) =? 0)%nat with false. cbv iota.
  by rewrite marshalList_loop_no_case.
Qed.

(** The only error of the projector: a pointer to something that is not a
    struct.  It names the kind, not the field. *)
Lemma marshalDict_not_a_struct (elem : type) (v : value) :
  vKind v <> Struct ->
  marshalDict (VPtr elem (Some v)) = Err (ErrNotAStruct (vKind v)).
Proof. by destruct v. Qed.

(** X10. A field that holds a zero scalar (0 or the empty string) or an
    empty sequence is left out of the dict: the projection of the record is
    that of the record without the field. *)
Lemma zero_field_omitted (elem elem' : type) (name : string)
    (fs1 fs2 : list (StructField * value)) (sf : StructField) (fv : value) :
  zeroScalarOrEmpty fv = true ->
  marshalDict (VPtr elem (Some (VStruct name (fs1 ++ (sf, fv) :: fs2))))
  = marshalDict (VPtr elem' (Some (VStruct name (fs1 ++ fs2)))).
Proof.
  intros Hz. apply marshalDict_skip. right. rewrite marshalKind_eq.
  destruct fv; try discriminate; simpl in *;
    apply bool_decide_eq_true in Hz; subst; reflexivity.
Qed.

Lemma zero_field_omitted_witness :
  marshalDict
    (VPtr point_t
       (Some (VStruct "point"
                [(mkStructField "X" "" [("ben", "x")], VInt64 3);
                 (mkStructField "Y" "" [], VInt64 0)])))
  = marshalDict
      (VPtr (TStruct "point" [(mkStructField "X" "" [("ben", "x")], TInt64)])
         (Some (VStruct "point"
                  [(mkStructField "X" "" [("ben", "x")], VInt64 3)]))).
Proof.
  apply (zero_field_omitted point_t
           (TStruct "point" [(mkStructField "X" "" [("ben", "x")], TInt64)])
           "point" [(mkStructField "X" "" [("ben", "x")], VInt64 3)] []
           (mkStructField "Y" "" []) (VInt64 0)).
  reflexivity.
Defined.

Lemma marshalDict_loop_app mk (fs1 fs2 : list (StructField * value))
    (D : list KV) :
  marshalDict_loop mk (fs1 ++ fs2) D
  = D1 ← marshalDict_loop mk fs1 D; marshalDict_loop mk fs2 D1.
Proof.
  revert D. induction fs1 as [|[sf fv] fs1 IH]; intros D; simpl; [done |].
  destruct (exported sf); simpl; [|done].
  destruct (mk _ fv) as [[m|]| |]; simpl; done.
Qed.

(** C5.  A nil pointer in an exported field is not left out: once the
    fields before it are projected, [marshalDict] is called on the nil
    pointer, asks the type of what it points to, and faults. *)
Theorem nil_pointer_field_faults (t elem : type) (name : string)
    (fs1 fs2 : list (StructField * value)) (sf : StructField) (D1 : list KV) :
  name <> "RawMessage" ->
  exported sf = true ->
  marshalDict_loop marshalKind fs1 [] = Ok D1 ->
  marshalDict
    (VPtr t (Some (VStruct name (fs1 ++ (sf, VPtr elem None) :: fs2))))
  = Panic (ReflectPanic "reflect: call of reflect.Value.Type on zero Value").
Proof.
  intros Hname Hex Hfs1. unfold marshalDict, marshalDict_with.
  rewrite decide_False by done.
  rewrite marshalDict_loop_app, Hfs1. simpl. by rewrite Hex.
Qed.

Lemma nil_pointer_field_faults_witness :
  marshalDict nodeNilNext
  = Panic (ReflectPanic "reflect: call of reflect.Value.Type on zero Value").
Proof.
  apply (nil_pointer_field_faults node_t (TStruct "leaf" []) "node"
           [(mkStructField "Id" "" [], VInt64 1)] []
           (mkStructField "Next" "" [])
           [("Id", podRM (PInt64 1))]); done.
Defined.

(** ** The injector *)

Lemma unmarshalElem_eq (rm : RawMessage) (elem : type) (val : value) :
  unmarshalElem rm elem val =
  if isRawMessagePtr elem then setRawMessage elem rm
  else
    match rmPOD rm with
    | Some pod => unmarshalPOD pod val
    | None =>
        if (0 <? length (rmL rm))%nat then unmarshalList (rmL rm) val
        else if (0 <? length (rmD rm))%nat then
          match elem with
          | TPtr t => unmarshalDict (rmD rm) (New t)
          | _ => Panic (ReflectPanic "reflect: Elem of invalid type")
          end
        else Ok val
    end.
Proof. by destruct rm. Qed.

Lemma unmarshalField_eq (rm : RawMessage) (typ : type) (field : value) :
  unmarshalField rm typ field =
  if isRawMessagePtr typ then setRawMessage typ rm
  else
    match rmPOD rm with
    | Some pod => unmarshalPOD pod field
    | None =>
        if (0 <? length (rmL rm))%nat then unmarshalList (rmL rm) field
        else if (0 <? length (rmD rm))%nat then
          match typ with
          | TMap key elem =>
              unmarshalDict (rmD rm) (VMap key elem (Some []))
          | TPtr t => unmarshalDict (rmD rm) (New t)
          | _ => Panic (ReflectPanic "reflect: Elem of invalid type")
          end
        else Ok field
    end.
Proof. by destruct rm. Qed.

(** C6.  A wire scalar whose kind is not the kind of the target: an
    unsigned integer is stored in an [int64] target with its 64 bits read as
    signed, whatever its size; every other pair, a signed integer for a
    [uint64] target among them, is a type error. *)
Theorem unmarshalPOD_kind_mismatch (pod : POD) (v : value) :
  wireScalar pod = true ->
  podKind pod <> vKind v ->
  match pod, v with
  | PUint64 u, VInt64 _ =>
      unmarshalPOD pod v = Ok (VInt64 (if u <? 2 ^ 63 then u else u - 2 ^ 64))
  | _, _ =>
      unmarshalPOD pod v = Err (ErrMismatchedType (vKind v) (podKind pod))
  end.
Proof.
  intros Hpod Hne. unfold unmarshalPOD. rewrite vKind_TypeOf.
  destruct pod as [i|u|s|k], v; simpl in *; try done;
    rewrite bool_decide_eq_false_2 by done; reflexivity.
Qed.

Lemma unmarshalPOD_kind_mismatch_witness :
  unmarshalPOD (PInt64 (-3)) (VUint64 0)
  = Err (ErrMismatchedType Uint64 Int64).
Proof. apply (unmarshalPOD_kind_mismatch (PInt64 (-3)) (VUint64 0)); done. Defined.

Example unsigned_into_signed_wraps :
  unmarshalPOD (PUint64 18446744073709551615) (VInt64 0) = Ok (VInt64 (-1)).
Proof. reflexivity. Qed.

Lemma unmarshalPOD_same_kind (pod : POD) (v : value) :
  wireScalar pod = true -> podKind pod = vKind v ->
  unmarshalPOD pod v = Ok (match pod with
                           | PInt64 i => VInt64 i
                           | PUint64 u => VUint64 u
                           | PString s => VString s
                           | PForeign _ => v
                           end).
Proof.
  intros Hpod Hk. unfold unmarshalPOD. rewrite vKind_TypeOf, <- Hk.
  by destruct pod.
Qed.

(** The keys of the [fields] map are the keys of the exported fields. *)
Lemma fieldsMap_loop_None (fs : list (StructField * value)) (i : nat)
    (fields : gmap string nat) (K : string) :
  fieldsMap_loop fs i fields !! K = None <->
  fields !! K = None /\
  forall sf fv, (sf, fv) ∈ fs -> exported sf = true -> fieldKey sf <> K.
Proof.
  revert i fields. induction fs as [|[sf fv] fs IH]; intros i fields; simpl.
  - split; [|by intros []]. intros Hf. split; [done |].
    intros sf fv Hin. by apply elem_of_nil in Hin.
  - destruct (exported sf) eqn:Hex; simpl; rewrite IH.
    + rewrite lookup_insert_None. split.
      * intros [[Hf Hk] Hfs]. split; [done |].
        intros sf' fv' [[= -> ->]|Hin]%elem_of_cons; eauto.
      * intros [Hf Hfs]. split; [split; [done |] |].
        -- apply (Hfs sf fv); [left | done].
        -- intros sf' fv' Hin. apply (Hfs sf' fv'). by right.
    + split.
      * intros [Hf Hfs]. split; [done |].
        intros sf' fv' [[= -> ->]|Hin]%elem_of_cons; [congruence | eauto].
      * intros [Hf Hfs]. split; [done |].
        intros sf' fv' Hin. apply (Hfs sf' fv'). by right.
Qed.

Lemma fieldsMap_None (fs : list (StructField * value)) (K : string) :
  fieldsMap fs !! K = None <->
  forall sf fv, (sf, fv) ∈ fs -> exported sf = true -> fieldKey sf <> K.
Proof.
  unfold fieldsMap. rewrite fieldsMap_loop_None, lookup_empty.
  split; [by intros [_ H] | by intros H].
Qed.

Section dict_loop.

Variable inject : RawMessage -> type -> value -> outcome value.

Lemma unmarshalDict_loop_skip (d1 d2 : list KV) (K : string)
    (rm : RawMessage) (fields : gmap string nat)
    (fs : list (StructField * value)) :
  fields !! K = None ->
  unmarshalDict_loop inject (d1 ++ (K, rm) :: d2) fields fs
  = unmarshalDict_loop inject (d1 ++ d2) fields fs.
Proof.
  intros HK. revert fs.
  induction d1 as [|[K1 rm1] d1 IH]; intros fs; simpl.
  - by rewrite HK.
  - destruct (fields !! K1) as [i|]; [|done].
    destruct (fs !! i) as [[sf field]|]; [|done].
    destruct (inject rm1 _ field); done.
Qed.

Lemma unmarshalDict_loop_no_fields (d : list KV)
    (fs : list (StructField * value)) :
  unmarshalDict_loop inject d ∅ fs = Ok fs.
Proof.
  induction d as [|[K rm] d IH]; simpl; [done |].
  by rewrite lookup_empty.
Qed.

End dict_loop.

(** C7.  A dict entry whose key is the key of no exported field of the
    target record (its tag, or else its name) is passed over: the injection
    of the dict is the injection of the dict without the entry, and such an
    entry alone leaves the target as it is. *)
Theorem unknown_key_skipped (d1 d2 : list KV) (K : string) (rm : RawMessage)
    (elem : type) (name : string) (fs : list (StructField * value)) :
  (forall sf fv, (sf, fv) ∈ fs -> exported sf = true -> fieldKey sf <> K) ->
  unmarshalDict (d1 ++ (K, rm) :: d2) (VPtr elem (Some (VStruct name fs)))
  = unmarshalDict (d1 ++ d2) (VPtr elem (Some (VStruct name fs)))
  /\ unmarshalDict [(K, rm)] (VPtr elem (Some (VStruct name fs)))
     = Ok (VPtr elem (Some (VStruct name fs))).
Proof.
  intros HK%fieldsMap_None. unfold unmarshalDict, unmarshalDict_with. split.
  - by rewrite unmarshalDict_loop_skip.
  - simpl. by rewrite HK.
Qed.

Lemma unknown_key_skipped_witness :
  unmarshalDict ([("x", podRM (PInt64 1))]
                 ++ ("z", podRM (PString "new")) :: [("Y", podRM (PInt64 2))])
                (New point_t)
  = unmarshalDict ([("x", podRM (PInt64 1))] ++ [("Y", podRM (PInt64 2))])
                  (New point_t)
  /\ unmarshalDict [("z", podRM (PString "new"))] (New point_t)
     = Ok (New point_t).
Proof.
  apply (unknown_key_skipped [("x", podRM (PInt64 1))]
           [("Y", podRM (PInt64 2))] "z" (podRM (PString "new"))
           point_t "point"
           [(mkStructField "X" "" [("ben", "x")], VInt64 0);
            (mkStructField "Y" "" [], VInt64 0)]).
  intros sf fv Hin _.
  repeat (apply elem_of_cons in Hin as [[= -> ->]|Hin]; [by vm_compute |]).
  by apply elem_of_nil in Hin.
Defined.

(** Entries with unknown keys only: the injection succeeds and the target
    is as it was. *)
Lemma unknown_keys_only (d : list KV) (elem : type) (name : string)
    (fs : list (StructField * value)) :
  (forall K rm, (K, rm) ∈ d -> fieldsMap fs !! K = None) ->
  unmarshalDict d (VPtr elem (Some (VStruct name fs)))
  = Ok (VPtr elem (Some (VStruct name fs))).
Proof.
  intros Hd. unfold unmarshalDict, unmarshalDict_with.
  assert (unmarshalDict_loop unmarshalField d (fieldsMap fs) fs = Ok fs) as ->;
    [|done].
  induction d as [|[K rm] d IH]; simpl; [done |].
  rewrite (Hd K rm) by left. apply IH.
  intros K' rm' Hin. apply (Hd K' rm'). by right.
Qed.

(** C10.  A non-empty dict injected into a field of map kind: the field is
    set to a new, empty map and no entry of the dict is stored in it, since
    with a map as the target no key is known.  Whatever the dict, a new
    target ends up without entries. *)
Theorem dict_into_map_field_empty (kv : KV) (D : list KV) (key elem : type)
    (entries : option (list (value * value))) :
  unmarshalField (dictRM (kv :: D)) (TMap key elem) (VMap key elem entries)
  = Ok (VMap key elem (Some []))
  /\ (forall d, unmarshalDict d (VMap key elem entries)
                = Ok (VMap key elem entries))
  /\ (forall d, exists v,
         unmarshalField (dictRM d) (TMap key elem) (Zero (TMap key elem))
         = Ok v /\ mapEntries v = []).
Proof.
  assert (forall d es, unmarshalDict d (VMap key elem es)
                       = Ok (VMap key elem es)) as Hmap.
  { intros d es. unfold unmarshalDict, unmarshalDict_with.
    by rewrite unmarshalDict_loop_no_fields. }
  assert (forall kv' d es,
            unmarshalField (dictRM (kv' :: d)) (TMap key elem)
              (VMap key elem es) = Ok (VMap key elem (Some []))) as Hfield.
  { intros kv' d es. rewrite unmarshalField_eq.
    exact (Hmap (kv' :: d) (Some [])). }
  split; [apply Hfield |]. split; [intros d; apply Hmap |].
  intros [|kv' d].
  - by exists (VMap key elem None).
  - exists (VMap key elem (Some [])). split; [apply Hfield | done].
Qed.

(** The same, seen from the record that has the map as a field. *)
Example dict_into_map_of_record :
  unmarshalDict
    [("Peers", dictRM [("a", podRM (PInt64 1)); ("b", podRM (PInt64 2))])]
    (New registry_t)
  = Ok (VPtr registry_t
          (Some (VStruct "registry"
                   [(mkStructField "Peers" "" [],
                     VMap TString TInt64 (Some []))]))).
Proof. vm_compute. reflexivity. Qed.

(** ** Projection, then injection *)

(** Induction on types and on values, through the lists inside them. *)
Lemma type_ind' (P : type -> Prop) :
  P TInt64 -> P TUint64 -> P TString -> (forall n, P (TOther n)) ->
  (forall elem, P elem -> P (TSlice elem)) ->
  (forall elem, P elem -> P (TPtr elem)) ->
  (forall key elem, P key -> P elem -> P (TMap key elem)) ->
  (forall name fields,
     Forall (fun ft => P (snd ft)) fields -> P (TStruct name fields)) ->
  P TRawMessage ->
  forall t, P t.
Proof.
  intros Hi Hu Hs Ho Hsl Hp Hm Hst Hr. fix go 1. intros t.
  destruct t as [| | |n|elem|elem|key elem|name fields|].
  - exact Hi.
  - exact Hu.
  - exact Hs.
  - apply Ho.
  - apply Hsl, go.
  - apply Hp, go.
  - apply Hm; apply go.
  - apply Hst. induction fields as [|[sf ft] fields IH]; constructor.
    + apply go.
    + exact IH.
  - exact Hr.
Qed.

Lemma value_ind' (P : value -> Prop) :
  (forall i, P (VInt64 i)) -> (forall u, P (VUint64 u)) ->
  (forall s, P (VString s)) -> (forall n bits, P (VOther n bits)) ->
  (forall elem xs, Forall P xs -> P (VSlice elem xs)) ->
  (forall elem, P (VPtr elem None)) ->
  (forall elem target, P target -> P (VPtr elem (Some target))) ->
  (forall key elem entries, P (VMap key elem entries)) ->
  (forall name fields,
     Forall (fun fv => P (snd fv)) fields -> P (VStruct name fields)) ->
  (forall m, P (VRawMessage m)) ->
  forall v, P v.
Proof.
  intros Hi Hu Hs Ho Hsl Hnil Hp Hm Hst Hr. fix go 1. intros v.
  destruct v as [i|u|s|n bits|elem xs|elem [target|]|key elem entries
                |name fields|m].
  - apply Hi.
  - apply Hu.
  - apply Hs.
  - apply Ho.
  - apply Hsl. induction xs as [|x xs IH]; constructor.
    + apply go.
    + exact IH.
  - apply Hp, go.
  - apply Hnil.
  - apply Hm.
  - apply Hst. induction fields as [|[sf fv] fields IH]; constructor.
    + apply go.
    + exact IH.
  - apply Hr.
Qed.

Lemma TypeOf_Zero (t : type) : TypeOf (Zero t) = t.
Proof.
  induction t as [| | |n|elem IH|elem IH|key elem IHk IHe|name fields IH|]
    using type_ind'; simpl; try done.
  f_equal. rewrite map_map. simpl.
  induction IH as [|[sf ft] fields Hft _ IH]; simpl in *; [done |].
  by rewrite Hft, IH.
Qed.

Lemma marshalList_loop_all (elem : type) (xs : list value)
    (L : list RawMessage) :
  Forall (fun x => TypeOf x = elem /\ roundTrips x) xs ->
  exists ms,
    marshalList_loop marshalKind (KindOf elem) xs L = Ok (L ++ ms)
    /\ Forall2 (fun m x => unmarshalElem m elem (Zero elem) = Ok x) ms xs.
Proof.
  intros Hxs. revert L.
  induction Hxs as [|x xs [Ht (m & Hm & Hinj & _)] _ IH]; intros L; simpl.
  - exists []. by rewrite app_nil_r.
  - rewrite <- vKind_TypeOf, Ht in Hm. rewrite Ht in Hinj.
    rewrite Hm. simpl.
    destruct (IH (L ++ [m])) as (ms & -> & Hall).
    exists (m :: ms). split; [by rewrite <- app_assoc |].
    by constructor.
Qed.

Lemma unmarshalList_loop_all (elem : type) (ms : list RawMessage)
    (xs done : list value) :
  Forall2 (fun m x => unmarshalElem m elem (Zero elem) = Ok x) ms xs ->
  unmarshalList_loop unmarshalElem ms (length done) elem done
  = Ok (done ++ xs).
Proof.
  intros Hall. revert done.
  induction Hall as [|m x ms xs Hm _ IH]; intros done; simpl.
  - by rewrite app_nil_r.
  - rewrite list_lookup_middle by done. rewrite Hm. simpl.
    rewrite insert_app_r_alt by lia. rewrite Nat.sub_diag. simpl.
    replace (S (length done)) with (length (done ++ [x]))
      by (rewrite length_app; simpl; lia).
    rewrite IH. by rewrite <- app_assoc.
Qed.

Lemma Zero_TypeOf_struct (name : string) (fs : list (StructField * value)) :
  Zero (TypeOf (VStruct name fs)) = VStruct name (zeroFields fs).
Proof. simpl. by rewrite map_map. Qed.

(** The [fields] map looks at the fields only, not at their values. *)
Lemma fieldsMap_loop_fst (fs fs' : list (StructField * value)) (i : nat)
    (M : gmap string nat) :
  map fst fs = map fst fs' -> fieldsMap_loop fs i M = fieldsMap_loop fs' i M.
Proof.
  revert fs' i M.
  induction fs as [|[sf fv] fs IH]; intros [|[sf' fv'] fs'] i M; simpl;
    try done.
  intros [= -> Hfs]. destruct (exported sf'); simpl; by apply IH.
Qed.

Lemma fieldsMap_zeroFields (fs : list (StructField * value)) :
  fieldsMap (zeroFields fs) = fieldsMap fs.
Proof.
  apply fieldsMap_loop_fst. unfold zeroFields. rewrite map_map. simpl.
  reflexivity.
Qed.

Lemma fieldsMap_loop_other (fs : list (StructField * value)) (i : nat)
    (M : gmap string nat) (K : string) :
  K ∉ map (fun fv => fieldKey (fst fv)) fs ->
  fieldsMap_loop fs i M !! K = M !! K.
Proof.
  revert i M. induction fs as [|[sf fv] fs IH]; intros i M; simpl; [done |].
  intros [Hne Hnot]%not_elem_of_cons.
  destruct (exported sf); simpl; rewrite IH by done; [|done].
  by rewrite lookup_insert_ne.
Qed.

(** With keys that differ from each other, every exported field is found
    under its key. *)
Lemma fieldsMap_loop_lookup (fs : list (StructField * value)) (i0 j : nat)
    (M : gmap string nat) (sf : StructField) (fv : value) :
  NoDup (map (fun fv => fieldKey (fst fv)) fs) ->
  Forall (fun fv => exported (fst fv) = true) fs ->
  fs !! j = Some (sf, fv) ->
  fieldsMap_loop fs i0 M !! fieldKey sf = Some (i0 + j)%nat.
Proof.
  revert i0 j M.
  induction fs as [|[sf0 fv0] fs IH]; intros i0 j M; simpl; [done |].
  intros [Hnot Hnd]%NoDup_cons [Hex Hall]%Forall_cons. simpl in Hex.
  rewrite Hex. simpl. destruct j as [|j]; simpl.
  - intros [= -> ->]. rewrite fieldsMap_loop_other by done.
    rewrite lookup_insert_eq. f_equal. lia.
  - intros Hj. rewrite (IH (S i0) j) by done. f_equal. lia.
Qed.

Lemma marshalDict_loop_all (fs : list (StructField * value)) (D : list KV) :
  Forall (fun fv => exported (fst fv) = true /\ roundTrips (snd fv)) fs ->
  exists ms,
    marshalDict_loop marshalKind fs D = Ok (D ++ ms)
    /\ Forall2 (fun (kv : KV) fv =>
                  fst kv = fieldKey (fst fv) /\ injects (snd kv) (snd fv))
               ms fs.
Proof.
  intros Hfs. revert D.
  induction Hfs as [|[sf fv] fs [Hex (m & Hm & Hinj)] _ IH]; intros D; simpl.
  - exists []. by rewrite app_nil_r.
  - simpl in Hex, Hm, Hinj. rewrite Hex, vKind_TypeOf, Hm. simpl.
    destruct (IH (D ++ [(fieldKey sf, m)])) as (ms & -> & Hall).
    exists ((fieldKey sf, m) :: ms). split; [by rewrite <- app_assoc |].
    by constructor.
Qed.

Lemma unmarshalDict_loop_all (M : gmap string nat) (ms : list KV)
    (todo done : list (StructField * value)) :
  (forall i sf fv,
     (done ++ todo) !! i = Some (sf, fv) -> M !! fieldKey sf = Some i) ->
  Forall2 (fun (kv : KV) fv =>
             fst kv = fieldKey (fst fv) /\ injects (snd kv) (snd fv))
          ms todo ->
  unmarshalDict_loop unmarshalField ms M (done ++ zeroFields todo)
  = Ok (done ++ todo).
Proof.
  intros HM Hall. revert done HM.
  induction Hall as [|[K m] [sf fv] ms todo [HK [_ Hinj]] _ IH];
    intros done HM; simpl in *.
  - done.
  - subst K. rewrite (HM (length done) sf fv) by by rewrite list_lookup_middle.
    rewrite list_lookup_middle by done.
    rewrite TypeOf_Zero, Hinj.
    rewrite insert_app_r_alt by lia. rewrite Nat.sub_diag. simpl.
    rewrite (cons_middle (sf, fv) done (zeroFields todo)), app_assoc.
    rewrite IH.
    + by rewrite <- app_assoc.
    + intros i sf' fv'. rewrite <- app_assoc. apply HM.
Qed.

(** Projection and injection of one record, from what holds of its
    fields. *)
Lemma struct_roundTrips (name : string) (fs : list (StructField * value)) :
  fullySet (VPtr (TypeOf (VStruct name fs)) (Some (VStruct name fs))) = true ->
  Forall (fun fv => fullySet (snd fv) = true -> roundTrips (snd fv)) fs ->
  exists D,
    marshalDict (VPtr (TypeOf (VStruct name fs)) (Some (VStruct name fs)))
    = Ok (Some (dictRM D))
    /\ (0 < length D)%nat
    /\ unmarshalDict D (New (TypeOf (VStruct name fs)))
       = Ok (VPtr (TypeOf (VStruct name fs)) (Some (VStruct name fs))).
Proof.
  intros Hset IH. cbn [fullySet] in Hset.
  apply andb_prop in Hset as [Hset Hfields].
  apply andb_prop in Hset as [Hset Hnd%bool_decide_eq_true].
  apply andb_prop in Hset as [Hset Hlen].
  apply andb_prop in Hset as [_ Hname%negb_true_iff%bool_decide_eq_false].
  assert (Forall (fun fv => exported (fst fv) = true /\ roundTrips (snd fv)) fs)
    as Hfs.
  { apply Forall_forall. intros fv Hin.
    assert (exported (fst fv) && fullySet (snd fv) = true) as [??]%andb_prop.
    { rewrite forallb_forall in Hfields. apply Hfields.
      by apply list_elem_of_In. }
    split; [done |]. rewrite Forall_forall in IH. by apply IH. }
  destruct (marshalDict_loop_all fs [] Hfs) as (D & HD & Hall).
  exists D. split; [|split].
  - unfold marshalDict, marshalDict_with. rewrite decide_False by done.
    by rewrite HD.
  - apply Forall2_length in Hall. rewrite Hall.
    by apply Nat.ltb_lt.
  - unfold New. rewrite Zero_TypeOf_struct.
    unfold unmarshalDict, unmarshalDict_with.
    rewrite fieldsMap_zeroFields.
    assert (unmarshalDict_loop unmarshalField D (fieldsMap fs)
              ([] ++ zeroFields fs) = Ok ([] ++ fs)) as Hloop.
    { apply unmarshalDict_loop_all; [|done].
      intros i sf fv Hi. simpl in Hi.
      apply (fieldsMap_loop_lookup fs 0 i ∅ sf fv); [done | | done].
      eapply Forall_impl; [exact Hfs |]. by intros ? [? _]. }
    simpl in Hloop. by rewrite Hloop.
Qed.

Lemma fullySet_roundTrips_fields (v : value) :
  (fullySet v = true -> roundTrips v)
  /\ forall name fs, v = VStruct name fs ->
       Forall (fun fv => fullySet (snd fv) = true -> roundTrips (snd fv)) fs.
Proof.
  induction v as [i|u|s|n bits|elem xs IH|elem|elem target IH
                 |key elem entries|name fields IH|m] using value_ind';
    (split; [|try discriminate]); try discriminate.
  - (* int64 *)
    intros H%negb_true_iff. exists (podRM (PInt64 i)). split.
    + rewrite marshalKind_eq. unfold marshalPOD. by rewrite H.
    + by split; [rewrite unmarshalElem_eq | rewrite unmarshalField_eq].
  - (* uint64 *)
    intros H%negb_true_iff. exists (podRM (PUint64 u)). split.
    + rewrite marshalKind_eq. unfold marshalPOD. by rewrite H.
    + by split; [rewrite unmarshalElem_eq | rewrite unmarshalField_eq].
  - (* string *)
    intros H%negb_true_iff. exists (podRM (PString s)). split.
    + rewrite marshalKind_eq. unfold marshalPOD. by rewrite H.
    + by split; [rewrite unmarshalElem_eq | rewrite unmarshalField_eq].
  - (* sequence *)
    intros [Hlen Hall]%andb_prop.
    assert (Forall (fun x => TypeOf x = elem /\ roundTrips x) xs) as Hxs.
    { apply Forall_forall. intros x Hin.
      assert (bool_decide (TypeOf x = elem) && fullySet x = true)
        as [Ht%bool_decide_eq_true Hx]%andb_prop.
      { rewrite forallb_forall in Hall. apply Hall. by apply list_elem_of_In. }
      split; [done |]. rewrite Forall_forall in IH. by apply (IH x). }
    destruct (marshalList_loop_all elem xs [] Hxs) as (ms & Hms & Hinj).
    assert ((0 <? length ms)%nat = true) as Hms_len
      by (by rewrite (Forall2_length _ _ _ Hinj)).
    assert (unmarshalList ms (VSlice elem []) = Ok (VSlice elem xs)) as Hun.
    { pose proof (unmarshalList_loop_all elem ms xs [] Hinj) as Hloop.
      simpl in Hloop. unfold unmarshalList, unmarshalList_with.
      by rewrite Hloop. }
    exists (listRM ms). split.
    + rewrite marshalKind_eq. unfold vKind, marshalList, marshalList_with.
      destruct xs; [done |]. cbn [length Nat.eqb]. by rewrite Hms.
    + split; [rewrite unmarshalElem_eq | rewrite unmarshalField_eq];
        cbn [TypeOf Zero isRawMessagePtr listRM rmPOD rmL rmD];
        by rewrite Hms_len.
  - (* pointer *)
    destruct IH as [_ IHfs].
    destruct target as [| | | | | | |name fs|m]; try discriminate.
    + intros Hset.
      assert (elem = TypeOf (VStruct name fs) /\ name <> "RawMessage")
        as [-> Hname].
      { pose proof Hset as Hparts. cbn [fullySet] in Hparts.
        do 3 (apply andb_prop in Hparts as [Hparts _]).
        apply andb_prop in Hparts
          as [?%bool_decide_eq_true ?%negb_true_iff%bool_decide_eq_false].
        done. }
      destruct (struct_roundTrips name fs Hset (IHfs _ _ eq_refl))
        as (D & HD & Hlen%Nat.ltb_lt & Hun).
      exists (dictRM D). split; [by rewrite marshalKind_eq |].
      split; [rewrite unmarshalElem_eq | rewrite unmarshalField_eq];
        cbn [TypeOf Zero isRawMessagePtr TypeName dictRM rmPOD rmL rmD
             length Nat.ltb Nat.leb];
        rewrite bool_decide_eq_false_2 by done;
        (destruct D; [done | exact Hun]).
    + intros ->%bool_decide_eq_true. exists m. split; [done |].
      by split; [rewrite unmarshalElem_eq | rewrite unmarshalField_eq].
  - (* record *)
    intros name' fs [= <- <-].
    eapply Forall_impl; [exact IH |]. by intros fv [? _].
Qed.

(** C2 (amended).  A record all of whose fields are exported, have keys
    different from each other, and are non-zero and non-empty, and so on for
    the elements of its sequences and the records its pointers point to
    (which have at least one field): its projection succeeds, and injected
    into a new record of the same type it gives the record back. *)
Theorem marshal_unmarshal_roundtrip (elem : type) (name : string)
    (fs : list (StructField * value)) :
  fullySet (VPtr elem (Some (VStruct name fs))) = true ->
  exists rm,
    marshalDict (VPtr elem (Some (VStruct name fs))) = Ok (Some rm)
    /\ RawMessage_Unmarshal rm (New elem)
       = Ok (VPtr elem (Some (VStruct name fs))).
Proof.
  intros Hset.
  assert (elem = TypeOf (VStruct name fs)) as ->.
  { pose proof Hset as Hparts. cbn [fullySet] in Hparts.
    do 4 (apply andb_prop in Hparts as [Hparts _]).
    by apply bool_decide_eq_true in Hparts. }
  destruct (fullySet_roundTrips_fields (VStruct name fs)) as [_ Hfs].
  destruct (struct_roundTrips name fs Hset (Hfs _ _ eq_refl))
    as (D & HD & _ & Hun).
  exists (dictRM D). split; [done |].
  unfold RawMessage_Unmarshal, New. by rewrite decide_True.
Qed.

Lemma marshal_unmarshal_roundtrip_witness :
  exists rm,
    marshalDict (VPtr MetaInfo_t (Some (VStruct "MetaInfo" metaInfoFields)))
    = Ok (Some rm)
    /\ RawMessage_Unmarshal rm (New MetaInfo_t)
       = Ok (VPtr MetaInfo_t (Some (VStruct "MetaInfo" metaInfoFields))).
Proof.
  apply (marshal_unmarshal_roundtrip MetaInfo_t "MetaInfo" metaInfoFields).
  vm_compute. reflexivity.
Defined.

(** C2 (counterexample).  Both fields of this record are non-zero [int64]s;
    the one that is not exported is passed over by the projector and by the
    injector, so it comes back zero. *)
Lemma roundtrip_loses_unexported_field :
  marshalDict counter12 = Ok (Some (dictRM [("Total", podRM (PInt64 1))]))
  /\ RawMessage_Unmarshal (dictRM [("Total", podRM (PInt64 1))])
       (New counter_t)
     = Ok (VPtr counter_t
             (Some (VStruct "counter"
                      [(mkStructField "Total" "" [], VInt64 1);
                       (mkStructField "seen" "main" [], VInt64 0)])))
  /\ VPtr counter_t
       (Some (VStruct "counter"
                [(mkStructField "Total" "" [], VInt64 1);
                 (mkStructField "seen" "main" [], VInt64 0)]))
     <> counter12.
Proof. repeat split; [vm_compute; reflexivity.. | discriminate]. Qed.

(** The other conditions of the round trip are needed as well.  Two
    fields with one key: both entries go to the later field. *)
Lemma roundtrip_fails_on_shared_key :
  marshalDict
    (VPtr pair_t
       (Some (VStruct "pair" [(ben "A" "x", VInt64 1);
                              (ben "B" "x", VInt64 2)])))
  = Ok (Some (dictRM [("x", podRM (PInt64 1)); ("x", podRM (PInt64 2))]))
  /\ RawMessage_Unmarshal
       (dictRM [("x", podRM (PInt64 1)); ("x", podRM (PInt64 2))])
       (New pair_t)
     = Ok (VPtr pair_t
             (Some (VStruct "pair" [(ben "A" "x", VInt64 0);
                                    (ben "B" "x", VInt64 2)]))).
Proof. split; vm_compute; reflexivity. Qed.

(** A zero among the elements of a sequence is left out by the projector,
    and the elements after it move up. *)
Lemma roundtrip_fails_on_zero_element :
  marshalDict
    (VPtr samples_t
       (Some (VStruct "samples"
                [(mkStructField "Xs" "" [],
                  VSlice TInt64 [VInt64 0; VInt64 5])])))
  = Ok (Some (dictRM [("Xs", listRM [podRM (PInt64 5)])]))
  /\ RawMessage_Unmarshal (dictRM [("Xs", listRM [podRM (PInt64 5)])])
       (New samples_t)
     = Ok (VPtr samples_t
             (Some (VStruct "samples"
                      [(mkStructField "Xs" "" [],
                        VSlice TInt64 [VInt64 5])]))).
Proof. split; vm_compute; reflexivity. Qed.

(** A pointer to a record without fields is projected to a node with
    nothing in it, which the injector passes over: the pointer comes back
    nil. *)
Lemma roundtrip_fails_on_empty_record :
  marshalDict
    (VPtr holder_t
       (Some (VStruct "holder"
                [(mkStructField "Unit" "" [],
                  VPtr (TStruct "unit" []) (Some (VStruct "unit" [])))])))
  = Ok (Some (dictRM [("Unit", emptyRM)]))
  /\ RawMessage_Unmarshal (dictRM [("Unit", emptyRM)]) (New holder_t)
     = Ok (VPtr holder_t
             (Some (VStruct "holder"
                      [(mkStructField "Unit" "" [],
                        VPtr (TStruct "unit" []) None)]))).
Proof. split; vm_compute; reflexivity. Qed.

(** The package's two tests, on the sample: the bytes are decoded and
    encoded back unchanged; a record filled from the bytes, written out and
    filled again from what was written, is the same record. *)
Example test_codec :
  (rm ← Decode torrent; Ok (Encode rm)) = Ok torrent.
Proof. vm_compute. reflexivity. Qed.

Example test_marshal_unmarshal :
  match Unmarshal torrent (New MetaInfo_t) with
  | Ok mi =>
      match Marshal mi with
      | Ok (Some bytes) => Unmarshal bytes (New MetaInfo_t) = Ok mi
      | _ => False
      end
  | _ => False
  end.
Proof. vm_compute. reflexivity. Qed.

(** ** Encoding, then decoding *)

(** The integers as [fmt] writes them are read back by [strconv]. *)
Lemma digitByte_digit (d : Z) :
  0 <= d < 10 ->
  is_digit (strconv.digitByte d) = true
  /\ byte_val (strconv.digitByte d) - byte_val "0" = d
  /\ (strconv.digitByte d = "0"%char -> d = 0).
Proof.
  intros Hd.
  assert (d = 0 \/ d = 1 \/ d = 2 \/ d = 3 \/ d = 4 \/ d = 5 \/ d = 6
          \/ d = 7 \/ d = 8 \/ d = 9) as Hcases by lia.
  repeat (destruct Hcases as [->|Hcases]); try subst d;
    (split; [reflexivity | split; [reflexivity | try done]]).
Qed.

Lemma digits_step (a d : Z) (buf : string) :
  0 <= a -> 0 <= d < 10 -> a * 10 + d <= strconv.maxUint64 ->
  strconv.digits 10 (String (strconv.digitByte d) buf) a
  = strconv.digits 10 buf (a * 10 + d).
Proof.
  intros Ha Hd Hmax. destruct (digitByte_digit d Hd) as (Hdig & Hval & _).
  cbn [strconv.digits]. rewrite Hdig, Hval. cbn [negb].
  unfold strconv.maxUint64 in *.
  rewrite (proj2 (Z.leb_gt 10 d)) by lia.
  assert (a <= (2 ^ 64 - 1) / 10) by (apply Z.div_le_lower_bound; lia).
  rewrite (proj2 (Z.leb_gt _ a)) by lia.
  rewrite Z.mod_small by lia.
  rewrite (proj2 (Z.ltb_ge _ _)) by lia.
  rewrite (proj2 (Z.ltb_ge _ _)) by lia.
  reflexivity.
Qed.

Lemma shiftIn_nonneg (fuel : nat) (a u : Z) :
  0 <= a -> 0 <= u -> 0 <= shiftIn fuel a u.
Proof.
  revert u. induction fuel as [|fuel IH]; intros u Ha Hu; simpl; [done |].
  destruct (u <? 10); [lia |].
  assert (0 <= shiftIn fuel a (u / 10))
    by (apply IH; [done | by apply Z.div_pos]).
  pose proof (Z.mod_pos_bound u 10). lia.
Qed.

Lemma shiftIn_zero (fuel : nat) (u : Z) :
  0 <= u < 10 ^ Z.of_nat fuel -> shiftIn fuel 0 u = u.
Proof.
  revert u. induction fuel as [|fuel IH]; intros u Hu.
  - simpl in *. lia.
  - cbn [shiftIn]. destruct (u <? 10) eqn:Hlt; [lia |].
    rewrite Nat2Z.inj_succ, Z.pow_succ_r in Hu by lia.
    rewrite IH.
    + pose proof (Z.div_mod u 10). lia.
    + split; [apply Z.div_pos; lia | apply Z.div_lt_upper_bound; lia].
Qed.

Lemma digits_fmtDigits (fuel : nat) (u a : Z) (buf : string) :
  0 <= a -> 0 <= u -> shiftIn fuel a u <= strconv.maxUint64 ->
  strconv.digits 10 (strconv.fmtDigits fuel u buf) a
  = strconv.digits 10 buf (shiftIn fuel a u).
Proof.
  revert u buf. induction fuel as [|fuel IH]; intros u buf Ha Hu Hmax;
    cbn [strconv.fmtDigits shiftIn] in *; [done |].
  destruct (u <? 10) eqn:Hlt.
  - apply Z.ltb_lt in Hlt. by apply digits_step.
  - pose proof (Z.mod_pos_bound u 10 eq_refl) as Hmod.
    assert (0 <= u / 10) by (apply Z.div_pos; lia).
    pose proof (shiftIn_nonneg fuel a (u / 10) Ha ltac:(done)).
    rewrite IH by lia. apply digits_step; lia.
Qed.

Lemma fmtDigits_head (fuel : nat) (u : Z) (buf : string) :
  0 < u < 10 ^ Z.of_nat fuel ->
  exists c s, strconv.fmtDigits fuel u buf = String c s
              /\ is_digit c = true /\ c <> "0"%char.
Proof.
  revert u buf. induction fuel as [|fuel IH]; intros u buf Hu.
  - simpl in Hu. lia.
  - cbn [strconv.fmtDigits]. destruct (u <? 10) eqn:Hlt.
    + apply Z.ltb_lt in Hlt.
      destruct (digitByte_digit u) as (Hdig & _ & Hz); [lia |].
      eexists _, _. split; [reflexivity |]. split; [done |].
      intros ?%Hz. lia.
    + apply Z.ltb_ge in Hlt.
      rewrite Nat2Z.inj_succ, Z.pow_succ_r in Hu by lia.
      apply IH. split.
      * apply Z.div_str_pos. lia.
      * apply Z.div_lt_upper_bound; lia.
Qed.

Lemma is_digit_tokenByte (c : ascii) : is_digit c = true -> tokenByte c = true.
Proof. unfold tokenByte. intros ->. apply orb_true_r. Qed.

Lemma fmtDigits_tokenBytes (fuel : nat) (u : Z) (buf : string) :
  0 <= u -> tokenBytes buf = true ->
  tokenBytes (strconv.fmtDigits fuel u buf) = true.
Proof.
  revert u buf. induction fuel as [|fuel IH]; intros u buf Hu Hbuf;
    cbn [strconv.fmtDigits]; [done |].
  destruct (u <? 10) eqn:Hlt.
  - apply Z.ltb_lt in Hlt.
    destruct (digitByte_digit u) as (Hdig & _); [lia |].
    cbn [tokenBytes]. by rewrite is_digit_tokenByte, Hbuf.
  - pose proof (Z.mod_pos_bound u 10 eq_refl) as Hmod.
    destruct (digitByte_digit (u mod 10)) as (Hdig & _); [lia |].
    apply IH; [apply Z.div_pos; lia |].
    cbn [tokenBytes]. by rewrite is_digit_tokenByte, Hbuf.
Qed.

Lemma ParseUint_head (c : ascii) (s : string) :
  c <> "0"%char ->
  strconv.ParseUint (String c s) = strconv.digits 10 (String c s) 0.
Proof.
  intros Hc. unfold strconv.ParseUint.
  destruct c as [[] [] [] [] [] [] [] []]; try reflexivity. done.
Qed.

Lemma ParseUint_FormatUint (u : Z) :
  0 <= u < 2 ^ 64 -> strconv.ParseUint (strconv.FormatUint u) = Ok u.
Proof.
  intros Hu. destruct (decide (u = 0)) as [->|Hne]; [reflexivity |].
  assert (0 < u < 10 ^ Z.of_nat 20) as Hfuel by (simpl; lia).
  unfold strconv.FormatUint.
  destruct (fmtDigits_head 20 u "" Hfuel) as (c & s & Hcs & _ & Hc).
  pose proof (ParseUint_head c s Hc) as Hparse. rewrite <- Hcs in Hparse.
  rewrite Hparse.
  assert (shiftIn 20 0 u = u) as Hshift by (apply shiftIn_zero; lia).
  rewrite digits_fmtDigits; rewrite ?Hshift; try done; try lia.
  unfold strconv.maxUint64. lia.
Qed.

Lemma FormatUint_head (u : Z) :
  0 <= u < 2 ^ 64 ->
  exists c s, strconv.FormatUint u = String c s
              /\ is_digit c = true /\ tokenBytes s = true
              /\ (c = "0"%char -> u = 0).
Proof.
  intros Hu.
  assert (tokenBytes (strconv.FormatUint u) = true) as Htok
    by (apply fmtDigits_tokenBytes; [lia | done]).
  destruct (decide (u = 0)) as [->|Hne].
  - by exists "0"%char, ""%string.
  - assert (0 < u < 10 ^ Z.of_nat 20) as Hfuel by (simpl; lia).
    destruct (fmtDigits_head 20 u "" Hfuel) as (c & s & Hcs & Hdig & Hc).
    unfold strconv.FormatUint in *. rewrite Hcs in Htok |- *.
    exists c, s. cbn [tokenBytes] in Htok.
    apply andb_prop in Htok as [_ Hs]. by repeat split.
Qed.

Lemma ParseInt_minus (s : string) :
  strconv.ParseInt (String "-" s)
  = match strconv.ParseUint s with
    | Ok un =>
        if 2 ^ 63 <? un then Err ErrRange
        else Ok (strconv.neg64 (strconv.int64_of_uint64 un))
    | Err e => Err e
    | Panic p => Panic p
    end.
Proof.
  unfold strconv.ParseInt.
  destruct (decide ("-"%char = "+"%char)) as [Heq|_]; [discriminate Heq |].
  destruct (decide ("-"%char = "-"%char)) as [_|Hne]; [|done].
  destruct (strconv.ParseUint s) as [un|[]|]; reflexivity.
Qed.

Lemma ParseInt_FormatInt (i : Z) :
  - 2 ^ 63 <= i < 0 -> strconv.ParseInt (strconv.FormatInt i) = Ok i.
Proof.
  intros Hi. unfold strconv.FormatInt.
  rewrite (proj2 (Z.ltb_lt i 0)) by lia.
  rewrite ParseInt_minus, ParseUint_FormatUint by lia.
  rewrite (proj2 (Z.ltb_ge _ _)) by lia.
  f_equal. unfold strconv.int64_of_uint64, strconv.neg64.
  destruct (- i <? 2 ^ 63) eqn:Hlt.
  - apply Z.ltb_lt in Hlt. rewrite Z.mod_small by lia. lia.
  - apply Z.ltb_ge in Hlt. assert (i = - 2 ^ 63) as -> by lia. reflexivity.
Qed.

Lemma RawMessage_ind' (P : RawMessage -> Prop) :
  (forall POD L D,
     Forall P L -> Forall (fun kv : KV => P (snd kv)) D ->
     P (mkRawMessage POD L D)) ->
  forall m, P m.
Proof.
  intros Hnode. fix go 1. intros [POD L D]. apply Hnode.
  - induction L as [|x L IH]; constructor.
    + apply go.
    + exact IH.
  - induction D as [|[k v] D IH]; constructor.
    + apply go.
    + exact IH.
Qed.

Lemma decodeRawMessage_S (fuel : nat) (c : ascii) (r1 : Reader) :
  decodeRawMessage (S fuel) (String c r1) =
  if is_digit c then
    Some ('(strbuf, r2) ← strBuf (String c r1);
          Ok (podRM (PString strbuf), r2))
  else if decide (c = "i"%char) then
    Some ('(intbuf, r2) ← intBuf r1 "e";
          match intbuf with
          | EmptyString => Panic IndexOutOfRange
          | String c0 _ =>
              if decide (c0 = "-"%char) then
                i ← strconv.ParseInt intbuf;
                Ok (podRM (PInt64 i), r2)
              else
                u ← strconv.ParseUint intbuf;
                Ok (podRM (PUint64 u), r2)
          end)
  else if decide (c = "l"%char) then
    match decodeL_loop (decodeRawMessage fuel) fuel r1 [] with
    | None => None
    | Some o => Some ('(L, r2) ← o; Ok (listRM L, r2))
    end
  else if decide (c = "d"%char) then
    match decodeD_loop (decodeRawMessage fuel) fuel r1 [] with
    | None => None
    | Some o => Some ('(D, r2) ← o; Ok (dictRM D, r2))
    end
  else Some (Err (ErrUnexpectedChar c)).
Proof. reflexivity. Qed.

(** More fuel does not change what is decoded. *)
Lemma decodeL_loop_mono dec dec' (n n' : nat) (r : Reader) L o :
  (forall r o, dec r = Some o -> dec' r = Some o) ->
  (n <= n')%nat ->
  decodeL_loop dec n r L = Some o -> decodeL_loop dec' n' r L = Some o.
Proof.
  intros Hdec. revert n' r L.
  induction n as [|n IH]; intros [|n'] r L Hn; simpl; try done; [lia |].
  destruct (isDelim r "e") as [[[] r1]| |]; try done.
  destruct (dec r1) as [o1|] eqn:H1; [|done]. rewrite (Hdec _ _ H1).
  destruct o1 as [[ln r2]| |]; try done. apply IH. lia.
Qed.

Lemma decodeD_loop_mono dec dec' (n n' : nat) (r : Reader) D o :
  (forall r o, dec r = Some o -> dec' r = Some o) ->
  (n <= n')%nat ->
  decodeD_loop dec n r D = Some o -> decodeD_loop dec' n' r D = Some o.
Proof.
  intros Hdec. revert n' r D.
  induction n as [|n IH]; intros [|n'] r D Hn; simpl; try done; [lia |].
  destruct (isDelim r "e") as [[[] r1]| |]; try done.
  destruct (dec r1) as [o1|] eqn:H1; [|done]. rewrite (Hdec _ _ H1).
  destruct o1 as [[k r2]| |]; try done.
  destruct (dec r2) as [o2|] eqn:H2; [|done]. rewrite (Hdec _ _ H2).
  destruct o2 as [[v r3]| |]; try done.
  destruct (rmPOD k) as [[| |key|]|]; try done. apply IH. lia.
Qed.

Lemma decodeRawMessage_mono (fuel fuel' : nat) (r : Reader) o :
  (fuel <= fuel')%nat ->
  decodeRawMessage fuel r = Some o -> decodeRawMessage fuel' r = Some o.
Proof.
  revert fuel' r o.
  induction fuel as [|fuel IH]; intros [|fuel'] r o Hle; try done; [lia |].
  destruct r as [|c r1]; [done |]. rewrite !decodeRawMessage_S.
  destruct (is_digit c); [done |].
  destruct (decide (c = "i"%char)); [done |].
  assert (forall r o, decodeRawMessage fuel r = Some o ->
                      decodeRawMessage fuel' r = Some o) as Hdec
    by (intros; apply IH; [lia | done]).
  destruct (decide (c = "l"%char)).
  { destruct (decodeL_loop _ fuel r1 []) as [oL|] eqn:HL; [|done].
    by rewrite (decodeL_loop_mono _ _ fuel fuel' r1 [] oL Hdec ltac:(lia) HL). }
  destruct (decide (c = "d"%char)); [|done].
  destruct (decodeD_loop _ fuel r1 []) as [oD|] eqn:HD; [|done].
  by rewrite (decodeD_loop_mono _ _ fuel fuel' r1 [] oD Hdec ltac:(lia) HD).
Qed.

Lemma strlen_bound (s : string) : 0 <= strlen s.
Proof. unfold strlen. lia. Qed.

Lemma strBuf_encoded (s rest : string) :
  strlen s <= maxAlloc ->
  strBuf (encodePOD (PString s) +:+ rest) = Ok (s, rest).
Proof.
  intros Hlen. pose proof (strlen_bound s) as Hpos.
  assert (0 <= strlen s < 2 ^ 64) as Hu by (unfold maxAlloc in Hlen; lia).
  assert (tokenBytes (strconv.FormatUint (strlen s)) = true) as Htok
    by (apply fmtDigits_tokenBytes; [lia | done]).
  unfold strBuf. cbn [encodePOD]. rewrite !sapp_assoc.
  change (":" +:+ s +:+ rest) with (String ":" (s +:+ rest)).
  rewrite intBuf_app by done. cbn [mbind outcome_bind].
  rewrite ParseUint_FormatUint by done. cbn [mbind outcome_bind].
  rewrite (proj2 (Z.ltb_ge _ _)) by lia.
  unfold ReadFull, strlen. rewrite Nat2Z.id, slength_app.
  rewrite (proj2 (Nat.leb_le _ _)) by lia.
  by rewrite take_sapp, drop_sapp.
Qed.

Lemma encodePOD_string_head (s : string) :
  strlen s <= maxAlloc ->
  exists c t, encodePOD (PString s) = String c t /\ is_digit c = true.
Proof.
  intros Hlen. pose proof (strlen_bound s).
  destruct (FormatUint_head (strlen s)) as (c & t & Hct & Hdig & _);
    [unfold maxAlloc in Hlen; lia |].
  exists c, (t +:+ ":" +:+ s). cbn [encodePOD]. by rewrite Hct.
Qed.

Lemma decode_string (fuel : nat) (s rest : string) :
  strlen s <= maxAlloc ->
  decodeRawMessage (S fuel) (encodePOD (PString s) +:+ rest)
  = Some (Ok (podRM (PString s), rest)).
Proof.
  intros Hlen. pose proof (strBuf_encoded s rest Hlen) as Hbuf.
  destruct (encodePOD_string_head s Hlen) as (c & t & Hct & Hdig).
  rewrite Hct in Hbuf |- *.
  change (String c t +:+ rest) with (String c (t +:+ rest)) in Hbuf |- *.
  by rewrite decodeRawMessage_S, Hdig, Hbuf.
Qed.

Lemma decode_uint (fuel : nat) (u : Z) (rest : string) :
  0 <= u < 2 ^ 64 ->
  decodeRawMessage (S fuel) (encodePOD (PUint64 u) +:+ rest)
  = Some (Ok (podRM (PUint64 u), rest)).
Proof.
  intros Hu. cbn [encodePOD]. rewrite !sapp_assoc.
  change ("i" +:+ ?x) with (String "i" x).
  change ("e" +:+ rest) with (String "e" rest).
  rewrite decodeRawMessage_S.
  change (is_digit "i") with false. cbv iota.
  rewrite decide_True by done.
  assert (tokenBytes (strconv.FormatUint u) = true) as Htok
    by (apply fmtDigits_tokenBytes; [lia | done]).
  rewrite intBuf_app by done. cbn [mbind outcome_bind].
  pose proof (ParseUint_FormatUint u Hu) as Hparse.
  destruct (FormatUint_head u Hu) as (c & t & Hct & Hdig & _).
  rewrite Hct in Hparse |- *.
  rewrite decide_False by (by intros ->).
  by rewrite Hparse.
Qed.

Lemma decode_negative_int (fuel : nat) (i : Z) (rest : string) :
  - 2 ^ 63 <= i < 0 ->
  decodeRawMessage (S fuel) (encodePOD (PInt64 i) +:+ rest)
  = Some (Ok (podRM (PInt64 i), rest)).
Proof.
  intros Hi. pose proof (ParseInt_FormatInt i Hi) as Hparse.
  cbn [encodePOD]. rewrite !sapp_assoc.
  change ("i" +:+ ?x) with (String "i" x).
  change ("e" +:+ rest) with (String "e" rest).
  rewrite decodeRawMessage_S.
  change (is_digit "i") with false. cbv iota.
  rewrite decide_True by done.
  assert (tokenBytes (strconv.FormatInt i) = true) as Htok.
  { unfold strconv.FormatInt. rewrite (proj2 (Z.ltb_lt i 0)) by lia.
    cbn [tokenBytes]. change (tokenByte "-") with true.
    apply fmtDigits_tokenBytes; [lia | done]. }
  rewrite intBuf_app by done. cbn [mbind outcome_bind].
  unfold strconv.FormatInt in *. rewrite (proj2 (Z.ltb_lt i 0)) in * by lia.
  rewrite decide_True by done. by rewrite Hparse.
Qed.

Lemma isDelim_headNotE (s rest : string) :
  headNotE s -> isDelim (s +:+ rest) "e" = Ok (false, s +:+ rest).
Proof.
  intros (c & t & -> & Hc). simpl. rewrite isDelim_cons.
  by rewrite decide_False.
Qed.

Lemma headNotE_string (s : string) :
  strlen s <= maxAlloc -> headNotE (encodePOD (PString s)).
Proof.
  intros (c & t & -> & Hdig)%encodePOD_string_head.
  exists c, t. split; [done |]. by intros ->.
Qed.

Section decode_loops_encoded.

Variable dec : Reader -> option (outcome (RawMessage * Reader)).
Let enc := encodeRawMessage.

Lemma decodeL_loop_encoded (xs : list RawMessage) :
  Forall (givesBack dec) xs ->
  forall (n : nat) (L : list RawMessage) (rest : string),
    (length xs < n)%nat ->
    decodeL_loop dec n (encodeL_loop enc xs +:+ String "e" rest) L
    = Some (Ok (L ++ xs, rest)).
Proof.
  induction 1 as [|x xs [Hx Hhead] _ IH]; intros [|n] L rest Hn;
    try (simpl in Hn; lia).
  - cbn [encodeL_loop decodeL_loop]. simpl (_ +:+ _).
    rewrite isDelim_cons, decide_True by done. by rewrite app_nil_r.
  - cbn [encodeL_loop decodeL_loop]. rewrite sapp_assoc.
    rewrite isDelim_headNotE by done. rewrite Hx.
    rewrite IH by (simpl in Hn; lia). by rewrite <- app_assoc.
Qed.

Lemma decodeD_loop_encoded (d : list KV) :
  (forall k rest, strlen k <= maxAlloc ->
     dec (encodePOD (PString k) +:+ rest)
     = Some (Ok (podRM (PString k), rest))) ->
  Forall (fun kv : KV =>
            strlen (fst kv) <= maxAlloc /\ givesBack dec (snd kv)) d ->
  forall (n : nat) (D : list KV) (rest : string),
    (length d < n)%nat ->
    decodeD_loop dec n (encodeD_loop enc d +:+ String "e" rest) D
    = Some (Ok (D ++ d, rest)).
Proof.
  intros Hkey.
  induction 1 as [|[k v] d [Hk [Hv Hhead]] _ IH]; intros [|n] D rest Hn;
    try (simpl in Hn; lia).
  - cbn [encodeD_loop decodeD_loop]. simpl (_ +:+ _).
    rewrite isDelim_cons, decide_True by done. by rewrite app_nil_r.
  - cbn [encodeD_loop decodeD_loop fst snd] in *. rewrite !sapp_assoc.
    rewrite isDelim_headNotE by by apply headNotE_string.
    rewrite Hkey by done. rewrite Hv. cbn [rmPOD podRM].
    rewrite IH by (simpl in Hn; lia). by rewrite <- app_assoc.
Qed.

End decode_loops_encoded.

Lemma need_le_sum {A} (f : A -> nat) (x : A) (l : list A) :
  x ∈ l -> (f x <= list_sum (map f l))%nat.
Proof.
  induction 1 as [x l|x y l _ IH]; simpl; lia.
Qed.

Lemma length_le_sum {A} (f : A -> nat) (l : list A) :
  (forall x, 1 <= f x)%nat -> (length l <= list_sum (map f l))%nat.
Proof.
  intros Hf. induction l as [|x l IH]; simpl; [lia |].
  specialize (Hf x). lia.
Qed.

Lemma need_pos (m : RawMessage) : (1 <= need m)%nat.
Proof. destruct m. simpl. lia. Qed.

Lemma canonical_decodes (m : RawMessage) :
  canonical m = true ->
  (forall fuel rest, (need m <= fuel)%nat ->
     decodeRawMessage fuel (encodeRawMessage m +:+ rest) = Some (Ok (m, rest)))
  /\ headNotE (encodeRawMessage m).
Proof.
  induction m as [POD L D IHL IHD] using RawMessage_ind'. intros Hc.
  destruct POD as [[i|u|s|k]|]; cbn [canonical] in Hc.
  - (* a negative int64 *)
    destruct L, D; try discriminate.
    apply andb_prop in Hc as [?%Z.leb_le ?%Z.ltb_lt]. split.
    + intros [|fuel] rest Hf; [simpl in Hf; lia |].
      by apply decode_negative_int.
    + by exists "i"%char, (strconv.FormatInt i +:+ "e").
  - (* a uint64 *)
    destruct L, D; try discriminate.
    apply andb_prop in Hc as [?%Z.leb_le ?%Z.ltb_lt]. split.
    + intros [|fuel] rest Hf; [simpl in Hf; lia |].
      by apply decode_uint.
    + by exists "i"%char, (strconv.FormatUint u +:+ "e").
  - (* a string *)
    destruct L, D; try discriminate. apply Z.leb_le in Hc. split.
    + intros [|fuel] rest Hf; [simpl in Hf; lia |].
      by apply decode_string.
    + by apply headNotE_string.
  - by destruct L, D.
  - destruct L as [|x L], D as [|kv D]; try discriminate.
    + (* a dict *)
      split; [|by exists "d"%char,
                 (encodeD_loop encodeRawMessage (kv :: D) +:+ "e")].
      intros [|fuel] rest Hf; [simpl in Hf; lia |].
      cbn [need map list_sum] in Hf.
      change (encodeRawMessage (mkRawMessage None [] (kv :: D)) +:+ rest)
        with (String "d" ((encodeD_loop encodeRawMessage (kv :: D) +:+ "e")
                          +:+ rest)).
      rewrite sapp_assoc. change ("e" +:+ rest) with (String "e" rest).
      rewrite decodeRawMessage_S. change (is_digit "d") with false.
      cbv iota. rewrite decide_False by done. rewrite decide_False by done.
      rewrite decide_True by done.
      rewrite (decodeD_loop_encoded (decodeRawMessage fuel) (kv :: D)).
      * done.
      * intros k rest' Hk. destruct fuel; [lia |]. by apply decode_string.
      * apply Forall_forall. intros kv' Hin.
        assert ((strlen (fst kv') <=? maxAlloc) && canonical (snd kv') = true)
          as [Hk%Z.leb_le Hcv]%andb_prop.
        { rewrite forallb_forall in Hc. apply Hc. by apply list_elem_of_In. }
        split; [done |]. rewrite Forall_forall in IHD.
        destruct (IHD kv' Hin Hcv) as [Hdec Hhead]. split; [|done].
        intros rest'. apply Hdec.
        pose proof (need_le_sum (fun kv : KV => need (snd kv)) kv'
                      (kv :: D) Hin). simpl in *. lia.
      * pose proof (length_le_sum (fun kv : KV => need (snd kv)) (kv :: D)
                      (fun kv => need_pos (snd kv))). simpl in *. lia.
    + (* a list *)
      split; [|by exists "l"%char,
                 (encodeL_loop encodeRawMessage (x :: L) +:+ "e")].
      intros [|fuel] rest Hf; [simpl in Hf; lia |].
      cbn [need map list_sum] in Hf.
      change (encodeRawMessage (mkRawMessage None (x :: L) []) +:+ rest)
        with (String "l" ((encodeL_loop encodeRawMessage (x :: L) +:+ "e")
                          +:+ rest)).
      rewrite sapp_assoc. change ("e" +:+ rest) with (String "e" rest).
      rewrite decodeRawMessage_S. change (is_digit "l") with false.
      cbv iota. rewrite decide_False by done. rewrite decide_True by done.
      rewrite (decodeL_loop_encoded (decodeRawMessage fuel) (x :: L)).
      * done.
      * apply Forall_forall. intros x' Hin.
        assert (canonical x' = true) as Hcx.
        { rewrite forallb_forall in Hc. apply Hc. by apply list_elem_of_In. }
        rewrite Forall_forall in IHL.
        destruct (IHL x' Hin Hcx) as [Hdec Hhead]. split; [|done].
        intros rest'. apply Hdec.
        pose proof (need_le_sum need x' (x :: L) Hin). simpl in *. lia.
      * pose proof (length_le_sum need (x :: L) need_pos). simpl in *. lia.
Qed.

(** X1. For a canonical RawMessage, decoding what the encoder writes gives
    the RawMessage back, and what follows the encoding in the input is left
    unread. *)
Theorem decode_encode_canonical (m : RawMessage) :
  canonical m = true ->
  Decode (Encode m) = Ok m
  /\ forall rest fuel, (String.length (Encode m +:+ rest) < fuel)%nat ->
       decodeRawMessage fuel (Encode m +:+ rest) = Some (Ok (m, rest)).
Proof.
  intros Hc. destruct (canonical_decodes m Hc) as [Hdec _].
  assert (forall rest fuel,
            (String.length (Encode m +:+ rest) < fuel)%nat ->
            decodeRawMessage fuel (Encode m +:+ rest) = Some (Ok (m, rest)))
    as Hall.
  { intros rest fuel Hfuel.
    destruct (decodeRawMessage_progress fuel _ Hfuel) as (o & Ho & _).
    rewrite Ho. f_equal.
    apply (decodeRawMessage_mono fuel (max fuel (need m))) in Ho; [|lia].
    unfold Encode in Ho. rewrite Hdec in Ho by lia. congruence. }
  split; [|done]. unfold Decode.
  specialize (Hall ""%string (S (String.length (Encode m)))).
  rewrite sapp_nil_r in Hall. by rewrite Hall by lia.
Qed.

Lemma decode_encode_canonical_witness :
  Decode (Encode (dictRM [("n", podRM (PInt64 (-7)));
                          ("xs", listRM [podRM (PUint64 3);
                                         podRM (PString "spam")])]))
  = Ok (dictRM [("n", podRM (PInt64 (-7)));
                ("xs", listRM [podRM (PUint64 3); podRM (PString "spam")])])
  /\ forall rest fuel,
       (String.length
          (Encode (dictRM [("n", podRM (PInt64 (-7)));
                           ("xs", listRM [podRM (PUint64 3);
                                          podRM (PString "spam")])])
           +:+ rest) < fuel)%nat ->
       decodeRawMessage fuel
         (Encode (dictRM [("n", podRM (PInt64 (-7)));
                          ("xs", listRM [podRM (PUint64 3);
                                         podRM (PString "spam")])])
          +:+ rest)
       = Some (Ok (dictRM [("n", podRM (PInt64 (-7)));
                           ("xs", listRM [podRM (PUint64 3);
                                          podRM (PString "spam")])], rest)).
Proof.
  apply (decode_encode_canonical
           (dictRM [("n", podRM (PInt64 (-7)));
                    ("xs", listRM [podRM (PUint64 3);
                                   podRM (PString "spam")])])).
  reflexivity.
Defined.


(** * Properties, second part: beyond the documented behaviour *)

(** ** What the decoder returns *)

Lemma take_drop_string (n : nat) (s : string) : take n s +:+ drop n s = s.
Proof.
  revert s. induction n as [|n IH]; intros [|c s]; simpl; try done.
  by rewrite IH.
Qed.

Lemma length_take_string (n : nat) (s : string) :
  (n <= String.length s)%nat -> String.length (take n s) = n.
Proof.
  revert s. induction n as [|n IH]; intros [|c s]; simpl; try lia.
  intros H. rewrite IH; lia.
Qed.

Lemma ReadFull_app (s rest : string) :
  ReadFull (s +:+ rest) (String.length s) = Ok (s, rest).
Proof.
  unfold ReadFull. rewrite slength_app.
  rewrite (proj2 (Nat.leb_le _ _)) by lia.
  by rewrite take_sapp, drop_sapp.
Qed.

Lemma strBuf_inv (r : Reader) (s rest : string) :
  strBuf r = Ok (s, rest) ->
  strlen s <= maxAlloc
  /\ exists tok, r = tok +:+ String ":" (s +:+ rest)
       /\ forall rest', strBuf (tok +:+ String ":" (s +:+ rest'))
                        = Ok (s, rest').
Proof.
  unfold strBuf. destruct (intBuf r ":") as [[tok r1]| |] eqn:Hint;
    simpl; try discriminate.
  apply intBuf_alphabet in Hint as [Htok ->].
  destruct (strconv.ParseUint tok) as [l| |] eqn:Hl; simpl; try discriminate.
  pose proof (ParseUint_range _ _ Hl) as Hrange.
  destruct (maxAlloc <? l) eqn:Hmax; [discriminate |].
  pose proof Hmax as Hmax'. apply Z.ltb_ge in Hmax'. unfold ReadFull at 1.
  destruct (_ <=? _)%nat eqn:Hlen; [|by destruct r1].
  apply Nat.leb_le in Hlen. intros [= <- <-].
  assert (String.length (take (Z.to_nat l) r1) = Z.to_nat l) as Hs
    by (by apply length_take_string).
  split.
  - unfold strlen. rewrite Hs. lia.
  - exists tok. rewrite take_drop_string. split; [done |]. intros rest'.
    rewrite intBuf_app by done. simpl. rewrite Hl. simpl. rewrite Hmax.
    rewrite <- Hs at 2. apply ReadFull_app.
Qed.

Lemma ParseInt_minus_range (s : string) (i : Z) :
  strconv.ParseInt (String "-" s) = Ok i -> - 2 ^ 63 <= i <= 0.
Proof.
  rewrite ParseInt_minus.
  destruct (strconv.ParseUint s) as [un| |] eqn:Hun; try discriminate.
  apply ParseUint_range in Hun.
  destruct (2 ^ 63 <? un) eqn:Hlt; [discriminate |]. apply Z.ltb_ge in Hlt.
  intros [= <-]. unfold strconv.neg64, strconv.int64_of_uint64.
  destruct (un <? 2 ^ 63) eqn:Hlt'.
  - apply Z.ltb_lt in Hlt'.
    destruct (decide (un = 0)) as [->|]; [by compute |].
    rewrite Z.mod_small by lia. lia.
  - apply Z.ltb_ge in Hlt'. assert (un = 2 ^ 63) as -> by lia. by compute.
Qed.

Section decode_loops_inv.

Variable dec : Reader -> option (outcome (RawMessage * Reader)).
Hypothesis Hdec : readsFront dec.

Lemma decodeL_loop_inv (n : nat) (r : Reader) (L L' : list RawMessage)
    (rest : string) :
  decodeL_loop dec n r L = Some (Ok (L', rest)) ->
  forallb wellShaped L = true ->
  forallb wellShaped L' = true
  /\ exists used, r = used +:+ rest /\ used <> ""%string
       /\ forall rest',
            decodeL_loop dec n (used +:+ rest') L = Some (Ok (L', rest')).
Proof using Hdec.
  revert r L. induction n as [|n IH]; intros r L; simpl; [done |].
  destruct r as [|c r]; [done |]. rewrite isDelim_cons.
  destruct (decide (c = "e"%char)) as [->|Hc].
  - intros [= <- <-] HL. split; [done |]. exists "e"%string.
    split; [done |]. split; [done |]. intros rest'.
    change ("e" +:+ rest')%string with (String "e" rest').
    cbn [decodeL_loop]. by rewrite isDelim_cons, decide_True.
  - destruct (dec (String c r)) as [[[ln r2]| |]|] eqn:Hln; try done.
    destruct (Hdec _ _ _ Hln) as (Hws & used & Hr & Hused & Hloc).
    intros Hloop HL.
    destruct (IH r2 (L ++ [ln]) Hloop) as (HL' & used' & -> & _ & Hloc').
    { rewrite forallb_app, HL. simpl. by rewrite Hws. }
    split; [done |]. exists (used +:+ used'). rewrite Hr, sapp_assoc.
    split; [done |]. split; [by destruct used |]. intros rest'.
    destruct used as [|c0 u0]; [done |]. simpl in Hr. injection Hr as <- _.
    rewrite sapp_assoc. change (String c u0 +:+ ?x) with (String c (u0 +:+ x)).
    rewrite isDelim_cons, decide_False by done.
    change (String c (u0 +:+ ?x)) with (String c u0 +:+ x).
    by rewrite Hloc, Hloc'.
Qed.

Lemma decodeD_loop_inv (n : nat) (r : Reader) (D D' : list KV)
    (rest : string) :
  let ok := fun kv : KV =>
    (strlen (fst kv) <=? maxAlloc) && wellShaped (snd kv) in
  decodeD_loop dec n r D = Some (Ok (D', rest)) ->
  forallb ok D = true ->
  forallb ok D' = true
  /\ exists used, r = used +:+ rest /\ used <> ""%string
       /\ forall rest',
            decodeD_loop dec n (used +:+ rest') D = Some (Ok (D', rest')).
Proof using Hdec.
  intros ok. revert r D. induction n as [|n IH]; intros r D; simpl; [done |].
  destruct r as [|c r]; [done |]. rewrite isDelim_cons.
  destruct (decide (c = "e"%char)) as [->|Hc].
  - intros [= <- <-] HD. split; [done |]. exists "e"%string.
    split; [done |]. split; [done |]. intros rest'.
    change ("e" +:+ rest')%string with (String "e" rest').
    cbn [decodeD_loop]. by rewrite isDelim_cons, decide_True.
  - destruct (dec (String c r)) as [[[k r2]| |]|] eqn:Hk; try done.
    destruct (Hdec _ _ _ Hk) as (Hwk & used & Hr & Hused & Hloc).
    destruct (dec r2) as [[[v r3]| |]|] eqn:Hv; try done.
    destruct (Hdec _ _ _ Hv) as (Hwv & used2 & -> & _ & Hloc2).
    destruct k as [[[| |key|]|] kL kD]; try done. simpl.
    intros Hloop HD.
    destruct (IH r3 (D ++ [(key, v)]) Hloop) as (HD' & used' & -> & _ & Hloc').
    { rewrite forallb_app, HD. unfold ok. simpl. rewrite Hwv.
      destruct kL, kD; try done. simpl in Hwk. by rewrite Hwk. }
    split; [done |]. exists (used +:+ used2 +:+ used').
    rewrite Hr, !sapp_assoc. split; [done |].
    split; [by destruct used |]. intros rest'.
    destruct used as [|c0 u0]; [done |]. simpl in Hr. injection Hr as <- _.
    rewrite !sapp_assoc.
    change (String c u0 +:+ ?x) with (String c (u0 +:+ x)).
    rewrite isDelim_cons, decide_False by done.
    change (String c (u0 +:+ ?x)) with (String c u0 +:+ x).
    rewrite Hloc, Hloc2. simpl. apply Hloc'.
Qed.

End decode_loops_inv.

Lemma decodeRawMessage_readsFront (fuel : nat) :
  readsFront (decodeRawMessage fuel).
Proof.
  induction fuel as [|fuel IH]; intros r m rest; [done |].
  destruct r as [|c r1]; [done |]. rewrite decodeRawMessage_S.
  destruct (is_digit c) eqn:Hdig.
  { destruct (strBuf (String c r1)) as [[s r2]| |] eqn:Hs; try done.
    intros Heq. simpl in Heq. injection Heq as <- <-.
    apply strBuf_inv in Hs as (Hlen & tok & Hr & Hloc). split.
    - simpl. by apply Z.leb_le.
    - exists (tok +:+ String ":" s).
      assert (forall x, (tok +:+ String ":" s) +:+ x
                        = tok +:+ String ":" (s +:+ x)) as Hassoc
        by (intros x; by rewrite sapp_assoc).
      rewrite Hassoc. split; [done |]. split; [by destruct tok |].
      intros rest'. rewrite Hassoc.
      assert (exists t, tok +:+ String ":" (s +:+ rest')
                        = String c t) as [t Ht].
      { destruct tok as [|c0 tok]; simpl in *.
        - injection Hr as -> _. by eexists.
        - injection Hr as -> _. by eexists. }
      pose proof (Hloc rest') as Hloc'. rewrite Ht in *.
      rewrite decodeRawMessage_S, Hdig. unfold UnreadByte.
      by rewrite Hloc'. }
  destruct (decide (c = "i"%char)) as [->|Hi].
  { destruct (intBuf r1 "e") as [[tok r2]| |] eqn:Hint; try done.
    apply intBuf_alphabet in Hint as [Htok ->].
    destruct tok as [|c0 tok]; [done |].
    assert (forall o,
      decodeRawMessage (S fuel) (String "i" (String c0 tok +:+ "e") +:+ o)
      = Some (if decide (c0 = "-"%char)
              then i ← strconv.ParseInt (String c0 tok);
                   Ok (podRM (PInt64 i), o)
              else u ← strconv.ParseUint (String c0 tok);
                   Ok (podRM (PUint64 u), o))) as Hloc.
    { intros o. change (String "i" ?x +:+ o) with (String "i" (x +:+ o)).
      rewrite decodeRawMessage_S, Hdig. rewrite decide_True by done.
      rewrite sapp_assoc.
      change ("e" +:+ o)%string with (String "e" o).
      by rewrite intBuf_app. }
    assert (String "i" (String c0 tok +:+ String "e" r2)
            = String "i" (String c0 tok +:+ "e") +:+ r2) as Hr.
    { change (String "i" ?x +:+ r2) with (String "i" (x +:+ r2)).
      by rewrite sapp_assoc. }
    cbn [mbind outcome_bind].
    destruct (decide (c0 = "-"%char)) as [->|Hc0].
    - destruct (strconv.ParseInt _) as [i| |] eqn:Hp; try done.
      intros Heq. cbn [mbind outcome_bind] in Heq.
      injection Heq as <- <-. split.
      + apply ParseInt_minus_range in Hp. cbn [wellShaped podRM].
        apply andb_true_intro. split; apply Z.leb_le; lia.
      + eexists. split; [exact Hr |]. split; [done |]. intros rest'.
        by rewrite Hloc.
    - destruct (strconv.ParseUint _) as [u| |] eqn:Hp; try done.
      intros Heq. cbn [mbind outcome_bind] in Heq.
      injection Heq as <- <-. split.
      + apply ParseUint_range in Hp. cbn [wellShaped podRM].
        apply andb_true_intro. split; [apply Z.leb_le | apply Z.ltb_lt]; lia.
      + eexists. split; [exact Hr |]. split; [done |]. intros rest'.
        by rewrite Hloc. }
  destruct (decide (c = "l"%char)) as [->|Hl].
  { destruct (decodeL_loop _ fuel r1 []) as [[[L r2]| |]|] eqn:HL; try done.
    intros Heq. simpl in Heq. injection Heq as <- <-.
    destruct (decodeL_loop_inv _ IH _ _ _ _ _ HL eq_refl)
      as (Hws & used & -> & _ & Hloc).
    split; [by destruct L |]. exists (String "l" used).
    split; [done |]. split; [done |]. intros rest'.
    change (String "l" used +:+ rest') with (String "l" (used +:+ rest')).
    rewrite decodeRawMessage_S. simpl is_digit. cbv iota.
    rewrite decide_False by done. rewrite decide_True by done.
    by rewrite Hloc. }
  destruct (decide (c = "d"%char)) as [->|Hd]; [|done].
  destruct (decodeD_loop _ fuel r1 []) as [[[D r2]| |]|] eqn:HD; try done.
  intros Heq. simpl in Heq. injection Heq as <- <-.
  destruct (decodeD_loop_inv _ IH _ _ _ _ _ HD eq_refl)
    as (Hws & used & -> & _ & Hloc).
  split; [by destruct D |]. exists (String "d" used).
  split; [done |]. split; [done |]. intros rest'.
  change (String "d" used +:+ rest') with (String "d" (used +:+ rest')).
  rewrite decodeRawMessage_S. simpl is_digit. cbv iota.
  do 2 rewrite decide_False by done. rewrite decide_True by done.
  by rewrite Hloc.
Qed.

(** X2. A value returned by [Decode] has at most one of [POD], [L] and [D]
    set; its [int64]s are not positive (they come from tokens that start
    with ['-']), its [uint64]s are below [2^64], and its strings and keys
    are at most [maxAlloc] bytes long; and so on for the values inside. *)
Theorem decode_well_shaped (b : string) (m : RawMessage) :
  Decode b = Ok m -> wellShaped m = true.
Proof.
  unfold Decode.
  destruct (decodeRawMessage _ b) as [[[m' rest]| |]|] eqn:Hdec; try done.
  intros [= <-]. by destruct (decodeRawMessage_readsFront _ _ _ _ Hdec).
Qed.

Lemma decode_well_shaped_witness :
  wellShaped (dictRM [("a"%string, listRM [podRM (PInt64 (-3))])]) = true.
Proof.
  apply (decode_well_shaped "d1:ali-3eee"). vm_compute. reflexivity.
Defined.

(** X3. [Decode] reads one value off the front of its input, at least one
    byte, and nothing after these bytes has a part in the result: with
    anything else behind them the same value is returned. *)
Theorem decode_ignores_what_follows (b : string) (m : RawMessage) :
  Decode b = Ok m ->
  exists used rest,
    b = used +:+ rest /\ used <> ""%string
    /\ forall rest', Decode (used +:+ rest') = Ok m.
Proof.
  unfold Decode.
  destruct (decodeRawMessage _ b) as [[[m' rest]| |]|] eqn:Hdec; try done.
  intros [= <-].
  destruct (decodeRawMessage_readsFront _ _ _ _ Hdec)
    as (_ & used & -> & Hused & Hloc).
  exists used, rest. split; [done |]. split; [done |]. intros rest'.
  specialize (Hloc rest').
  destruct (decodeRawMessage (S (String.length (used +:+ rest'))) _)
    as [o|] eqn:Ho; [|by apply decode_fuel_enough in Ho].
  destruct (Nat.le_ge_cases (S (String.length (used +:+ rest')))
              (S (String.length (used +:+ rest)))) as [Hle|Hle].
  - apply (decodeRawMessage_mono _ _ _ _ Hle) in Ho.
    rewrite Hloc in Ho. by injection Ho as <-.
  - apply (decodeRawMessage_mono _ _ _ _ Hle) in Hloc.
    rewrite Hloc in Ho. by injection Ho as <-.
Qed.

Lemma decode_ignores_what_follows_witness :
  exists used rest,
    "i42e, and more"%string = used +:+ rest /\ used <> ""%string
    /\ forall rest', Decode (used +:+ rest') = Ok (podRM (PUint64 42)).
Proof.
  apply (decode_ignores_what_follows "i42e, and more"). vm_compute.
  reflexivity.
Defined.

(** ** How the decoder fails *)

Lemma intBuf_loop_outcome (r : Reader) (delim : ascii) (buf : string) :
  decoderOutcome (intBuf_loop r delim buf).
Proof.
  revert buf. induction r as [|c r IH]; intros buf; simpl; [done |].
  destruct (decide (c = delim)); [done |].
  destruct (negb _); [done | apply IH].
Qed.

Lemma digits_outcome (base : Z) (s : string) (n : Z) :
  decoderOutcome (strconv.digits base s n).
Proof.
  revert n. induction s as [|c s IH]; intros n; simpl; [done |].
  destruct (negb (is_digit c)); [done |].
  destruct (base <=? _); [done |].
  destruct (_ <=? n); [done |].
  destruct (_ || _); [done | apply IH].
Qed.

Lemma ParseUint_outcome (s : string) : decoderOutcome (strconv.ParseUint s).
Proof.
  destruct s as [|c s]; [done |]. unfold strconv.ParseUint.
  destruct c as [[] [] [] [] [] [] [] []]; apply digits_outcome.
Qed.

Lemma ParseInt_outcome (s : string) : decoderOutcome (strconv.ParseInt s).
Proof.
  destruct s as [|c s]; [done |]. unfold strconv.ParseInt.
  set (body := if decide (c = "+"%char) then _ else _).
  pose proof (ParseUint_outcome body) as Hbody.
  destruct (strconv.ParseUint body) as [un|e|p]; [|by destruct e |done].
  destruct (_ && _); [done |]. by destruct (_ && _).
Qed.

Lemma strBuf_outcome (r : Reader) : decoderOutcome (strBuf r).
Proof.
  unfold strBuf. pose proof (intBuf_loop_outcome r ":" "") as Hint.
  unfold intBuf. destruct (intBuf_loop r ":" "") as [[tok r1]| |]; try done.
  simpl. pose proof (ParseUint_outcome tok) as Hl.
  destruct (strconv.ParseUint tok) as [l| |]; try done. simpl.
  destruct (maxAlloc <? l); [done |]. unfold ReadFull.
  destruct (_ <=? _)%nat; [done |]. by destruct r1.
Qed.

Section decode_loops_outcome.

Variable dec : Reader -> option (outcome (RawMessage * Reader)).
Hypothesis Hdec : forall r o, dec r = Some o -> decoderOutcome o.

Lemma decodeL_loop_outcome (n : nat) (r : Reader) (L : list RawMessage) o :
  decodeL_loop dec n r L = Some o -> decoderOutcome o.
Proof using Hdec.
  revert r L. induction n as [|n IH]; intros r L; simpl; [done |].
  destruct r as [|c r]; [by intros [= <-] |]. rewrite isDelim_cons.
  destruct (decide (c = "e"%char)) as [->|Hc]; [by intros [= <-] |].
  destruct (dec (String c r)) as [[[ln r2]|e|p]|] eqn:Hln; try done.
  - apply IH.
  - intros [= <-]. apply (Hdec _ _ Hln).
  - intros [= <-]. apply (Hdec _ _ Hln).
Qed.

Lemma decodeD_loop_outcome (n : nat) (r : Reader) (D : list KV) o :
  decodeD_loop dec n r D = Some o -> decoderOutcome o.
Proof using Hdec.
  revert r D. induction n as [|n IH]; intros r D; simpl; [done |].
  destruct r as [|c r]; [by intros [= <-] |]. rewrite isDelim_cons.
  destruct (decide (c = "e"%char)) as [->|Hc]; [by intros [= <-] |].
  destruct (dec (String c r)) as [[[k r2]|e|p]|] eqn:Hk; try done.
  - destruct (dec r2) as [[[v r3]|e|p]|] eqn:Hv; try done.
    + destruct (rmPOD k) as [[| |key|]|]; try (by intros [= <-]). apply IH.
    + intros [= <-]. apply (Hdec _ _ Hv).
    + intros [= <-]. apply (Hdec _ _ Hv).
  - intros [= <-]. apply (Hdec _ _ Hk).
  - intros [= <-]. apply (Hdec _ _ Hk).
Qed.

End decode_loops_outcome.

Lemma decodeRawMessage_outcome (fuel : nat) (r : Reader) o :
  decodeRawMessage fuel r = Some o -> decoderOutcome o.
Proof.
  revert r o. induction fuel as [|fuel IH]; intros r o; [done |].
  destruct r as [|c r1]; [by intros [= <-] |]. rewrite decodeRawMessage_S.
  destruct (is_digit c) eqn:Hdig.
  { intros [= <-]. pose proof (strBuf_outcome (String c r1)) as Hs.
    by destruct (strBuf _) as [[s r2]| |]. }
  destruct (decide (c = "i"%char)) as [->|Hi].
  { intros [= <-]. pose proof (intBuf_loop_outcome r1 "e" "") as Hint.
    unfold intBuf. destruct (intBuf_loop r1 "e" "") as [[tok r2]| |]; try done.
    cbn [mbind outcome_bind]. destruct tok as [|c0 tok]; [done |].
    destruct (decide (c0 = "-"%char)).
    - pose proof (ParseInt_outcome (String c0 tok)) as Hp.
      by destruct (strconv.ParseInt _).
    - pose proof (ParseUint_outcome (String c0 tok)) as Hp.
      by destruct (strconv.ParseUint _). }
  destruct (decide (c = "l"%char)) as [->|Hl].
  { destruct (decodeL_loop _ fuel r1 []) as [o'|] eqn:HL; [|done].
    intros [= <-]. apply (decodeL_loop_outcome _ IH) in HL.
    by destruct o' as [[L r2]| |]. }
  destruct (decide (c = "d"%char)) as [->|Hd].
  { destruct (decodeD_loop _ fuel r1 []) as [o'|] eqn:HD; [|done].
    intros [= <-]. apply (decodeD_loop_outcome _ IH) in HD.
    by destruct o' as [[D r2]| |]. }
  intros [= <-]. simpl. rewrite Hdig. simpl.
  by rewrite !bool_decide_eq_false_2.
Qed.

(** X4. [Decode] fails in nine ways only.  Its errors are the reader's end
    of input (plain, or unexpected inside a string), a byte that is not a
    digit inside a number, a number [strconv] rejects (syntax or range) and
    a first byte that is no digit and none of ['i'], ['l'], ['d']; its
    faults are the index into an empty number token, the assertion on a key
    that is not a string, and the allocation of a string that is too
    long. *)
Theorem decode_outcomes (b : string) : decoderOutcome (Decode b).
Proof.
  unfold Decode.
  destruct (decodeRawMessage _ b) as [o|] eqn:Hdec; [|done].
  apply decodeRawMessage_outcome in Hdec. by destruct o as [[m rest]| |].
Qed.

(** ** The encoder and the decoder, together *)

(** X5. What the encoder writes can be read in one way only: when the
    encodings of two canonical RawMessages, each followed by anything, are
    the same bytes, the RawMessages are the same and so is what follows.
    No encoding is the beginning of another, and [Encode] is injective. *)
Theorem encode_unique_parse (a b : RawMessage) (ra rb : string) :
  canonical a = true -> canonical b = true ->
  Encode a +:+ ra = Encode b +:+ rb -> a = b /\ ra = rb.
Proof.
  intros Ha Hb Heq. unfold Encode in Heq.
  destruct (canonical_decodes a Ha) as [Hda _].
  destruct (canonical_decodes b Hb) as [Hdb _].
  specialize (Hda (max (need a) (need b)) ra (Nat.le_max_l _ _)).
  specialize (Hdb (max (need a) (need b)) rb (Nat.le_max_r _ _)).
  rewrite Heq, Hdb in Hda. by injection Hda as <- <-.
Qed.

Lemma encode_unique_parse_witness :
  listRM [podRM (PString "ab")] = listRM [podRM (PString "ab")]
  /\ "i1e"%string = "i1e"%string.
Proof.
  apply (encode_unique_parse (listRM [podRM (PString "ab")])
           (listRM [podRM (PString "ab")]) "i1e" "i1e");
    vm_compute; reflexivity.
Defined.

(** X6. [intBuf] returns a token exactly when the input is that token, made
    of ['-'] and digits only, followed by the delimiter; the reader is left
    behind the delimiter.  (The two delimiters of the package, [':'] and
    ['e'], are not token bytes.) *)
Theorem intBuf_spec (r : Reader) (delim : ascii) (tok rest : string) :
  tokenByte delim = false ->
  intBuf r delim = Ok (tok, rest)
  <-> r = tok +:+ String delim rest /\ tokenBytes tok = true.
Proof.
  intros Hd. split.
  - intros H. destruct (intBuf_loop_inv _ _ _ _ _ H) as (t & -> & -> & Ht).
    by simpl.
  - intros [-> Htok]. unfold intBuf. by rewrite intBuf_loop_app.
Qed.

Lemma intBuf_spec_witness :
  intBuf "-12:rest" ":" = Ok ("-12"%string, "rest"%string)
  <-> "-12:rest"%string = "-12" +:+ String ":" "rest"
      /\ tokenBytes "-12" = true.
Proof. apply (intBuf_spec "-12:rest" ":" "-12" "rest"). reflexivity. Defined.

(** ** Input that ends too early *)

Lemma sapp_eq_sapp (x y p q : string) :
  x +:+ y = p +:+ q ->
  (exists z, p = x +:+ z /\ y = z +:+ q)
  \/ (exists z, z <> ""%string /\ x = p +:+ z /\ q = z +:+ y).
Proof.
  revert p. induction x as [|c x IH]; intros p H.
  - left. by exists p.
  - destruct p as [|c' p].
    + right. by exists (String c x).
    + simpl in H. injection H as <- H.
      destruct (IH p H) as [(z & -> & ->)|(z & Hz & -> & ->)].
      * left. by exists z.
      * right. by exists z.
Qed.

Lemma intBuf_loop_eof (t : string) (delim : ascii) (buf : string) :
  tokenBytes t = true -> tokenByte delim = false ->
  intBuf_loop t delim buf = Err EOF.
Proof.
  intros Ht Hd. revert buf Ht.
  induction t as [|c t IH]; intros buf Ht; simpl in *; [done |].
  apply andb_prop in Ht as [Hc Ht].
  rewrite decide_False by (intros ->; congruence).
  unfold tokenByte in Hc. rewrite Hc. simpl. by apply IH.
Qed.

Lemma FormatUint_tokenBytes (u : Z) :
  0 <= u -> tokenBytes (strconv.FormatUint u) = true.
Proof. intros Hu. by apply fmtDigits_tokenBytes. Qed.

Lemma FormatInt_tokenBytes (i : Z) :
  tokenBytes (strconv.FormatInt i) = true.
Proof.
  unfold strconv.FormatInt. destruct (i <? 0) eqn:Hi.
  - apply Z.ltb_lt in Hi. simpl. apply FormatUint_tokenBytes. lia.
  - apply Z.ltb_ge in Hi. by apply FormatUint_tokenBytes.
Qed.

Lemma strBuf_truncated (s p q : string) :
  strlen s <= maxAlloc ->
  encodePOD (PString s) = p +:+ q -> q <> ""%string ->
  strBuf p = Err EOF \/ strBuf p = Err ErrUnexpectedEOF.
Proof.
  intros Hlen Heq Hq. pose proof (strlen_bound s) as Hpos.
  assert (0 <= strlen s < 2 ^ 64) as Hu by (unfold maxAlloc in Hlen; lia).
  pose proof (FormatUint_tokenBytes (strlen s) Hpos) as Htok.
  cbn [encodePOD] in Heq.
  change (":" +:+ s)%string with (String ":" s) in Heq.
  destruct (sapp_eq_sapp _ _ _ _ Heq) as [(z & -> & Hz)|(z & _ & Hz & _)].
  - destruct z as [|c z].
    + left. rewrite sapp_nil_r. unfold strBuf, intBuf.
      by rewrite intBuf_loop_eof.
    + simpl in Hz. injection Hz as <- ->. unfold strBuf.
      rewrite intBuf_app by done. cbn [mbind outcome_bind].
      rewrite ParseUint_FormatUint by done. cbn [mbind outcome_bind].
      rewrite (proj2 (Z.ltb_ge _ _)) by lia.
      unfold ReadFull, strlen. rewrite Nat2Z.id, slength_app.
      assert (0 < String.length q)%nat by (destruct q; [done | simpl; lia]).
      rewrite (proj2 (Nat.leb_gt _ _)) by lia.
      destruct z; [by left | by right].
  - left. rewrite Hz, tokenBytes_sapp in Htok.
    apply andb_prop in Htok as [Hp _]. unfold strBuf, intBuf.
    by rewrite intBuf_loop_eof.
Qed.

Lemma decode_string_truncated (fuel : nat) (s p q : string) :
  strlen s <= maxAlloc ->
  encodePOD (PString s) = p +:+ q -> q <> ""%string ->
  cutShort (decodeRawMessage (S fuel) p).
Proof.
  intros Hlen Heq Hq. destruct p as [|c p]; [by left |].
  destruct (encodePOD_string_head s Hlen) as (c' & t & Hct & Hdig).
  rewrite Hct in Heq. simpl in Heq. injection Heq as -> Ht.
  rewrite decodeRawMessage_S, Hdig.
  destruct (strBuf_truncated s (String c p) q Hlen) as [H|H];
    [by rewrite Hct; simpl; rewrite Ht | done | |]; rewrite H.
  - by left.
  - by right.
Qed.

Lemma decode_number_truncated (fuel : nat) (tok p q : string) :
  tokenBytes tok = true ->
  "i" +:+ tok +:+ "e" = p +:+ q -> q <> ""%string ->
  cutShort (decodeRawMessage (S fuel) p).
Proof.
  intros Htok Heq Hq. destruct p as [|c p]; [by left |].
  simpl in Heq. injection Heq as <- Heq.
  assert (tokenBytes p = true) as Hp.
  { destruct (sapp_eq_sapp _ _ _ _ Heq) as [(z & -> & Hz)|(z & _ & Hz & _)].
    - destruct z as [|c z]; [by rewrite sapp_nil_r |].
      simpl in Hz. injection Hz as _ Hz. by destruct z, q.
    - rewrite Hz, tokenBytes_sapp in Htok.
      by apply andb_prop in Htok as [Hp _]. }
  rewrite decodeRawMessage_S. change (is_digit "i") with false. cbv iota.
  rewrite decide_True by done. unfold intBuf.
  rewrite intBuf_loop_eof by done. by left.
Qed.

Section decode_loops_truncated.

Variable dec : Reader -> option (outcome (RawMessage * Reader)).
Let enc := encodeRawMessage.

Lemma decodeL_loop_truncated (xs : list RawMessage) :
  Forall (fun x => givesBack dec x /\ cutsShort dec x) xs ->
  forall (n : nat) (L : list RawMessage) (p q : string),
    (length xs < n)%nat ->
    encodeL_loop enc xs +:+ "e" = p +:+ q -> q <> ""%string ->
    cutShort (decodeL_loop dec n p L).
Proof.
  induction 1 as [|x xs [[Hx Hhead] Hcut] _ IH]; intros [|n] L p q Hn Heq Hq;
    try (simpl in Hn; lia).
  - destruct p as [|c p]; [by left |].
    simpl in Heq. injection Heq as _ Heq. by destruct p, q.
  - cbn [encodeL_loop] in Heq. rewrite sapp_assoc in Heq.
    destruct (sapp_eq_sapp _ _ _ _ Heq) as [(z & -> & Hz)|(z & Hne & Hz & _)].
    + cbn [decodeL_loop]. rewrite isDelim_headNotE by done. rewrite Hx.
      apply (IH n _ z q); [simpl in Hn; lia | done | done].
    + destruct p as [|c p]; [by left |].
      destruct Hhead as (c0 & t & Ht & Hc0). unfold enc in Hz.
      rewrite Ht in Hz. simpl in Hz. injection Hz as -> Hz.
      cbn [decodeL_loop]. rewrite isDelim_cons, decide_False by done.
      destruct (Hcut (String c p) z) as [H|H];
        [by rewrite Ht; simpl; rewrite Hz | done | |]; rewrite H.
      * by left.
      * by right.
Qed.

Lemma decodeD_loop_truncated (d : list KV) :
  (forall k rest, strlen k <= maxAlloc ->
     dec (encodePOD (PString k) +:+ rest)
     = Some (Ok (podRM (PString k), rest))) ->
  (forall k p q, strlen k <= maxAlloc ->
     encodePOD (PString k) = p +:+ q -> q <> ""%string -> cutShort (dec p)) ->
  Forall (fun kv : KV =>
            strlen (fst kv) <= maxAlloc
            /\ givesBack dec (snd kv) /\ cutsShort dec (snd kv)) d ->
  forall (n : nat) (D : list KV) (p q : string),
    (length d < n)%nat ->
    encodeD_loop enc d +:+ "e" = p +:+ q -> q <> ""%string ->
    cutShort (decodeD_loop dec n p D).
Proof.
  intros Hkey Hkeycut.
  induction 1 as [|[k v] d (Hk & [Hv Hhead] & Hcut) _ IH];
    intros [|n] D p q Hn Heq Hq; try (simpl in Hn; lia).
  - destruct p as [|c p]; [by left |].
    simpl in Heq. injection Heq as _ Heq. by destruct p, q.
  - cbn [encodeD_loop fst snd] in *. rewrite !sapp_assoc in Heq.
    destruct (sapp_eq_sapp _ _ _ _ Heq) as [(z & -> & Hz)|(z & Hne & Hz & _)].
    + cbn [decodeD_loop].
      rewrite isDelim_headNotE by by apply headNotE_string.
      rewrite Hkey by done.
      destruct (sapp_eq_sapp _ _ _ _ Hz)
        as [(z' & -> & Hz')|(z' & Hne' & Hz' & _)].
      * rewrite Hv. cbn [rmPOD podRM].
        apply (IH n _ z' q); [simpl in Hn; lia | done | done].
      * destruct (Hcut z z') as [H|H]; [done | done | |]; rewrite H.
        -- by left.
        -- by right.
    + destruct p as [|c p]; [by left |].
      destruct (headNotE_string k Hk) as (c0 & t & Ht & Hc0).
      rewrite Ht in Hz. simpl in Hz. injection Hz as -> Hz.
      cbn [decodeD_loop]. rewrite isDelim_cons, decide_False by done.
      destruct (Hkeycut k (String c p) z) as [H|H];
        [done | by rewrite Ht; simpl; rewrite Hz | done | |]; rewrite H.
      * by left.
      * by right.
Qed.

End decode_loops_truncated.

Lemma canonical_truncated (m : RawMessage) :
  canonical m = true ->
  forall fuel, (need m <= fuel)%nat -> cutsShort (decodeRawMessage fuel) m.
Proof.
  induction m as [POD L D IHL IHD] using RawMessage_ind'. intros Hc.
  destruct POD as [[i|u|s|k]|]; cbn [canonical] in Hc.
  - destruct L, D; try discriminate.
    intros [|fuel] Hf p q Heq Hq; [simpl in Hf; lia |].
    apply (decode_number_truncated fuel (strconv.FormatInt i) p q);
      [apply FormatInt_tokenBytes | done | done].
  - destruct L, D; try discriminate.
    apply andb_prop in Hc as [?%Z.leb_le ?%Z.ltb_lt].
    intros [|fuel] Hf p q Heq Hq; [simpl in Hf; lia |].
    apply (decode_number_truncated fuel (strconv.FormatUint u) p q);
      [by apply FormatUint_tokenBytes | done | done].
  - destruct L, D; try discriminate. apply Z.leb_le in Hc.
    intros [|fuel] Hf p q Heq Hq; [simpl in Hf; lia |].
    by apply (decode_string_truncated fuel s p q).
  - by destruct L, D.
  - destruct L as [|x L], D as [|kv D]; try discriminate.
    + (* a dict *)
      intros [|fuel] Hf p q Heq Hq; [simpl in Hf; lia |].
      cbn [need map list_sum] in Hf.
      destruct p as [|c p]; [by left |].
      change (encodeRawMessage (mkRawMessage None [] (kv :: D)))
        with (String "d" (encodeD_loop encodeRawMessage (kv :: D) +:+ "e"))
        in Heq.
      simpl in Heq. injection Heq as <- Heq.
      rewrite decodeRawMessage_S. change (is_digit "d") with false.
      cbv iota. rewrite decide_False by done. rewrite decide_False by done.
      rewrite decide_True by done.
      destruct (decodeD_loop_truncated (decodeRawMessage fuel) (kv :: D))
        with (n := fuel) (D := @nil KV) (p := p) (q := q) as [H|H];
        try done.
      * intros k rest' Hk. destruct fuel; [lia |]. by apply decode_string.
      * intros k p' q' Hk. destruct fuel; [lia |].
        by apply decode_string_truncated.
      * apply Forall_forall. intros kv' Hin.
        assert ((strlen (fst kv') <=? maxAlloc) && canonical (snd kv') = true)
          as [Hk%Z.leb_le Hcv]%andb_prop.
        { rewrite forallb_forall in Hc. apply Hc. by apply list_elem_of_In. }
        split; [done |]. rewrite Forall_forall in IHD.
        pose proof (need_le_sum (fun kv : KV => need (snd kv)) kv'
                      (kv :: D) Hin) as Hneed.
        destruct (canonical_decodes (snd kv') Hcv) as [Hdec Hhead].
        split; [split; [|done] |].
        -- intros rest'. apply Hdec. simpl in *. lia.
        -- apply (IHD kv' Hin Hcv). simpl in *. lia.
      * pose proof (length_le_sum (fun kv : KV => need (snd kv)) (kv :: D)
                      (fun kv => need_pos (snd kv))). simpl in *. lia.
      * rewrite H. by left.
      * rewrite H. by right.
    + (* a list *)
      intros [|fuel] Hf p q Heq Hq; [simpl in Hf; lia |].
      cbn [need map list_sum] in Hf.
      destruct p as [|c p]; [by left |].
      change (encodeRawMessage (mkRawMessage None (x :: L) []))
        with (String "l" (encodeL_loop encodeRawMessage (x :: L) +:+ "e"))
        in Heq.
      simpl in Heq. injection Heq as <- Heq.
      rewrite decodeRawMessage_S. change (is_digit "l") with false.
      cbv iota. rewrite decide_False by done. rewrite decide_True by done.
      destruct (decodeL_loop_truncated (decodeRawMessage fuel) (x :: L))
        with (n := fuel) (L := @nil RawMessage) (p := p) (q := q) as [H|H];
        try done.
      * apply Forall_forall. intros x' Hin.
        assert (canonical x' = true) as Hcx.
        { rewrite forallb_forall in Hc. apply Hc. by apply list_elem_of_In. }
        rewrite Forall_forall in IHL.
        pose proof (need_le_sum need x' (x :: L) Hin) as Hneed.
        destruct (canonical_decodes x' Hcx) as [Hdec Hhead].
        split; [split; [|done] |].
        -- intros rest'. apply Hdec. simpl in *. lia.
        -- apply (IHL x' Hin Hcx). simpl in *. lia.
      * pose proof (length_le_sum need (x :: L) need_pos). simpl in *. lia.
      * rewrite H. by left.
      * rewrite H. by right.
Qed.

(** X7. Input that ends too early is an error, never a value and never a
    fault: on every beginning of the encoding of a canonical RawMessage
    that is not all of it, [Decode] returns the reader's end of input,
    [io.EOF] or [io.ErrUnexpectedEOF]. *)
Theorem decode_cut_short (m : RawMessage) (p q : string) :
  canonical m = true -> Encode m = p +:+ q -> q <> ""%string ->
  Decode p = Err EOF \/ Decode p = Err ErrUnexpectedEOF.
Proof.
  intros Hc Heq Hq. unfold Decode.
  destruct (decodeRawMessage (S (String.length p)) p) as [o|] eqn:Ho;
    [|by apply decode_fuel_enough in Ho].
  apply (decodeRawMessage_mono _ (max (S (String.length p)) (need m)))
    in Ho; [|lia].
  destruct (canonical_truncated m Hc (max (S (String.length p)) (need m))
              (Nat.le_max_r _ _) p q Heq Hq) as [H|H];
    rewrite H in Ho; injection Ho as <-; [by left | by right].
Qed.

Lemma decode_cut_short_witness :
  Decode "l4:sp" = Err EOF \/ Decode "l4:sp" = Err ErrUnexpectedEOF.
Proof.
  apply (decode_cut_short (listRM [podRM (PString "spam")]) "l4:sp" "ame");
    [reflexivity | reflexivity | discriminate].
Defined.

(** ** More on the projector *)

Lemma marshalList_loop_error mk (kind : Kind) (xs : list value)
    (L : list RawMessage) (e : error) :
  Forall (fun x => forall k e, mk k x = Err e -> projectorError e = true) xs ->
  marshalList_loop mk kind xs L = Err e -> projectorError e = true.
Proof.
  intros Hxs. revert L.
  induction Hxs as [|x xs Hx _ IH]; intros L; simpl; [done |].
  destruct (mk kind x) as [m|e'|p] eqn:Hm; simpl; [apply IH | |done].
  intros [= <-]. by apply (Hx kind).
Qed.

Lemma marshalDict_loop_error mk (fs : list (StructField * value))
    (D : list KV) (e : error) :
  Forall (fun fv => forall k e, mk k (snd fv) = Err e ->
                      projectorError e = true) fs ->
  marshalDict_loop mk fs D = Err e -> projectorError e = true.
Proof.
  intros Hfs. revert D.
  induction Hfs as [|[sf fv] fs Hfv _ IH]; intros D; simpl; [done |].
  destruct (exported sf); simpl; [|apply IH].
  destruct (mk _ fv) as [m|e'|p] eqn:Hm; simpl; [apply IH | |done].
  intros [= <-]. by apply (Hfv _ _ Hm).
Qed.

Lemma marshalKind_error (v : value) :
  (forall kind e, marshalKind kind v = Err e -> projectorError e = true)
  /\ forall name fs, v = VStruct name fs ->
       forall D e, marshalDict_loop marshalKind fs D = Err e ->
         projectorError e = true.
Proof.
  induction v as [i|u|s|n bits|elem xs IH|elem|elem target IH
                 |key elem entries|name fields IH|m] using value_ind';
    (split; [|try discriminate]);
    try (intros kind e; rewrite marshalKind_eq; by destruct kind).
  - (* sequence *)
    intros kind e. rewrite marshalKind_eq.
    destruct kind; try done. unfold marshalList, marshalList_with.
    destruct (_ =? _)%nat; [done |].
    destruct (marshalList_loop _ _ xs []) as [L|e'|p] eqn:HL; try done.
    intros [= <-].
    apply (marshalList_loop_error marshalKind (KindOf elem) xs [] e');
      [|done].
    eapply Forall_impl; [exact IH |]. by intros x [? _].
  - (* pointer *)
    destruct IH as [_ IHfs]. intros kind e. rewrite marshalKind_eq.
    destruct kind; try done. unfold marshalDict, marshalDict_with.
    destruct target as [| | | | | | |name fs|m]; try (by intros [= <-]).
    destruct (decide (name = "RawMessage")); [done |].
    destruct (marshalDict_loop _ fs []) as [D|e'|p] eqn:HD; try done.
    intros [= <-]. by apply (IHfs _ _ eq_refl [] e').
  - (* record *)
    intros name' fs [= <- <-] D e.
    apply marshalDict_loop_error.
    eapply Forall_impl; [exact IH |]. by intros fv [? _].
Qed.

(** X8. The projector has one error only: a pointer that points to
    something that is not a struct, reported with the kind of that.  All
    other values that have no case are passed over in silence. *)
Theorem marshal_only_error (val : value) (e : error) :
  Marshal val = Err e -> exists k, e = ErrNotAStruct k /\ k <> Struct.
Proof.
  intros H.
  assert (exists kind, marshalKind kind val = Err e) as [kind Hk].
  { unfold Marshal in H. destruct val; try done.
    - exists Slice. rewrite marshalKind_eq. revert H.
      destruct (marshalList _) as [[rm|]| |]; congruence.
    - destruct (decide (KindOf elem = Struct)); [|by destruct (marshalPOD _)].
      exists Ptr. rewrite marshalKind_eq. revert H.
      destruct (marshalDict _) as [[rm|]| |]; congruence. }
  apply (proj1 (marshalKind_error val)) in Hk.
  destruct e; try done. simpl in Hk. eexists. split; [done |].
  by apply negb_true_iff, bool_decide_eq_false in Hk.
Qed.

Lemma marshal_only_error_witness :
  exists k, ErrNotAStruct Int64 = ErrNotAStruct k /\ k <> Struct.
Proof.
  apply (marshal_only_error
           (VPtr (TStruct "box" [(mkStructField "P" "" [], TPtr TInt64)])
              (Some (VStruct "box"
                       [(mkStructField "P" "" [],
                         VPtr TInt64 (Some (VInt64 5)))])))).
  reflexivity.
Defined.

Lemma marshalDict_loop_keys mk (fs : list (StructField * value))
    (D D' : list KV) :
  marshalDict_loop mk fs D = Ok D' ->
  exists ks,
    D' = D ++ ks
    /\ sublist (map fst ks)
         (map (fun fv => fieldKey (fst fv))
            (List.filter (fun fv => exported (fst fv)) fs)).
Proof.
  revert D. induction fs as [|[sf fv] fs IH]; intros D; simpl.
  - intros [= <-]. exists []. by rewrite app_nil_r.
  - destruct (exported sf); simpl; [|apply IH].
    destruct (mk _ fv) as [[m|]| |]; simpl; try done.
    + intros (ks & -> & Hks)%IH. exists ((fieldKey sf, m) :: ks).
      split; [by rewrite <- app_assoc |]. by apply sublist_skip.
    + intros (ks & -> & Hks)%IH. exists ks. split; [done |].
      by apply sublist_cons.
Qed.

(** X9. The dict of a record has entries only: no scalar and no list; and
    its keys are keys of exported fields of the record, in the order of
    the fields (they are not sorted), each field giving at most one. *)
Theorem marshalDict_keys_in_order (elem : type) (name : string)
    (fs : list (StructField * value)) (rm : RawMessage) :
  marshalDict (VPtr elem (Some (VStruct name fs))) = Ok (Some rm) ->
  rmPOD rm = None /\ rmL rm = []
  /\ sublist (map fst (rmD rm))
       (map (fun fv => fieldKey (fst fv))
          (List.filter (fun fv => exported (fst fv)) fs)).
Proof.
  unfold marshalDict, marshalDict_with.
  destruct (decide (name = "RawMessage")); [done |].
  destruct (marshalDict_loop _ fs []) as [D| |] eqn:HD; try done.
  intros [= <-]. apply marshalDict_loop_keys in HD as (ks & -> & Hks).
  by repeat split.
Qed.

Lemma marshalDict_keys_in_order_witness :
  rmPOD (dictRM [("N"%string, podRM (PInt64 7))]) = None
  /\ rmL (dictRM [("N"%string, podRM (PInt64 7))]) = []
  /\ sublist (map fst (rmD (dictRM [("N"%string, podRM (PInt64 7))])))
       (map (fun fv => fieldKey (fst fv))
          (List.filter (fun fv => exported (fst fv))
             [(mkStructField "N" "" [], VInt64 7);
              (mkStructField "Flag" "" [], VOther 1 1)])).
Proof.
  apply (marshalDict_keys_in_order flagRecord_t "flagRecord"
           [(mkStructField "N" "" [], VInt64 7);
            (mkStructField "Flag" "" [], VOther 1 1)]
           (dictRM [("N"%string, podRM (PInt64 7))])).
  reflexivity.
Defined.

(** X11. A sequence whose elements are of a kind without a case (none of
    int64, uint64, string, slice and pointer) loses all of them: [Marshal]
    of such a sequence, when it is not empty, writes no byte and reports no
    error. *)
Theorem marshal_unsupported_elements (elem : type) (x : value)
    (xs : list value) :
  hasCase (KindOf elem) = false ->
  Marshal (VSlice elem (x :: xs)) = Ok (Some ""%string).
Proof.
  intros Hk. unfold Marshal.
  by rewrite (unsupported_elements_dropped elem x xs Hk).
Qed.

Lemma marshal_unsupported_elements_witness :
  Marshal (VSlice (TOther 1) [VOther 1 1; VOther 1 0]) = Ok (Some ""%string).
Proof.
  apply (marshal_unsupported_elements (TOther 1) (VOther 1 1) [VOther 1 0]).
  reflexivity.
Defined.

(** ** More on the injector *)

Section list_loop.

Variable mk : RawMessage -> type -> value -> outcome value.

(** The loop of [unmarshalList] from index [i] on: the target grows by one
    for every item; nothing before [i] is changed; item [j] is injected at
    [i + j] into what is there; behind the items the target is what it
    was, followed by the zero values that were appended. *)
Lemma unmarshalList_loop_spec (l : list RawMessage) (i : nat) (elem : type)
    (cur xs' : list value) :
  unmarshalList_loop mk l i elem cur = Ok xs' ->
  length xs' = (length cur + length l)%nat
  /\ (forall j, (j < i)%nat -> xs' !! j = cur !! j)
  /\ skipn (i + length l) xs'
     = skipn (i + length l) (cur ++ replicate (length l) (Zero elem))
  /\ forall j rm, l !! j = Some rm ->
       exists old v,
         (cur ++ replicate (length l) (Zero elem)) !! (i + j)%nat = Some old
         /\ mk rm elem old = Ok v /\ xs' !! (i + j)%nat = Some v.
Proof.
  revert i cur. induction l as [|rm l IH]; intros i cur; simpl.
  - intros [= <-]. rewrite app_nil_r, !Nat.add_0_r. by repeat split.
  - destruct ((cur ++ [Zero elem]) !! i) as [val|] eqn:Hval; [|done].
    pose proof (lookup_lt_Some _ _ _ Hval) as Hi.
    rewrite length_app in Hi. simpl in Hi.
    destruct (mk rm elem val) as [val'| |] eqn:Hmk; simpl; try done.
    intros (Hlen & Hframe & Htail & Hitems)%IH.
    rewrite length_insert, length_app in Hlen. simpl in Hlen.
    assert ((cur ++ Zero elem :: replicate (length l) (Zero elem))
            = (cur ++ [Zero elem]) ++ replicate (length l) (Zero elem))
      as Happ by (by rewrite <- app_assoc).
    split; [lia |]. split; [|split].
    + intros j Hj. rewrite Hframe by lia.
      rewrite list_lookup_insert_ne by lia.
      apply lookup_app_l. lia.
    + replace (i + S (length l))%nat with (S i + length l)%nat by lia.
      rewrite Htail, Happ.
      rewrite <- (insert_app_l _ _ _ _)
        by (rewrite length_app; simpl; lia).
      apply drop_insert_lt. lia.
    + intros [|j] rm' Hrm; simpl in Hrm.
      * injection Hrm as <-. exists val, val'. rewrite Nat.add_0_r.
        split; [|split; [done |]].
        -- rewrite Happ. rewrite lookup_app_l
             by (rewrite length_app; simpl; lia). done.
        -- rewrite Hframe by lia. apply list_lookup_insert_eq.
           rewrite length_app. simpl. lia.
      * destruct (Hitems j rm' Hrm) as (old & v & Hold & Hv & Hnew).
        exists old, v.
        replace (i + S j)%nat with (S i + j)%nat by lia.
        split; [|done]. rewrite Happ.
        rewrite <- Hold.
        rewrite <- (insert_app_l _ _ _ _)
          by (rewrite length_app; simpl; lia).
        symmetry. apply list_lookup_insert_ne. lia.
Qed.

End list_loop.

(** X12. [unmarshalList] appends one zero value to the target for every
    item of the list, but injects item [j] at index [j], into what the
    target holds there: a target that is not empty has its first elements
    overwritten, and ends with what it held behind them, followed by zero
    values. *)
Theorem unmarshalList_writes_from_start (l : list RawMessage) (elem : type)
    (xs : list value) (v' : value) :
  unmarshalList l (VSlice elem xs) = Ok v' ->
  exists xs',
    v' = VSlice elem xs'
    /\ length xs' = (length xs + length l)%nat
    /\ skipn (length l) xs'
       = skipn (length l) (xs ++ replicate (length l) (Zero elem))
    /\ forall j rm, l !! j = Some rm ->
         exists old v,
           (xs ++ replicate (length l) (Zero elem)) !! j = Some old
           /\ unmarshalElem rm elem old = Ok v /\ xs' !! j = Some v.
Proof.
  unfold unmarshalList, unmarshalList_with.
  destruct (unmarshalList_loop _ l 0 elem xs) as [xs'| |] eqn:Hloop;
    try done.
  intros [= <-]. exists xs'. split; [done |].
  apply unmarshalList_loop_spec in Hloop as (Hlen & _ & Htail & Hitems).
  by repeat split.
Qed.

Lemma unmarshalList_writes_from_start_witness :
  exists xs',
    VSlice TUint64 [VUint64 7; VUint64 2; VUint64 0] = VSlice TUint64 xs'
    /\ length xs' = (length [VUint64 1; VUint64 2]
                     + length [podRM (PUint64 7)])%nat
    /\ skipn (length [podRM (PUint64 7)]) xs'
       = skipn (length [podRM (PUint64 7)])
           ([VUint64 1; VUint64 2]
            ++ replicate (length [podRM (PUint64 7)]) (Zero TUint64))
    /\ forall j rm, [podRM (PUint64 7)] !! j = Some rm ->
         exists old v,
           ([VUint64 1; VUint64 2]
            ++ replicate (length [podRM (PUint64 7)]) (Zero TUint64)) !! j
           = Some old
           /\ unmarshalElem rm TUint64 old = Ok v /\ xs' !! j = Some v.
Proof.
  apply (unmarshalList_writes_from_start [podRM (PUint64 7)] TUint64
           [VUint64 1; VUint64 2]).
  reflexivity.
Defined.

(** The [fields] map holds indices of exported fields under their keys. *)
Lemma fieldsMap_loop_sound (fs : list (StructField * value)) (i0 : nat)
    (M : gmap string nat) (K : string) (i : nat) :
  fieldsMap_loop fs i0 M !! K = Some i ->
  M !! K = Some i
  \/ exists sf fv, fs !! (i - i0)%nat = Some (sf, fv) /\ (i0 <= i)%nat
       /\ exported sf = true /\ fieldKey sf = K.
Proof.
  revert i0 M. induction fs as [|[sf fv] fs IH]; intros i0 M; simpl;
    [by left |].
  assert (forall M', fieldsMap_loop fs (S i0) M' !! K = Some i ->
            M' !! K = Some i
            \/ exists sf' fv', ((sf, fv) :: fs) !! (i - i0)%nat
                               = Some (sf', fv') /\ (i0 <= i)%nat
                 /\ exported sf' = true /\ fieldKey sf' = K) as Hstep.
  { intros M' [H|(sf' & fv' & Hl & Hle & Hex & Hk)]%IH; [by left |].
    right. exists sf', fv'. split; [|split; [lia | done]].
    replace (i - i0)%nat with (S (i - S i0)) by lia. done. }
  destruct (exported sf) eqn:Hex; simpl; [|apply Hstep].
  intros [H|H]%Hstep; [|by right].
  destruct (decide (fieldKey sf = K)) as [<-|Hne].
  - rewrite lookup_insert_eq in H. injection H as <-. right.
    exists sf, fv. rewrite Nat.sub_diag. by repeat split.
  - left. by rewrite lookup_insert_ne in H.
Qed.

Lemma fieldsMap_sound (fs : list (StructField * value)) (K : string)
    (i : nat) :
  fieldsMap fs !! K = Some i ->
  exists sf fv, fs !! i = Some (sf, fv)
    /\ exported sf = true /\ fieldKey sf = K.
Proof.
  intros [H|(sf & fv & Hl & _ & Hex & Hk)]%fieldsMap_loop_sound; [done |].
  exists sf, fv. by rewrite Nat.sub_0_r in Hl.
Qed.

Section dict_loop_frame.

Variable mk : RawMessage -> type -> value -> outcome value.

Lemma unmarshalDict_loop_frame (d : list KV) (M : gmap string nat)
    (fs fs' : list (StructField * value)) :
  unmarshalDict_loop mk d M fs = Ok fs' ->
  map fst fs' = map fst fs
  /\ forall j, (forall K rm, (K, rm) ∈ d -> M !! K <> Some j) ->
       fs' !! j = fs !! j.
Proof.
  revert fs. induction d as [|[K rm] d IH]; intros fs; simpl.
  - by intros [= <-].
  - destruct (M !! K) as [i|] eqn:HK.
    + destruct (fs !! i) as [[sf field]|] eqn:Hi; [|done].
      destruct (mk rm _ field) as [field'| |]; try done.
      intros [Hfst Hframe]%IH. split.
      * rewrite Hfst. apply list_eq. intros j.
        rewrite !list_lookup_fmap.
        destruct (decide (i = j)) as [<-|Hne].
        -- rewrite list_lookup_insert_eq by by eapply lookup_lt_Some.
           by rewrite Hi.
        -- by rewrite list_lookup_insert_ne.
      * intros j Hj. rewrite Hframe.
        -- apply list_lookup_insert_ne. intros ->.
           apply (Hj K rm); [left | done].
        -- intros K' rm' Hin. apply (Hj K' rm'). by right.
    + intros [Hfst Hframe]%IH. split; [done |].
      intros j Hj. apply Hframe. intros K' rm' Hin.
      apply (Hj K' rm'). by right.
Qed.

Lemma unmarshalDict_loop_error (d : list KV) (M : gmap string nat)
    (fs : list (StructField * value)) (e : error) :
  unmarshalDict_loop mk d M fs = Err e ->
  exists K rm e', e = ErrField K e' /\ (K, rm) ∈ d /\ is_Some (M !! K).
Proof.
  revert fs. induction d as [|[K rm] d IH]; intros fs; simpl; [done |].
  destruct (M !! K) as [i|] eqn:HK.
  - destruct (fs !! i) as [[sf field]|] eqn:Hi; [|done].
    destruct (mk rm _ field) as [field'|e'|]; try done.
    + intros (K' & rm' & e' & -> & Hin & HM)%IH.
      exists K', rm', e'. split; [done |]. split; [by right | done].
    + intros [= <-]. exists K, rm, e'. rewrite HK.
      split; [done |]. split; [left | by eexists].
  - intros (K' & rm' & e' & -> & Hin & HM)%IH.
    exists K', rm', e'. split; [done |]. split; [by right | done].
Qed.

End dict_loop_frame.

(** X13. [unmarshalDict] leaves a field as it is unless the field is
    exported and its key occurs in the dict; the record keeps its fields,
    in their order, whatever the dict holds. *)
Theorem unmarshalDict_untouched_fields (d : list KV) (elem : type)
    (name : string) (fs : list (StructField * value)) (v' : value) :
  unmarshalDict d (VPtr elem (Some (VStruct name fs))) = Ok v' ->
  exists fs',
    v' = VPtr elem (Some (VStruct name fs'))
    /\ map fst fs' = map fst fs
    /\ forall j sf fv, fs !! j = Some (sf, fv) ->
         exported sf = false \/ (forall rm, (fieldKey sf, rm) ∉ d) ->
         fs' !! j = Some (sf, fv).
Proof.
  unfold unmarshalDict, unmarshalDict_with.
  destruct (unmarshalDict_loop _ d (fieldsMap fs) fs) as [fs'| |] eqn:Hloop;
    try done.
  intros [= <-]. exists fs'. split; [done |].
  apply unmarshalDict_loop_frame in Hloop as [Hfst Hframe].
  split; [done |]. intros j sf fv Hj Hwhy. rewrite Hframe; [done |].
  intros K rm Hin (sf' & fv' & Hj' & Hex & HK)%fieldsMap_sound.
  rewrite Hj in Hj'. injection Hj' as <- <-.
  destruct Hwhy as [Hun|Hkey]; [congruence |].
  subst K. by apply (Hkey rm).
Qed.

Lemma unmarshalDict_untouched_fields_witness :
  exists fs',
    VPtr counter_t
      (Some (VStruct "counter"
               [(mkStructField "Total" "" [], VInt64 9);
                (mkStructField "seen" "main" [], VInt64 2)]))
    = VPtr counter_t (Some (VStruct "counter" fs'))
    /\ map fst fs'
       = map fst [(mkStructField "Total" "" [], VInt64 1);
                  (mkStructField "seen" "main" [], VInt64 2)]
    /\ forall j sf fv,
         [(mkStructField "Total" "" [], VInt64 1);
          (mkStructField "seen" "main" [], VInt64 2)] !! j = Some (sf, fv) ->
         exported sf = false
         \/ (forall rm,
               (fieldKey sf, rm)
               ∉ [("Total"%string, podRM (PInt64 9));
                  ("seen"%string, podRM (PInt64 5))]) ->
         fs' !! j = Some (sf, fv).
Proof.
  apply (unmarshalDict_untouched_fields
           [("Total"%string, podRM (PInt64 9));
            ("seen"%string, podRM (PInt64 5))]
           counter_t "counter"
           [(mkStructField "Total" "" [], VInt64 1);
            (mkStructField "seen" "main" [], VInt64 2)]).
  reflexivity.
Defined.

(** X14. An error of [unmarshalDict] on a record is always the error of
    one entry, wrapped with the key of that entry, and that key is the key
    of an exported field of the record: entries with other keys never
    fail, whatever they hold. *)
Theorem unmarshalDict_error_names_key (d : list KV) (elem : type)
    (name : string) (fs : list (StructField * value)) (e : error) :
  unmarshalDict d (VPtr elem (Some (VStruct name fs))) = Err e ->
  exists K rm e' i sf fv,
    e = ErrField K e' /\ (K, rm) ∈ d
    /\ fs !! i = Some (sf, fv) /\ exported sf = true /\ fieldKey sf = K.
Proof.
  unfold unmarshalDict, unmarshalDict_with.
  destruct (unmarshalDict_loop _ d (fieldsMap fs) fs) as [fs'|e0|] eqn:Hloop;
    try done.
  intros [= <-].
  apply unmarshalDict_loop_error in Hloop
    as (K & rm & e' & -> & Hin & [i Hi]).
  apply fieldsMap_sound in Hi as (sf & fv & Hi & Hex & HK).
  by exists K, rm, e', i, sf, fv.
Qed.

Lemma unmarshalDict_error_names_key_witness :
  exists K rm e' i sf fv,
    ErrField "x" (ErrMismatchedType Int64 String_) = ErrField K e'
    /\ (K, rm) ∈ [("x"%string, podRM (PString "a"))]
    /\ [(mkStructField "X" "" [("ben", "x")], VInt64 0);
        (mkStructField "Y" "" [], VInt64 0)] !! i = Some (sf, fv)
    /\ exported sf = true /\ fieldKey sf = K.
Proof.
  apply (unmarshalDict_error_names_key
           [("x"%string, podRM (PString "a"))] point_t "point"
           [(mkStructField "X" "" [("ben", "x")], VInt64 0);
            (mkStructField "Y" "" [], VInt64 0)]).
  reflexivity.
Defined.

Lemma fieldsMap_loop_app (fs1 fs2 : list (StructField * value)) (i : nat)
    (M : gmap string nat) :
  fieldsMap_loop (fs1 ++ fs2) i M
  = fieldsMap_loop fs2 (i + length fs1) (fieldsMap_loop fs1 i M).
Proof.
  revert i M. induction fs1 as [|[sf fv] fs1 IH]; intros i M; simpl.
  - by rewrite Nat.add_0_r.
  - replace (i + S (length fs1))%nat with (S i + length fs1)%nat by lia.
    destruct (exported sf); simpl; apply IH.
Qed.

Lemma fieldsMap_loop_keep (fs : list (StructField * value)) (i : nat)
    (M : gmap string nat) (K : string) :
  Forall (fun f => exported (fst f) = true -> fieldKey (fst f) <> K) fs ->
  fieldsMap_loop fs i M !! K = M !! K.
Proof.
  intros Hfs. revert i M.
  induction Hfs as [|[sf fv] fs Hf _ IH]; intros i M; simpl; [done |].
  destruct (exported sf) eqn:Hex; simpl; rewrite IH; [|done].
  apply lookup_insert_ne. by apply Hf.
Qed.

(** X15. One entry of a dict goes to the last exported field that has its
    key: the field receives what the injection of the entry's value into
    it gives, and all other fields, earlier ones with the same key among
    them, stay as they are. *)
Theorem unmarshalDict_entry_last_field (K : string) (rm : RawMessage)
    (elem : type) (name : string) (fs1 fs2 : list (StructField * value))
    (sf : StructField) (fv fv' : value) :
  exported sf = true -> fieldKey sf = K ->
  Forall (fun f => exported (fst f) = true -> fieldKey (fst f) <> K) fs2 ->
  unmarshalField rm (TypeOf fv) fv = Ok fv' ->
  unmarshalDict [(K, rm)]
    (VPtr elem (Some (VStruct name (fs1 ++ (sf, fv) :: fs2))))
  = Ok (VPtr elem (Some (VStruct name (fs1 ++ (sf, fv') :: fs2)))).
Proof.
  intros Hex HK Hfs2 Hfv. unfold unmarshalDict, unmarshalDict_with.
  cbn [unmarshalDict_loop].
  assert (fieldsMap (fs1 ++ (sf, fv) :: fs2) !! K = Some (length fs1))
    as ->.
  { unfold fieldsMap. rewrite fieldsMap_loop_app. cbn [fieldsMap_loop].
    rewrite Hex. cbn [negb]. rewrite fieldsMap_loop_keep by done.
    rewrite HK. apply lookup_insert_eq. }
  rewrite list_lookup_middle by done. rewrite Hfv.
  rewrite insert_app_r_alt by lia. by rewrite Nat.sub_diag.
Qed.

Lemma unmarshalDict_entry_last_field_witness :
  unmarshalDict [("x"%string, podRM (PInt64 (-5)))]
    (VPtr pair_t
       (Some (VStruct "pair"
                ([(ben "A" "x", VInt64 0)] ++ (ben "B" "x", VInt64 0) :: []))))
  = Ok (VPtr pair_t
          (Some (VStruct "pair"
                   ([(ben "A" "x", VInt64 0)]
                    ++ (ben "B" "x", VInt64 (-5)) :: [])))).
Proof.
  apply (unmarshalDict_entry_last_field "x" (podRM (PInt64 (-5))) pair_t
           "pair" [(ben "A" "x", VInt64 0)] [] (ben "B" "x")
           (VInt64 0) (VInt64 (-5)));
    [reflexivity | reflexivity | constructor | reflexivity].
Defined.

(** X16. A number on the wire that is above the range of [int64] goes
    into an [int64] target without an error: [Unmarshal] stores the same 64
    bits, read as signed, so [2^64 - 1] arrives as [-1]. *)
Theorem unmarshal_unsigned_into_int64 (u : Z) :
  0 <= u < 2 ^ 64 ->
  Unmarshal (Encode (podRM (PUint64 u))) (New TInt64)
  = Ok (VPtr TInt64
          (Some (VInt64 (if u <? 2 ^ 63 then u else u - 2 ^ 64)))).
Proof.
  intros Hu. unfold Unmarshal, Decode, Encode.
  cbn [encodeRawMessage podRM].
  pose proof (decode_uint (String.length (encodePOD (PUint64 u))) u "" Hu)
    as Hdec.
  rewrite sapp_nil_r in Hdec. rewrite Hdec. reflexivity.
Qed.

Lemma unmarshal_unsigned_into_int64_witness :
  Unmarshal (Encode (podRM (PUint64 (2 ^ 64 - 1)))) (New TInt64)
  = Ok (VPtr TInt64
          (Some (VInt64 (if 2 ^ 64 - 1 <? 2 ^ 63
                         then 2 ^ 64 - 1 else 2 ^ 64 - 1 - 2 ^ 64)))).
Proof. apply (unmarshal_unsigned_into_int64 (2 ^ 64 - 1)). lia. Defined.

(** ** From a record to bytes and back *)

Lemma forallb_map {A B} (f : A -> B) (p : B -> bool) (l : list A) :
  forallb p (map f l) = forallb (fun x => p (f x)) l.
Proof. induction l as [|x l IH]; simpl; [done | by rewrite IH]. Qed.

Lemma forallb_impl {A} (p q : A -> bool) (l : list A) :
  Forall (fun x => p x = true -> q x = true) l ->
  forallb p l = true -> forallb q l = true.
Proof.
  induction 1 as [|x l Hx _ IH]; simpl; [done |].
  intros [Hp Hl]%andb_prop. by rewrite Hx, IH.
Qed.

Lemma wire_canonical (m : RawMessage) :
  writable m = true -> canonical (wire m) = true.
Proof.
  induction m as [POD L D IHL IHD] using RawMessage_ind'. intros Hw.
  destruct POD as [[i|u|s|k]|]; cbn [writable] in Hw.
  - destruct L, D; try discriminate.
    apply andb_prop in Hw as [Hlo%Z.leb_le Hhi%Z.ltb_lt].
    cbn [wire option_map wirePOD map]. destruct (0 <=? i) eqn:Hi; simpl.
    + apply Z.leb_le in Hi. apply andb_true_intro.
      split; [apply Z.leb_le | apply Z.ltb_lt]; lia.
    + apply Z.leb_gt in Hi. apply andb_true_intro.
      split; [apply Z.leb_le | apply Z.ltb_lt]; lia.
  - by destruct L, D.
  - by destruct L, D.
  - by destruct L, D.
  - destruct L as [|x L], D as [|kv D]; try discriminate.
    + cbn [wire option_map]. simpl map at 1.
      change (canonical (mkRawMessage None []
                (map (fun kv : KV => (fst kv, wire (snd kv))) (kv :: D))))
        with (forallb (fun kv : KV => (strlen (fst kv) <=? maxAlloc)
                                      && canonical (snd kv))
                (map (fun kv : KV => (fst kv, wire (snd kv))) (kv :: D))).
      rewrite forallb_map. revert Hw. apply forallb_impl.
      eapply Forall_impl; [exact IHD |]. simpl.
      intros kv' Hkv' [Hk Hv]%andb_prop. by rewrite Hk, Hkv'.
    + cbn [wire option_map]. simpl map at 2.
      change (canonical (mkRawMessage None (map wire (x :: L)) []))
        with (forallb canonical (map wire (x :: L))).
      rewrite forallb_map. revert Hw. apply forallb_impl. exact IHL.
Qed.

Lemma encodeL_loop_ext (f g : RawMessage -> string) (l : list RawMessage) :
  Forall (fun x => f x = g x) l -> encodeL_loop f l = encodeL_loop g l.
Proof. induction 1 as [|x l Hx _ IH]; simpl; [done | by rewrite Hx, IH]. Qed.

Lemma encodeD_loop_ext (f g : RawMessage -> string) (d : list KV) :
  Forall (fun kv : KV => f (snd kv) = g (snd kv)) d ->
  encodeD_loop f d = encodeD_loop g d.
Proof. induction 1 as [|x l Hx _ IH]; simpl; [done | by rewrite Hx, IH]. Qed.

Lemma encodeL_loop_map (f : RawMessage -> string)
    (h : RawMessage -> RawMessage) (l : list RawMessage) :
  encodeL_loop f (map h l) = encodeL_loop (fun x => f (h x)) l.
Proof. induction l as [|x l IH]; simpl; [done | by rewrite IH]. Qed.

Lemma encodeD_loop_map (f : RawMessage -> string)
    (h : RawMessage -> RawMessage) (d : list KV) :
  encodeD_loop f (map (fun kv : KV => (fst kv, h (snd kv))) d)
  = encodeD_loop (fun x => f (h x)) d.
Proof. induction d as [|x l IH]; simpl; [done | by rewrite IH]. Qed.

Lemma encode_wire (m : RawMessage) :
  encodeRawMessage (wire m) = encodeRawMessage m.
Proof.
  induction m as [POD L D IHL IHD] using RawMessage_ind'.
  destruct POD as [pod|]; cbn [wire option_map encodeRawMessage].
  - destruct pod as [i| | |]; try done. cbn [wirePOD].
    destruct (0 <=? i) eqn:Hi; [|done]. apply Z.leb_le in Hi.
    cbn [encodePOD]. unfold strconv.FormatInt.
    by rewrite (proj2 (Z.ltb_ge i 0)) by lia.
  - rewrite !length_map.
    rewrite encodeL_loop_map, encodeD_loop_map.
    rewrite (encodeL_loop_ext _ encodeRawMessage L) by exact IHL.
    by rewrite (encodeD_loop_ext _ encodeRawMessage D) by exact IHD.
Qed.

Lemma map_id_Forall {A} (f : A -> A) (l : list A) :
  Forall (fun x => f x = x) l -> map f l = l.
Proof. induction 1 as [|x l Hx _ IH]; simpl; [done | by rewrite Hx, IH]. Qed.

Lemma canonical_wire (m : RawMessage) :
  canonical m = true -> writable m = true /\ wire m = m.
Proof.
  induction m as [POD L D IHL IHD] using RawMessage_ind'. intros Hc.
  destruct POD as [[i|u|s|k]|]; cbn [canonical] in Hc.
  - destruct L, D; try discriminate.
    apply andb_prop in Hc as [Hlo%Z.leb_le Hhi%Z.ltb_lt]. split.
    + simpl. apply andb_true_intro.
      split; [apply Z.leb_le | apply Z.ltb_lt]; lia.
    + simpl. by rewrite (proj2 (Z.leb_gt 0 i)) by lia.
  - by destruct L, D.
  - by destruct L, D.
  - by destruct L, D.
  - destruct L as [|x L], D as [|kv D]; try discriminate.
    + assert (Forall (fun kv : KV => (strlen (fst kv) <=? maxAlloc) = true
                                     /\ writable (snd kv) = true
                                     /\ wire (snd kv) = snd kv) (kv :: D))
        as Hall.
      { apply Forall_forall. intros kv' Hin.
        assert ((strlen (fst kv') <=? maxAlloc) && canonical (snd kv') = true)
          as [Hk Hcv]%andb_prop.
        { rewrite forallb_forall in Hc. apply Hc. by apply list_elem_of_In. }
        rewrite Forall_forall in IHD. split; [done |]. by apply IHD. }
      split.
      * change (writable (mkRawMessage None [] (kv :: D)))
          with (forallb (fun kv : KV => (strlen (fst kv) <=? maxAlloc)
                                        && writable (snd kv)) (kv :: D)).
        apply forallb_forall. intros kv' Hin%list_elem_of_In.
        rewrite Forall_forall in Hall.
        destruct (Hall kv' Hin) as (-> & -> & _). done.
      * cbn [wire option_map]. simpl map at 1. f_equal.
        apply map_id_Forall. eapply Forall_impl; [exact Hall |].
        intros [k v] (_ & _ & Hv). simpl in *. by rewrite Hv.
    + assert (Forall (fun x => writable x = true /\ wire x = x) (x :: L))
        as Hall.
      { apply Forall_forall. intros x' Hin.
        rewrite Forall_forall in IHL. apply IHL; [done |].
        rewrite forallb_forall in Hc. apply Hc. by apply list_elem_of_In. }
      split.
      * change (writable (mkRawMessage None (x :: L) []))
          with (forallb writable (x :: L)).
        apply forallb_forall. intros x' Hin%list_elem_of_In.
        rewrite Forall_forall in Hall. by destruct (Hall x' Hin).
      * cbn [wire option_map]. simpl map at 2. f_equal.
        apply map_id_Forall. eapply Forall_impl; [exact Hall |].
        by intros x' [_ ?].
Qed.

Lemma Decode_canonical (m : RawMessage) :
  canonical m = true -> Decode (encodeRawMessage m) = Ok m.
Proof.
  intros Hc. destruct (canonical_decodes m Hc) as [Hdec _]. unfold Decode.
  destruct (decodeRawMessage _ (encodeRawMessage m)) as [o|] eqn:Ho;
    [|by apply decode_fuel_enough in Ho].
  apply (decodeRawMessage_mono _
           (max (S (String.length (encodeRawMessage m))) (need m)))
    in Ho; [|lia].
  specialize (Hdec (max (S (String.length (encodeRawMessage m))) (need m))
                ""%string (Nat.le_max_r _ _)).
  rewrite sapp_nil_r in Hdec. rewrite Hdec in Ho. by injection Ho as <-.
Qed.

(** X17. For every writable RawMessage, [Decode] of what [Encode] writes
    is the RawMessage up to signs: the [int64]s that are not negative come
    back as [uint64]s and nothing else changes.  What comes back is
    canonical, so that a second round gives it back as it is. *)
Theorem decode_encode_wire (m : RawMessage) :
  writable m = true ->
  Decode (Encode m) = Ok (wire m)
  /\ Encode (wire m) = Encode m
  /\ Decode (Encode (wire m)) = Ok (wire m).
Proof.
  intros Hw. pose proof (wire_canonical m Hw) as Hc.
  pose proof (Decode_canonical (wire m) Hc) as Hdec.
  unfold Encode. rewrite encode_wire in *. by repeat split.
Qed.

Lemma decode_encode_wire_witness :
  Decode (Encode (listRM [podRM (PInt64 5); podRM (PInt64 (-5))]))
  = Ok (wire (listRM [podRM (PInt64 5); podRM (PInt64 (-5))]))
  /\ Encode (wire (listRM [podRM (PInt64 5); podRM (PInt64 (-5))]))
     = Encode (listRM [podRM (PInt64 5); podRM (PInt64 (-5))])
  /\ Decode (Encode (wire (listRM [podRM (PInt64 5); podRM (PInt64 (-5))])))
     = Ok (wire (listRM [podRM (PInt64 5); podRM (PInt64 (-5))])).
Proof.
  apply (decode_encode_wire (listRM [podRM (PInt64 5); podRM (PInt64 (-5))])).
  reflexivity.
Defined.

Lemma marshalList_loop_rel (R : RawMessage -> value -> Prop) (kind : Kind)
    (xs : list value) (L : list RawMessage) :
  Forall (fun x => exists m, marshalKind kind x = Ok (Some m) /\ R m x) xs ->
  exists ms,
    marshalList_loop marshalKind kind xs L = Ok (L ++ ms)
    /\ Forall2 R ms xs.
Proof.
  intros Hxs. revert L.
  induction Hxs as [|x xs (m & Hm & HR) _ IH]; intros L; simpl.
  - exists []. by rewrite app_nil_r.
  - rewrite Hm. simpl. destruct (IH (L ++ [m])) as (ms & -> & Hall).
    exists (m :: ms). split; [by rewrite <- app_assoc |]. by constructor.
Qed.

Lemma marshalDict_loop_rel (R : RawMessage -> StructField * value -> Prop)
    (fs : list (StructField * value)) (D : list KV) :
  Forall (fun fv => exported (fst fv) = true
                    /\ exists m, marshalKind (vKind (snd fv)) (snd fv)
                                 = Ok (Some m) /\ R m fv) fs ->
  exists ms,
    marshalDict_loop marshalKind fs D = Ok (D ++ ms)
    /\ Forall2 (fun (kv : KV) fv =>
                  fst kv = fieldKey (fst fv) /\ R (snd kv) fv) ms fs.
Proof.
  intros Hfs. revert D.
  induction Hfs as [|[sf fv] fs [Hex (m & Hm & HR)] _ IH]; intros D; simpl.
  - exists []. by rewrite app_nil_r.
  - simpl in Hex, Hm. rewrite Hex, vKind_TypeOf, Hm. simpl.
    destruct (IH (D ++ [(fieldKey sf, m)])) as (ms & -> & Hall).
    exists ((fieldKey sf, m) :: ms). split; [by rewrite <- app_assoc |].
    by constructor.
Qed.

Lemma Forall2_map_l {A B C} (P : B -> C -> Prop) (f : A -> B)
    (l : list A) (k : list C) :
  Forall2 (fun x y => P (f x) y) l k -> Forall2 P (map f l) k.
Proof. induction 1; simpl; by constructor. Qed.

Lemma Forall2_forallb_l {A B} (P : A -> B -> Prop) (p : A -> bool)
    (l : list A) (k : list B) :
  Forall2 P l k -> (forall x y, P x y -> p x = true) -> forallb p l = true.
Proof.
  intros H HP. induction H as [|x y l k Hxy _ IH]; simpl; [done |].
  by rewrite (HP x y Hxy), IH.
Qed.

(** Projection, encoding, decoding and injection of one record, from what
    holds of its fields. *)
Lemma struct_wireTrips (name : string) (fs : list (StructField * value)) :
  fullySet (VPtr (TypeOf (VStruct name fs)) (Some (VStruct name fs))) = true ->
  inRange (VPtr (TypeOf (VStruct name fs)) (Some (VStruct name fs))) = true ->
  Forall (fun fv => fullySet (snd fv) = true -> inRange (snd fv) = true ->
                    wireTrips (snd fv)) fs ->
  exists D,
    marshalDict (VPtr (TypeOf (VStruct name fs)) (Some (VStruct name fs)))
    = Ok (Some (dictRM D))
    /\ (0 < length D)%nat
    /\ writable (dictRM D) = true
    /\ unmarshalDict (rmD (wire (dictRM D))) (New (TypeOf (VStruct name fs)))
       = Ok (VPtr (TypeOf (VStruct name fs)) (Some (VStruct name fs))).
Proof.
  intros Hset Hrange IH. cbn [fullySet] in Hset. cbn [inRange] in Hrange.
  apply andb_prop in Hset as [Hset Hfields].
  apply andb_prop in Hset as [Hset Hnd%bool_decide_eq_true].
  apply andb_prop in Hset as [Hset Hlen].
  apply andb_prop in Hset as [_ Hname%negb_true_iff%bool_decide_eq_false].
  pose (R := fun (m : RawMessage) (fv : StructField * value) =>
               strlen (fieldKey (fst fv)) <= maxAlloc
               /\ writable m = true /\ injects (wire m) (snd fv)).
  assert (Forall (fun fv =>
            exported (fst fv) = true
            /\ exists m, marshalKind (vKind (snd fv)) (snd fv) = Ok (Some m)
                 /\ R m fv) fs)
    as Hfs.
  { apply Forall_forall. intros fv Hin.
    assert (exported (fst fv) && fullySet (snd fv) = true)
      as [Hex Hfv]%andb_prop.
    { rewrite forallb_forall in Hfields. apply Hfields.
      by apply list_elem_of_In. }
    assert ((strlen (fieldKey (fst fv)) <=? maxAlloc) && inRange (snd fv)
            = true) as [Hk%Z.leb_le Hr]%andb_prop.
    { rewrite forallb_forall in Hrange. apply Hrange.
      by apply list_elem_of_In. }
    split; [done |]. rewrite Forall_forall in IH.
    destruct (IH fv Hin Hfv Hr) as (m & Hm & Hw & Hinj). by exists m. }
  assert (Forall (fun fv => exported (fst fv) = true) fs) as Hex.
  { eapply Forall_impl; [exact Hfs |]. by intros ? [? _]. }
  destruct (marshalDict_loop_rel R fs [] Hfs) as (D & HD & Hall).
  simpl in HD.
  assert (length D = length fs) as HlenD by by apply Forall2_length in Hall.
  exists D. split; [|split; [|split]].
  - unfold marshalDict, marshalDict_with. rewrite decide_False by done.
    by rewrite HD.
  - rewrite HlenD. by apply Nat.ltb_lt.
  - assert (forallb (fun kv : KV => (strlen (fst kv) <=? maxAlloc)
                                    && writable (snd kv)) D = true) as HwD.
    { apply (Forall2_forallb_l _ _ _ _ Hall).
      intros kv fv [Hk (Hlenk & Hw & _)]. rewrite Hk, Hw.
      by rewrite (proj2 (Z.leb_le _ _) Hlenk). }
    destruct D as [|kv D]; [|exact HwD].
    simpl in HlenD. rewrite <- HlenD in Hlen. done.
  - cbn [wire dictRM rmD]. unfold New. rewrite Zero_TypeOf_struct.
    unfold unmarshalDict, unmarshalDict_with.
    rewrite fieldsMap_zeroFields.
    assert (unmarshalDict_loop unmarshalField
              (map (fun kv : KV => (fst kv, wire (snd kv))) D)
              (fieldsMap fs) ([] ++ zeroFields fs) = Ok ([] ++ fs)) as Hloop.
    { apply unmarshalDict_loop_all.
      - intros i sf fv Hi. simpl in Hi.
        by apply (fieldsMap_loop_lookup fs 0 i ∅ sf fv).
      - apply Forall2_map_l. eapply Forall2_impl; [exact Hall |].
        intros kv fv [Hk (_ & _ & Hinj)]. by split. }
    simpl in Hloop. by rewrite Hloop.
Qed.

Lemma fullySet_wireTrips_fields (v : value) :
  (fullySet v = true -> inRange v = true -> wireTrips v)
  /\ forall name fs, v = VStruct name fs ->
       Forall (fun fv => fullySet (snd fv) = true ->
                         inRange (snd fv) = true -> wireTrips (snd fv)) fs.
Proof.
  induction v as [i|u|s|n bits|elem xs IH|elem|elem target IH
                 |key elem entries|name fields IH|m] using value_ind';
    (split; [|try discriminate]); try discriminate.
  - (* int64 *)
    intros H%negb_true_iff Hr. exists (podRM (PInt64 i)).
    split; [|split; [exact Hr |]].
    + rewrite marshalKind_eq. unfold marshalPOD. by rewrite H.
    + cbn [inRange] in Hr.
      apply andb_prop in Hr as [Hlo%Z.leb_le Hhi%Z.ltb_lt].
      cbn [wire podRM option_map wirePOD map].
      destruct (0 <=? i) eqn:Hi.
      * apply Z.leb_le in Hi.
        split; [rewrite unmarshalElem_eq | rewrite unmarshalField_eq];
          cbn [TypeOf Zero isRawMessagePtr rmPOD];
          change (unmarshalPOD (PUint64 i) (VInt64 0))
            with (@Ok value (VInt64 (strconv.int64_of_uint64 i)));
          unfold strconv.int64_of_uint64;
          by rewrite (proj2 (Z.ltb_lt _ _) Hhi).
      * by split; [rewrite unmarshalElem_eq | rewrite unmarshalField_eq].
  - (* uint64 *)
    intros H%negb_true_iff Hr. exists (podRM (PUint64 u)).
    split; [|split; [exact Hr |]].
    + rewrite marshalKind_eq. unfold marshalPOD. by rewrite H.
    + by split; [rewrite unmarshalElem_eq | rewrite unmarshalField_eq].
  - (* string *)
    intros H%negb_true_iff Hr. exists (podRM (PString s)).
    split; [|split; [exact Hr |]].
    + rewrite marshalKind_eq. unfold marshalPOD. by rewrite H.
    + by split; [rewrite unmarshalElem_eq | rewrite unmarshalField_eq].
  - (* sequence *)
    intros [Hlen Hall]%andb_prop Hr. cbn [inRange] in Hr.
    assert (Forall (fun x => exists m,
              marshalKind (KindOf elem) x = Ok (Some m)
              /\ (writable m = true
                  /\ unmarshalElem (wire m) elem (Zero elem) = Ok x)) xs)
      as Hxs.
    { apply Forall_forall. intros x Hin.
      assert (bool_decide (TypeOf x = elem) && fullySet x = true)
        as [Ht%bool_decide_eq_true Hx]%andb_prop.
      { rewrite forallb_forall in Hall. apply Hall. by apply list_elem_of_In. }
      assert (inRange x = true) as Hrx.
      { rewrite forallb_forall in Hr. apply Hr. by apply list_elem_of_In. }
      rewrite Forall_forall in IH.
      destruct (proj1 (IH x Hin) Hx Hrx) as (m & Hm & Hw & Hinj & _).
      exists m. rewrite <- vKind_TypeOf, Ht in Hm. rewrite Ht in Hinj.
      done. }
    destruct (marshalList_loop_rel _ _ xs [] Hxs) as (ms & Hms & Hinj).
    simpl in Hms.
    assert (length ms = length xs) as Hlenms
      by by apply Forall2_length in Hinj.
    assert (unmarshalList (map wire ms) (VSlice elem [])
            = Ok (VSlice elem xs)) as Hun.
    { assert (Forall2 (fun m x => unmarshalElem m elem (Zero elem) = Ok x)
                (map wire ms) xs) as Hinj'.
      { apply Forall2_map_l. eapply Forall2_impl; [exact Hinj |].
        by intros m x [_ ?]. }
      pose proof (unmarshalList_loop_all elem _ xs [] Hinj') as Hloop.
      simpl in Hloop. unfold unmarshalList, unmarshalList_with.
      by rewrite Hloop. }
    exists (listRM ms). split; [|split].
    + rewrite marshalKind_eq. unfold vKind, marshalList, marshalList_with.
      destruct xs; [done |]. cbn [length Nat.eqb]. by rewrite Hms.
    + assert (forallb writable ms = true) as Hw.
      { apply (Forall2_forallb_l _ _ _ _ Hinj). by intros m x [? _]. }
      destruct ms as [|m ms]; [|exact Hw].
      simpl in Hlenms. rewrite <- Hlenms in Hlen. done.
    + assert ((0 <? length (map wire ms))%nat = true) as Hpos
        by (by rewrite length_map, Hlenms).
      split; [rewrite unmarshalElem_eq | rewrite unmarshalField_eq];
        cbn [TypeOf Zero isRawMessagePtr listRM wire option_map
             rmPOD rmL rmD];
        by rewrite Hpos.
  - (* pointer *)
    destruct IH as [_ IHfs].
    destruct target as [| | | | | | |name fs|m]; try discriminate.
    + intros Hset Hr.
      assert (elem = TypeOf (VStruct name fs) /\ name <> "RawMessage")
        as [-> Hname].
      { pose proof Hset as Hparts. cbn [fullySet] in Hparts.
        do 3 (apply andb_prop in Hparts as [Hparts _]).
        apply andb_prop in Hparts
          as [?%bool_decide_eq_true ?%negb_true_iff%bool_decide_eq_false].
        done. }
      destruct (struct_wireTrips name fs Hset Hr (IHfs _ _ eq_refl))
        as (D & HD & Hlen & Hw & Hun).
      exists (dictRM D). split; [by rewrite marshalKind_eq |].
      split; [done |]. cbn [wire dictRM rmD option_map map] in *.
      split; [rewrite unmarshalElem_eq | rewrite unmarshalField_eq];
        cbn [TypeOf Zero isRawMessagePtr TypeName rmPOD rmL rmD
             length Nat.ltb Nat.leb];
        rewrite bool_decide_eq_false_2 by done;
        (destruct D; [simpl in Hlen; lia | exact Hun]).
    + intros ->%bool_decide_eq_true Hc. cbn [inRange] in Hc.
      destruct (canonical_wire m Hc) as [Hw Hid].
      exists m. split; [done |]. split; [done |]. rewrite Hid.
      by split; [rewrite unmarshalElem_eq | rewrite unmarshalField_eq].
  - (* record *)
    intros name' fs [= <- <-].
    eapply Forall_impl; [exact IH |]. by intros fv [? _].
Qed.

(** X18. From a record to bytes and back.  Let a record be fully set (all
    of its fields exported, with keys different from each other, non-zero
    and non-empty, and so on inside) and hold values of Go (64-bit
    integers, strings and keys that can be allocated, canonical
    RawMessages).  Then [Marshal] writes bytes, and [Unmarshal] of these
    bytes into a new record of the same type gives the record back. *)
Theorem marshal_then_unmarshal (elem : type) (name : string)
    (fs : list (StructField * value)) :
  fullySet (VPtr elem (Some (VStruct name fs))) = true ->
  inRange (VPtr elem (Some (VStruct name fs))) = true ->
  exists bytes,
    Marshal (VPtr elem (Some (VStruct name fs))) = Ok (Some bytes)
    /\ Unmarshal bytes (New elem) = Ok (VPtr elem (Some (VStruct name fs))).
Proof.
  intros Hset Hr.
  assert (elem = TypeOf (VStruct name fs)) as ->.
  { pose proof Hset as Hparts. cbn [fullySet] in Hparts.
    do 4 (apply andb_prop in Hparts as [Hparts _]).
    by apply bool_decide_eq_true in Hparts. }
  destruct (fullySet_wireTrips_fields (VStruct name fs)) as [_ Hfs].
  destruct (struct_wireTrips name fs Hset Hr (Hfs _ _ eq_refl))
    as (D & HD & _ & Hw & Hun).
  exists (Encode (dictRM D)). split.
  - unfold Marshal. rewrite decide_True by done. by rewrite HD.
  - unfold Unmarshal, Encode.
    rewrite <- encode_wire, Decode_canonical by by apply wire_canonical.
    cbn [mbind outcome_bind]. unfold RawMessage_Unmarshal, New.
    by rewrite decide_True.
Qed.

Lemma marshal_then_unmarshal_witness :
  exists bytes,
    Marshal (VPtr MetaInfo_t (Some (VStruct "MetaInfo" metaInfoFields)))
    = Ok (Some bytes)
    /\ Unmarshal bytes (New MetaInfo_t)
       = Ok (VPtr MetaInfo_t (Some (VStruct "MetaInfo" metaInfoFields))).
Proof.
  apply (marshal_then_unmarshal MetaInfo_t "MetaInfo" metaInfoFields);
    vm_compute; reflexivity.
Defined.

(** ** The top of [Marshal] and [Unmarshal] *)

(** The first byte of the input decides which part of the RawMessage is
    set. *)
Lemma decode_head_shape (c : ascii) (r : string) (m : RawMessage) :
  Decode (String c r) = Ok m ->
  (c <> "d"%char -> rmD m = [])
  /\ (c = "l"%char \/ c = "d"%char -> rmPOD m = None).
Proof.
  unfold Decode. rewrite decodeRawMessage_S.
  destruct (is_digit c) eqn:Hdig.
  { destruct (strBuf _) as [[s r2]| |]; try done. intros [= <-].
    split; [done |]. by intros [->| ->]. }
  destruct (decide (c = "i"%char)) as [->|Hi].
  { destruct (intBuf r "e") as [[tok r2]| |]; try done.
    cbn [mbind outcome_bind]. destruct tok as [|c0 tok]; [done |].
    destruct (decide (c0 = "-"%char)).
    - destruct (strconv.ParseInt _); try done. intros [= <-].
      split; [done |]. by intros [|].
    - destruct (strconv.ParseUint _); try done. intros [= <-].
      split; [done |]. by intros [|]. }
  destruct (decide (c = "l"%char)) as [->|Hl].
  { destruct (decodeL_loop _ _ r []) as [[[L r2]| |]|]; try done.
    by intros [= <-]. }
  destruct (decide (c = "d"%char)) as [->|Hd]; [|done].
  destruct (decodeD_loop _ _ r []) as [[[D r2]| |]|]; try done.
  by intros [= <-].
Qed.

(** X19. Bytes that hold a scalar or a list, injected into a record, are
    accepted without an error, and the record is left as it was: only the
    dict of the decoded value is looked at, and it is empty. *)
Theorem unmarshal_non_dict_into_record (c : ascii) (r : string)
    (m : RawMessage) (elem : type) (name : string)
    (fs : list (StructField * value)) :
  Decode (String c r) = Ok m -> c <> "d"%char -> KindOf elem = Struct ->
  Unmarshal (String c r) (VPtr elem (Some (VStruct name fs)))
  = Ok (VPtr elem (Some (VStruct name fs))).
Proof.
  intros Hdec Hc Hk. unfold Unmarshal. rewrite Hdec.
  cbn [mbind outcome_bind]. unfold RawMessage_Unmarshal.
  rewrite decide_True by done.
  by rewrite (proj1 (decode_head_shape c r m Hdec) Hc).
Qed.

Lemma unmarshal_non_dict_into_record_witness :
  Unmarshal "l1:ae" (VPtr point_t (Some (VStruct "point" [])))
  = Ok (VPtr point_t (Some (VStruct "point" []))).
Proof.
  apply (unmarshal_non_dict_into_record "l" "1:ae"
           (listRM [podRM (PString "a")]) point_t "point" []);
    [reflexivity | discriminate | reflexivity].
Defined.

(** X20. Bytes that hold a list or a dict, injected into a pointer to
    anything but a record, are a fault: [rm.POD] is nil there, and
    [unmarshalPOD] asks the kind of its type. *)
Theorem unmarshal_list_into_scalar_faults (c : ascii) (r : string)
    (m : RawMessage) (elem : type) (target : option value) :
  Decode (String c r) = Ok m -> c = "l"%char \/ c = "d"%char ->
  KindOf elem <> Struct ->
  Unmarshal (String c r) (VPtr elem target)
  = Panic (ReflectPanic "nil pointer dereference").
Proof.
  intros Hdec Hc Hk. unfold Unmarshal. rewrite Hdec.
  cbn [mbind outcome_bind]. unfold RawMessage_Unmarshal.
  rewrite decide_False by done.
  by rewrite (proj2 (decode_head_shape c r m Hdec) Hc).
Qed.

Lemma unmarshal_list_into_scalar_faults_witness :
  Unmarshal "li1ee" (VPtr TInt64 (Some (VInt64 0)))
  = Panic (ReflectPanic "nil pointer dereference").
Proof.
  apply (unmarshal_list_into_scalar_faults "l" "i1ee"
           (listRM [podRM (PUint64 1)]) TInt64 (Some (VInt64 0)));
    [reflexivity | by left | discriminate].
Defined.

(** X21. [Marshal] of a pointer to anything but a record writes no byte
    and reports no error: it is the pointer, not what it points to, that
    becomes the [POD], and [encodePOD] has no case for it. *)
Theorem marshal_scalar_pointer_writes_nothing (elem : type) (v : value) :
  KindOf elem <> Struct ->
  Marshal (VPtr elem (Some v)) = Ok (Some ""%string).
Proof. intros Hk. unfold Marshal. by rewrite decide_False. Qed.

Lemma marshal_scalar_pointer_writes_nothing_witness :
  Marshal (VPtr TInt64 (Some (VInt64 5))) = Ok (Some ""%string).
Proof.
  apply (marshal_scalar_pointer_writes_nothing TInt64 (VInt64 5)).
  discriminate.
Defined.

(** ** The errors of [Unmarshal] *)


Section injector_loops_error.

Variable mk : RawMessage -> type -> value -> outcome value.



End injector_loops_error.







(** ** Values on which the projector does not fault *)

Lemma marshalList_loop_returned mk (kind : Kind) (xs : list value)
    (L : list RawMessage) :
  Forall (fun x => returned (mk kind x)) xs ->
  returned (marshalList_loop mk kind xs L).
Proof.
  intros Hxs. revert L.
  induction Hxs as [|x xs Hx _ IH]; intros L; simpl; [done |].
  destruct (mk kind x) as [m| |]; simpl; [apply IH | done | done].
Qed.

Lemma marshalDict_loop_returned mk (fs : list (StructField * value))
    (D : list KV) :
  Forall (fun fv => returned (mk (KindOf (TypeOf (snd fv))) (snd fv))) fs ->
  returned (marshalDict_loop mk fs D).
Proof.
  intros Hfs. revert D.
  induction Hfs as [|[sf fv] fs Hfv _ IH]; intros D; simpl; [done |].
  destruct (exported sf); simpl; [|apply IH]. simpl in Hfv.
  destruct (mk _ fv) as [m| |]; simpl; [apply IH | done | done].
Qed.

Lemma sound_returned (v : value) :
  (sound v = true -> returned (marshalKind (vKind v) v))
  /\ forall name fs, v = VStruct name fs -> sound v = true ->
       forall D, returned (marshalDict_loop marshalKind fs D).
Proof.
  induction v as [i|u|s|n bits|elem xs IH|elem|elem target IH
                 |key elem entries|name fields IH|m] using value_ind';
    (split; [|try discriminate]); try done.
  - (* sequence *)
    intros Hs. cbn [sound] in Hs. rewrite marshalKind_eq. cbn [vKind].
    unfold marshalList, marshalList_with.
    destruct (_ =? _)%nat; [done |].
    assert (returned (marshalList_loop marshalKind (KindOf elem) xs []))
      as Hloop.
    { apply marshalList_loop_returned. apply Forall_forall. intros x Hin.
      assert (bool_decide (TypeOf x = elem) && sound x = true)
        as [Ht%bool_decide_eq_true Hx]%andb_prop.
      { rewrite forallb_forall in Hs. apply Hs. by apply list_elem_of_In. }
      rewrite Forall_forall in IH. rewrite <- Ht, vKind_TypeOf.
      by apply (IH x). }
    by destruct (marshalList_loop _ _ xs []).
  - (* pointer *)
    destruct IH as [_ IHfs]. intros Hs. cbn [sound] in Hs.
    apply andb_prop in Hs as [_ Hs].
    rewrite marshalKind_eq. cbn [vKind]. unfold marshalDict, marshalDict_with.
    destruct target as [| | | | | | |name fs|m]; try done.
    pose proof Hs as Hname. cbn [sound] in Hname.
    apply andb_prop in Hname as [Hname%negb_true_iff%bool_decide_eq_false _].
    rewrite decide_False by done.
    pose proof (IHfs name fs eq_refl Hs []) as Hloop.
    by destruct (marshalDict_loop _ fs []).
  - (* record *)
    intros name' fs [= <- <-] Hs D. cbn [sound] in Hs.
    apply andb_prop in Hs as [_ Hs]. apply marshalDict_loop_returned.
    apply Forall_forall. intros fv Hin. rewrite vKind_TypeOf.
    rewrite Forall_forall in IH. apply (IH fv Hin).
    rewrite forallb_forall in Hs. apply Hs. by apply list_elem_of_In.
Qed.

(** X23. [Marshal] does not fault on a value that has no nil pointer
    inside, whose elements and pointers hold values of their declared
    types, and in which no struct but the package's own is called
    [RawMessage]: it writes bytes, writes nothing, or returns its error. *)
Theorem marshal_no_fault (val : value) :
  sound val = true -> returned (Marshal val).
Proof.
  intros Hs. pose proof (proj1 (sound_returned val) Hs) as Hret.
  rewrite marshalKind_eq in Hret. unfold Marshal.
  destruct val as [| | | |elem xs|elem target| | |]; try done.
  - cbn [vKind] in Hret. by destruct (marshalList _) as [[rm|]| |].
  - cbn [vKind] in Hret.
    destruct (decide (KindOf elem = Struct)); [|by destruct (marshalPOD _)].
    by destruct (marshalDict _) as [[rm|]| |].
Qed.

Lemma marshal_no_fault_witness :
  returned (Marshal (VPtr counter_t
                       (Some (VStruct "counter"
                                [(mkStructField "Total" "" [], VInt64 0);
                                 (mkStructField "seen" "main" [],
                                  VInt64 2)])))).
Proof.
  apply (marshal_no_fault
           (VPtr counter_t
              (Some (VStruct "counter"
                       [(mkStructField "Total" "" [], VInt64 0);
                        (mkStructField "seen" "main" [], VInt64 2)])))).
  reflexivity.
Defined.
